(** * Template materialization engine of the Ultimate Framework Factory

    A shallow embedding of the placeholder-substitution transform (class
    [RegexMatch], lib/transforms/regex-match.js), of the copy pipeline and
    the extension classifier ([FileUtil.transformCopy], [FileUtil.getExtname],
    lib/utils/file-util.js) and of the directory walkers
    ([FileUtil.getTemplateFilePaths], and [getDirRecursive] /
    [getDirRecursiveSync] of the later revision of [FileUtil]), with the
    properties the specification states about them.

    Conventions.
    - A JavaScript string is a sequence of UTF-16 code units ([string]); a
      [Buffer] is a sequence of bytes.  [Buffer.prototype.toString] decodes
      UTF-8, with U+FFFD for every ill-formed sequence, and [Buffer.from]
      encodes it.
    - [undefined] and [null] are [None].
    - The regular-expression engine of the runtime is an interface
      ([RegExpEngine]); the built-ins of [String.prototype] and
      [RegExp.prototype] are written over it following ECMA-262.  A small
      executable engine ([Flat]) instantiates the interface for examples.
    - A thrown exception and a rejected promise are explicit results, and so
      is a promise that is never settled; a loop whose end depends on the
      file system takes fuel and returns [None] when the fuel runs out.
    - Paths follow [path.posix].  The walkers work on normalized paths, given
      as lists of components.
    - The file system is a tree of directories and other entries, with two
      tables beside it: the symbolic links, which [fs.Dirent] reports as
      they are and [fs.stat] follows, and the directories the system refuses
      to create. *)

From Stdlib Require Import Bool Arith ZArith NArith Lia List Permutation.
From Stdlib.Strings Require Import Byte.
Import ListNotations.

Set Warnings "-register-all".

(* ================================================================== *)
(** * Part I.  Definitions                                            *)
(* ================================================================== *)

(** ** JavaScript strings *)

(** A UTF-16 code unit: a number below [2^16]. *)
Definition code_unit : Set := N.

Module CodeUnit.

Definition eqb (c d : code_unit) : bool := N.eqb c d.

(** The literal of a code unit below 128. *)
Definition of_bytes (l : list byte) : option N :=
  match l with
  | [b] => if (Byte.to_N b <? 128)%N then Some (Byte.to_N b) else None
  | _ => None
  end.

Definition to_bytes (c : N) : option (list byte) :=
  if (c <? 128)%N then option_map (fun b => [b]) (Byte.of_N c) else None.

End CodeUnit.

Arguments CodeUnit.eqb : simpl nomatch.

Declare Scope unit_scope.
Delimit Scope unit_scope with unit.
String Notation N CodeUnit.of_bytes CodeUnit.to_bytes : unit_scope.
Bind Scope unit_scope with code_unit.

(** A string: its code units in order. *)
Inductive string : Set :=
| EmptyString
| String (c : code_unit) (s : string).

(** [s1 + s2] *)
Fixpoint append (s1 s2 : string) : string :=
  match s1 with
  | EmptyString => s2
  | String c s1' => String c (append s1' s2)
  end.

(** The [m] code units of [s] from index [n] on, or as many as there are. *)
Fixpoint substring (n m : nat) (s : string) : string :=
  match n, m, s with
  | 0, 0, _ => EmptyString
  | 0, S m', EmptyString => s
  | 0, S m', String c s' => String c (substring 0 m' s')
  | S n', _, EmptyString => s
  | S n', _, String c s' => substring n' m s'
  end.

(** The code units of a string as a list. *)
Fixpoint list_units_of_string (s : string) : list code_unit :=
  match s with
  | EmptyString => []
  | String c s' => c :: list_units_of_string s'
  end.

Module String.

(** [s.length] *)
Fixpoint length (s : string) : nat :=
  match s with
  | EmptyString => 0
  | String _ s' => S (length s')
  end.

(** [s1 === s2] *)
Fixpoint eqb (s1 s2 : string) : bool :=
  match s1, s2 with
  | EmptyString, EmptyString => true
  | String c1 s1', String c2 s2' => CodeUnit.eqb c1 c2 && eqb s1' s2'
  | _, _ => false
  end.

(** [ls.join(sep)] for an array of strings. *)
Fixpoint concat (sep : string) (ls : list string) : string :=
  match ls with
  | [] => EmptyString
  | [x] => x
  | x :: xs => append x (append sep (concat sep xs))
  end.

(** The literal of a string of code units below 128. *)
Fixpoint of_bytes (l : list byte) : option string :=
  match l with
  | [] => Some EmptyString
  | b :: l' =>
      if (Byte.to_N b <? 128)%N
      then option_map (String (Byte.to_N b)) (of_bytes l')
      else None
  end.

Fixpoint to_bytes (s : string) : option (list byte) :=
  match s with
  | EmptyString => Some []
  | String c s' =>
      if (c <? 128)%N
      then match Byte.of_N c, to_bytes s' with
           | Some b, Some l => Some (b :: l)
           | _, _ => None
           end
      else None
  end.

End String.

Declare Scope js_scope.
Delimit Scope js_scope with js.
String Notation string String.of_bytes String.to_bytes : js_scope.
Bind Scope js_scope with string.

Local Open Scope js_scope.
Local Open Scope list_scope.
Local Open Scope nat_scope.

(** ** JavaScript values used by the transform *)

(** [ToString] applied to a string or to [undefined]. *)
Definition ToString (v : option string) : string :=
  match v with
  | Some s => s
  | None => "undefined"
  end.

(** An element of an array converted by [Array.prototype.join]:
    [undefined] becomes the empty string. *)
Definition join_element (v : option string) : string :=
  match v with
  | Some s => s
  | None => ""
  end.

(** [Array.prototype.toString], which a template literal applies to an array:
    the elements joined by commas. *)
Definition Array_toString (a : list (option string)) : string :=
  String.concat "," (map join_element a).

(** [s.slice(i)] for [0 <= i]. *)
Fixpoint string_from (i : nat) (s : string) : string :=
  match i, s with
  | 0, _ => s
  | S i', String _ s' => string_from i' s'
  | S _, EmptyString => EmptyString
  end.

(** ** The regular-expression engine *)

(** What one successful run of a pattern at a position yields: the length of
    the matched text, the capture groups and the named groups. *)
Record MatchState : Type := mkMatchState {
  ms_length : nat;
  ms_captures : list (option string);
  ms_groups : option (list (string * option string))
}.

(** The runtime's engine.  [compile src] is the pattern of [new RegExp(src)]
    ([None]: the constructor throws a [SyntaxError]); [pattern_match p s i]
    runs the pattern against [s] at index [i] exactly (the matcher of
    ECMA-262, 22.2.2). *)
Class RegExpEngine : Type := {
  Pattern : Type;
  compile : string -> option Pattern;
  pattern_match : Pattern -> string -> nat -> option MatchState
}.

(** The array-like result of [RegExpBuiltinExec]. *)
Record ExecResult : Type := mkExecResult {
  er_index : nat;
  er_matched : string;
  er_captures : list (option string);
  er_groups : option (list (string * option string))
}.

(** A [RegExp] object: its pattern, its [g] flag and its mutable [lastIndex]. *)
Record RegExp `{RegExpEngine} : Type := mkRegExp {
  re_pattern : Pattern;
  re_global : bool;
  re_lastIndex : nat
}.

Arguments mkRegExp {_} _ _ _.

Section Builtins.
Context `{E : RegExpEngine}.

(** The scan of [RegExpBuiltinExec]: the pattern is tried at [i], [i+1], ...
    up to the end of the string ([n] positions remain after [i]). *)
Fixpoint exec_scan (p : Pattern) (s : string) (i n : nat) : option ExecResult :=
  match pattern_match p s i with
  | Some st =>
      Some (mkExecResult i (substring i (ms_length st) s)
              (ms_captures st) (ms_groups st))
  | None =>
      match n with
      | 0 => None
      | S n' => exec_scan p s (S i) n'
      end
  end.

(** [RegExpBuiltinExec] started at [lastIndex]: fails when [lastIndex] is
    past the end of the string. *)
Definition RegExpBuiltinExec (p : Pattern) (s : string) (lastIndex : nat)
  : option ExecResult :=
  if String.length s <? lastIndex then None
  else exec_scan p s lastIndex (String.length s - lastIndex).

(** The [lastIndex] a global [RegExp] holds after a successful exec, moved
    one further by the callers' [AdvanceStringIndex] when the match is
    empty. *)
Definition next_lastIndex (r : ExecResult) : nat :=
  let e := er_index r + String.length (er_matched r) in
  if String.length (er_matched r) =? 0 then S e else e.

(** The loop shared by [RegExp.prototype[Symbol.match]] and
    [RegExp.prototype[Symbol.replace]] for a global [RegExp]: exec is
    repeated from the updated [lastIndex] until it fails.  [fuel] bounds the
    number of rounds; [exec_all_fuel] shows [String.length s + 2] rounds
    are always enough. *)
Fixpoint exec_all (fuel : nat) (p : Pattern) (s : string) (lastIndex : nat)
  : list ExecResult :=
  match fuel with
  | 0 => []
  | S fuel' =>
      match RegExpBuiltinExec p s lastIndex with
      | None => []
      | Some r => r :: exec_all fuel' p s (next_lastIndex r)
      end
  end.

Definition exec_global (p : Pattern) (s : string) : list ExecResult :=
  exec_all (String.length s + 2) p s 0.

(** [new RegExp(pattern, flags)]: an [undefined] pattern is the empty
    pattern. *)
Definition RegExp_new (pattern : option string) (global : bool) : option RegExp :=
  match compile (join_element pattern) with
  | Some p => Some (mkRegExp p global 0)
  | None => None
  end.

(** [s.match(rx)]: the result ([None] is [null]) and the [RegExp] object
    afterwards.  Without the [g] flag it is the exec array (the matched text
    followed by the captures) and [lastIndex] is neither read nor written;
    with [g] it is the list of all matched texts, [lastIndex] is reset first
    and is 0 again at the end. *)
Definition String_match (s : string) (rx : RegExp)
  : option (list (option string)) * RegExp :=
  if re_global rx then
    let rx' := mkRegExp (re_pattern rx) true 0 in
    match exec_global (re_pattern rx) s with
    | [] => (None, rx')
    | rs => (Some (map (fun r => Some (er_matched r)) rs), rx')
    end
  else
    match RegExpBuiltinExec (re_pattern rx) s 0 with
    | None => (None, rx)
    | Some r => (Some (Some (er_matched r) :: er_captures r), rx)
    end.

(** [rx.test(s)] for a [RegExp] without the [g] flag. *)
Definition RegExp_test (p : Pattern) (s : string) : bool :=
  match RegExpBuiltinExec p s 0 with
  | Some _ => true
  | None => false
  end.

End Builtins.

(** ** [String.prototype.replace] with a replacement template *)

Definition is_digit (c : code_unit) : bool :=
  (48 <=? N.to_nat c) && (N.to_nat c <=? 57).

Definition digit_value (c : code_unit) : nat := N.to_nat c - 48.

Fixpoint string_mem (c : code_unit) (s : string) : bool :=
  match s with
  | EmptyString => false
  | String d s' => CodeUnit.eqb c d || string_mem c s'
  end.

(** The text a numbered reference [ref] ([$n] or [$nn]) stands for: the
    capture when there is one with that number, the reference itself
    otherwise. *)
Definition capture_ref (captures : list (option string)) (index : nat)
  (ref : string) : string :=
  if (1 <=? index) && (index <=? List.length captures)
  then join_element (nth (index - 1) captures None)
  else ref.

(** The value of a named group in [$<name>]. *)
Fixpoint named_ref (groups : list (string * option string)) (name : string)
  : string :=
  match groups with
  | [] => ""
  | (k, v) :: groups' =>
      if String.eqb k name then join_element v else named_ref groups' name
  end.

Section GetSubstitution.
Variable r : ExecResult.
Variable str : string.

(** [GetSubstitution] (ECMA-262, 22.1.3.19.1) on the remainder [template] of
    the replacement text.  [name] is [Some acc] while the characters of a
    [$<name>] reference are being read. *)
Fixpoint GetSubstitution_from (name : option string) (template : string)
  : string :=
  match name with
  | Some acc =>
      match template with
      | EmptyString => EmptyString
      | String c rest =>
          if CodeUnit.eqb c ">"
          then append (named_ref (match er_groups r with Some g => g | None => [] end) acc)
                      (GetSubstitution_from None rest)
          else GetSubstitution_from (Some (append acc (String c EmptyString))) rest
      end
  | None =>
      match template with
      | EmptyString => EmptyString
      | String c t1 =>
          if negb (CodeUnit.eqb c "$") then String c (GetSubstitution_from None t1)
          else
            match t1 with
            | EmptyString => "$"
            | String d t2 =>
                if CodeUnit.eqb d "$" then String "$" (GetSubstitution_from None t2)
                else if CodeUnit.eqb d "`" then
                  append (substring 0 (er_index r) str) (GetSubstitution_from None t2)
                else if CodeUnit.eqb d "&" then
                  append (er_matched r) (GetSubstitution_from None t2)
                else if CodeUnit.eqb d "'" then
                  append (string_from (er_index r + String.length (er_matched r)) str)
                         (GetSubstitution_from None t2)
                else if is_digit d then
                  let one :=
                    append (capture_ref (er_captures r) (digit_value d)
                              (String "$" (String d EmptyString)))
                           (GetSubstitution_from None t2) in
                  match t2 with
                  | EmptyString => one
                  | String d2 t3 =>
                      let index2 := 10 * digit_value d + digit_value d2 in
                      if is_digit d2 && (index2 <=? List.length (er_captures r))
                      then append (capture_ref (er_captures r) index2
                                     (String "$" (String d (String d2 EmptyString))))
                                  (GetSubstitution_from None t3)
                      else one
                  end
                else if CodeUnit.eqb d "<" then
                  match er_groups r with
                  | None => String "$" (String "<" (GetSubstitution_from None t2))
                  | Some _ =>
                      if string_mem ">" t2 then GetSubstitution_from (Some EmptyString) t2
                      else String "$" (String "<" (GetSubstitution_from None t2))
                  end
                else String "$" (GetSubstitution_from None t1)
            end
      end
  end.

Definition GetSubstitution (template : string) : string :=
  GetSubstitution_from None template.

End GetSubstitution.

Section Replace.
Context `{E : RegExpEngine}.

(** The accumulation loop of [RegExp.prototype[Symbol.replace]]: the text
    built so far and [nextSourcePosition]. *)
Definition replace_step (s replaceValue : string) (st : string * nat)
  (r : ExecResult) : string * nat :=
  let '(accumulated, nextSourcePosition) := st in
  let position := Nat.min (er_index r) (String.length s) in
  if nextSourcePosition <=? position then
    (append accumulated
       (append (substring nextSourcePosition (position - nextSourcePosition) s)
               (GetSubstitution r s replaceValue)),
     position + String.length (er_matched r))
  else st.

Definition replace_results (s replaceValue : string) (results : list ExecResult)
  : string :=
  let '(accumulated, nextSourcePosition) :=
    fold_left (replace_step s replaceValue) results (EmptyString, 0) in
  if String.length s <=? nextSourcePosition then accumulated
  else append accumulated (string_from nextSourcePosition s).

(** [s.replace(rx, replaceValue)] for a replacement that is not a function
    ([undefined] is converted to a string first). *)
Definition String_replace (s : string) (rx : RegExp) (replaceValue : option string)
  : string :=
  let results :=
    if re_global rx then exec_global (re_pattern rx) s
    else match RegExpBuiltinExec (re_pattern rx) s 0 with
         | Some r => [r]
         | None => []
         end in
  replace_results s (ToString replaceValue) results.

End Replace.

(** ** Exceptions *)

Inductive JsError : Type :=
| Error (message : string)
| SyntaxError (source : string)
| TypeError (message : string)
| SystemError (code : string).

Inductive completion (A : Type) : Type :=
| Normal (a : A)
| Throw (e : JsError).

Arguments Normal {A} a.
Arguments Throw {A} e.

(** ** Buffers and UTF-8 *)

(** The byte with the value [n], taken modulo 256. *)
Definition byte_of (n : N) : byte :=
  match Byte.of_N (n mod 256) with
  | Some b => b
  | None => x00
  end.

(** The value of [b] lies between [lo] and [hi]. *)
Definition byte_in (lo hi : N) (b : byte) : bool :=
  (lo <=? Byte.to_N b)%N && (Byte.to_N b <=? hi)%N.

(** U+FFFD REPLACEMENT CHARACTER. *)
Definition REPLACEMENT : code_unit := 65533%N.

(** The six bits a continuation byte carries. *)
Definition payload (b : byte) : N := (Byte.to_N b - 128)%N.

(** The bounds of the byte after the lead byte [b0]: the whole range of a
    continuation byte, narrowed after [E0] and [F0] (no overlong form),
    after [ED] (no surrogate) and after [F4] (nothing above U+10FFFF). *)
Definition second_low (b0 : byte) : N :=
  if (Byte.to_N b0 =? 224)%N then 160%N
  else if (Byte.to_N b0 =? 240)%N then 144%N
  else 128%N.

Definition second_high (b0 : byte) : N :=
  if (Byte.to_N b0 =? 237)%N then 159%N
  else if (Byte.to_N b0 =? 244)%N then 143%N
  else 191%N.

(** The code units of the code point [cp] put before [s]: the code point
    itself, or its surrogate pair when it is above U+FFFF. *)
Definition utf16 (cp : N) (s : string) : string :=
  if (cp <? 65536)%N then String cp s
  else String (55296 + (cp - 65536) / 1024)%N
         (String (56320 + (cp - 65536) mod 1024)%N s).

(** The UTF-8 decoder of [buf.toString()]: every maximal ill-formed part
    of the input gives one U+FFFD, and the byte that ended it is read
    again. *)
Fixpoint utf8_decode (bs : list byte) : string :=
  match bs with
  | [] => EmptyString
  | b0 :: r0 =>
      if byte_in 0 127 b0 then String (Byte.to_N b0) (utf8_decode r0)
      else if byte_in 194 223 b0 then
        match r0 with
        | [] => String REPLACEMENT EmptyString
        | b1 :: r1 =>
            if byte_in 128 191 b1
            then String ((Byte.to_N b0 - 192) * 64 + payload b1)%N (utf8_decode r1)
            else String REPLACEMENT (utf8_decode r0)
        end
      else if byte_in 224 239 b0 then
        match r0 with
        | [] => String REPLACEMENT EmptyString
        | b1 :: r1 =>
            if byte_in (second_low b0) (second_high b0) b1 then
              match r1 with
              | [] => String REPLACEMENT EmptyString
              | b2 :: r2 =>
                  if byte_in 128 191 b2
                  then String ((Byte.to_N b0 - 224) * 4096
                               + payload b1 * 64 + payload b2)%N
                         (utf8_decode r2)
                  else String REPLACEMENT (utf8_decode r1)
              end
            else String REPLACEMENT (utf8_decode r0)
        end
      else if byte_in 240 244 b0 then
        match r0 with
        | [] => String REPLACEMENT EmptyString
        | b1 :: r1 =>
            if byte_in (second_low b0) (second_high b0) b1 then
              match r1 with
              | [] => String REPLACEMENT EmptyString
              | b2 :: r2 =>
                  if byte_in 128 191 b2 then
                    match r2 with
                    | [] => String REPLACEMENT EmptyString
                    | b3 :: r3 =>
                        if byte_in 128 191 b3
                        then utf16 ((Byte.to_N b0 - 240) * 262144
                                    + payload b1 * 4096 + payload b2 * 64
                                    + payload b3)%N
                               (utf8_decode r3)
                        else String REPLACEMENT (utf8_decode r2)
                    end
                  else String REPLACEMENT (utf8_decode r1)
              end
            else String REPLACEMENT (utf8_decode r0)
        end
      else String REPLACEMENT (utf8_decode r0)
  end.

(** The UTF-8 form of a code point. *)
Definition utf8_bytes (cp : N) : list byte :=
  if (cp <? 128)%N then [byte_of cp]
  else if (cp <? 2048)%N then
    [byte_of (192 + cp / 64); byte_of (128 + cp mod 64)]
  else if (cp <? 65536)%N then
    [byte_of (224 + cp / 4096); byte_of (128 + (cp / 64) mod 64);
     byte_of (128 + cp mod 64)]
  else
    [byte_of (240 + cp / 262144); byte_of (128 + (cp / 4096) mod 64);
     byte_of (128 + (cp / 64) mod 64); byte_of (128 + cp mod 64)].

Definition is_high_surrogate (c : code_unit) : bool :=
  (55296 <=? c)%N && (c <=? 56319)%N.

Definition is_low_surrogate (c : code_unit) : bool :=
  (56320 <=? c)%N && (c <=? 57343)%N.

(** The UTF-8 encoder of [Buffer.from(string)]: a surrogate pair is one
    code point, a surrogate without its partner is written as U+FFFD. *)
Fixpoint utf8_encode (s : string) : list byte :=
  match s with
  | EmptyString => []
  | String c s' =>
      if is_high_surrogate c then
        match s' with
        | EmptyString => utf8_bytes REPLACEMENT
        | String d s'' =>
            if is_low_surrogate d
            then utf8_bytes (65536 + (c - 55296) * 1024 + (d - 56320))%N
                 ++ utf8_encode s''
            else utf8_bytes REPLACEMENT ++ utf8_encode s'
        end
      else if is_low_surrogate c then utf8_bytes REPLACEMENT ++ utf8_encode s'
      else utf8_bytes c ++ utf8_encode s'
  end.

(** Well-formed UTF-8 (The Unicode Standard, table 3-7). *)
Fixpoint well_formed_utf8 (bs : list byte) : bool :=
  match bs with
  | [] => true
  | b0 :: r0 =>
      if byte_in 0 127 b0 then well_formed_utf8 r0
      else if byte_in 194 223 b0 then
        match r0 with
        | b1 :: r1 => byte_in 128 191 b1 && well_formed_utf8 r1
        | _ => false
        end
      else if byte_in 224 239 b0 then
        match r0 with
        | b1 :: b2 :: r2 =>
            byte_in (second_low b0) (second_high b0) b1
            && byte_in 128 191 b2 && well_formed_utf8 r2
        | _ => false
        end
      else if byte_in 240 244 b0 then
        match r0 with
        | b1 :: b2 :: b3 :: r3 =>
            byte_in (second_low b0) (second_high b0) b1
            && byte_in 128 191 b2 && byte_in 128 191 b3
            && well_formed_utf8 r3
        | _ => false
        end
      else false
  end.

(** A [Buffer] is a sequence of bytes.  [Buffer.alloc(0)], [Buffer.concat],
    [buf.toString()] and [Buffer.from(string)], the last two with their
    default encoding, UTF-8. *)
Definition Buffer : Type := list byte.
Definition Buffer_alloc0 : Buffer := [].
Definition Buffer_concat (chunks : list Buffer) : Buffer := List.concat chunks.
Definition Buffer_toString (b : Buffer) : string := utf8_decode b.
Definition Buffer_from (s : string) : Buffer := utf8_encode s.

(** ** The substitution transform ([class RegexMatch]) *)

(** The variables ([args.vars]): the own properties of a plain object, in the
    order [Object.keys] lists them. *)
Definition Vars : Type := list (string * string).

Definition Object_keys (o : Vars) : list string := map fst o.

Fixpoint Object_get (o : Vars) (key : string) : option string :=
  match o with
  | [] => None
  | (k, v) :: o' => if String.eqb k key then Some v else Object_get o' key
  end.

(** The parsed command line as far as the transform reads it:
    [args.opts.pattern] ([None] when the option is absent) and [args.vars]. *)
Record Args : Type := mkArgs {
  opts_pattern : option string;
  args_vars : Vars
}.

(** A [{matchStr, value}] object of [foundMatches]. *)
Record MatchRecord : Type := mkMatchRecord {
  matchStr : option string;
  value : option string
}.

(** [SameValueZero] of an element of [foundMatches], which is an object, and a
    found token, which is a string or [undefined]: never the same value. *)
Definition SameValueZero_record_token (x : MatchRecord) (y : option string) : bool :=
  false.

(** [foundMatches.includes(matchStr)]. *)
Definition Array_includes (a : list MatchRecord) (y : option string) : bool :=
  existsb (fun x => SameValueZero_record_token x y) a.

Definition nl : string := String 10%N EmptyString.

(** The message of the error [flush] throws for the tokens left in [match]. *)
Definition unresolved_message (match_ : list (option string)) : string :=
  append nl (append nl
    (append "  Error: Unable to find matching var for pattern(s): "
      (append nl (append "    " (append (Array_toString match_)
        (append nl (append "    Aborting process" nl))))))).

Definition DEFAULT_SOURCE : string := "{{[A-Z0-9]+}}".

Section RegexMatch.
Context `{E : RegExpEngine}.

(** The module-level [DEFAULT_REGEX = /{{[A-Z0-9]+}}/g], one object shared by
    every instance. *)
Definition DEFAULT_REGEX : option RegExp := RegExp_new (Some DEFAULT_SOURCE) true.

Record RegexMatch : Type := mkRegexMatch {
  pattern : RegExp;
  vars : Vars;
  chunks : option (list Buffer)
}.

(** [constructor(args)], given the shared [DEFAULT_REGEX] object. *)
Definition RegexMatch_new (default_regex : RegExp) (args : Args)
  : completion RegexMatch :=
  match opts_pattern args with
  | None | Some EmptyString =>
      Normal (mkRegexMatch default_regex (args_vars args) None)
  | Some src =>
      match RegExp_new (Some src) false with
      | Some rx => Normal (mkRegexMatch rx (args_vars args) None)
      | None => Throw (SyntaxError src)
      end
  end.

(** [transform(chunk, encoding, callback)]. *)
Definition transform (this : RegexMatch) (chunk : Buffer) : RegexMatch :=
  let chunks0 := match chunks this with None => [] | Some cs => cs end in
  mkRegexMatch (pattern this) (vars this) (Some (chunks0 ++ [chunk])).

(** [varKeys.map((key) => new RegExp(key))]. *)
Fixpoint compile_keys (varKeys : list string) : completion (list Pattern) :=
  match varKeys with
  | [] => Normal []
  | key :: keys =>
      match compile key with
      | None => Throw (SyntaxError key)
      | Some p =>
          match compile_keys keys with
          | Normal ps => Normal (p :: ps)
          | Throw e => Throw e
          end
      end
  end.

(** An array with the index of each element, as [forEach] passes them. *)
Definition indexed {A : Type} (l : list A) : list (A * nat) :=
  combine l (seq 0 (List.length l)).

Section Resolve.
Variable this_vars : Vars.
Variable varKeys : list string.
Variable varRegex : list Pattern.

(** The body of [varRegex.forEach] for one found token: the state is
    [foundMatches] and the local [notFound]. *)
Definition check_var (matchStr : option string)
  (st : list MatchRecord * bool) (v : Pattern * nat) : list MatchRecord * bool :=
  let '(foundMatches, notFound) := st in
  let '(varReg, varIndex) := v in
  if RegExp_test varReg (ToString matchStr) then
    ((if negb (Array_includes foundMatches matchStr)
      then foundMatches ++
           [mkMatchRecord matchStr
              (Object_get this_vars (nth varIndex varKeys "undefined"))]
      else foundMatches),
     false)
  else st.

(** [match.filter(...)]: the records pushed to [foundMatches] and the tokens
    the filter keeps, those no variable was found for. *)
Fixpoint filter_matches (match_ : list (option string))
  (foundMatches : list MatchRecord)
  : list MatchRecord * list (option string) :=
  match match_ with
  | [] => (foundMatches, [])
  | matchStr :: rest =>
      let '(foundMatches', notFound) :=
        fold_left (check_var matchStr) (indexed varRegex) (foundMatches, true) in
      let '(foundMatches'', kept) := filter_matches rest foundMatches' in
      (foundMatches'', if notFound then matchStr :: kept else kept)
  end.

End Resolve.

(** [foundMatches.forEach(...)]: one global replacement per record, each on
    the result of the one before. *)
Fixpoint apply_found (foundMatches : list MatchRecord) (fileString : string)
  : completion string :=
  match foundMatches with
  | [] => Normal fileString
  | foundMatch :: rest =>
      match RegExp_new (matchStr foundMatch) true with
      | None => Throw (SyntaxError (join_element (matchStr foundMatch)))
      | Some matchRegex =>
          apply_found rest (String_replace fileString matchRegex (value foundMatch))
      end
  end.

(** What a call of [flush] does: it calls back with the data to emit, or it
    throws. *)
Inductive FlushResult : Type :=
| Callback (data : Buffer)
| Thrown (e : JsError).

(** [flush(callback)]: the result and the instance afterwards (the pattern
    object is mutated by [String.prototype.match]). *)
Definition flush (this : RegexMatch) : FlushResult * RegexMatch :=
  match chunks this with
  | None => (Callback Buffer_alloc0, this)
  | Some chunks0 =>
      let fileString := Buffer_toString (Buffer_concat chunks0) in
      let '(m, pattern') := String_match fileString (pattern this) in
      let this' := mkRegexMatch pattern' (vars this) (chunks this) in
      match m with
      | None => (Callback (Buffer_from fileString), this')
      | Some match_ =>
          let varKeys := Object_keys (vars this) in
          match compile_keys varKeys with
          | Throw e => (Thrown e, this')
          | Normal varRegex =>
              let '(foundMatches, match') :=
                filter_matches (vars this) varKeys varRegex match_ [] in
              if 0 <? List.length match' then
                (Thrown (Error (unresolved_message match')), this')
              else
                match apply_found foundMatches fileString with
                | Throw e => (Thrown e, this')
                | Normal fileString' => (Callback (Buffer_from fileString'), this')
                end
          end
      end
  end.

(** One file through the stream: a fresh instance receives the chunks in
    order, then [flush]. *)
Definition run_stream (this : RegexMatch) (chunks0 : list Buffer)
  : FlushResult * RegexMatch :=
  flush (fold_left transform chunks0 this).

End RegexMatch.

(** ** Pattern syntax shared by the examples and the literal-token condition *)

(** Decimal digits at the head of [s]: their value, their number, the rest. *)
Fixpoint read_digits (s : string) (acc n : nat) : nat * nat * string :=
  match s with
  | String c s' =>
      if is_digit c then read_digits s' (10 * acc + digit_value c) (S n)
      else (acc, n, s)
  | EmptyString => (acc, n, s)
  end.

(** The text after an opening brace read as a quantifier ([{n}], [{n,}] or
    [{n,m}]): its bounds and the number of characters it takes, the closing
    brace included.  [None]: the brace does not start a quantifier and, as
    ECMA-262 Annex B has it, stands for itself. *)
Definition braced_quantifier (s : string) : option (nat * option nat * nat) :=
  let '(lo, n1, r1) := read_digits s 0 0 in
  if n1 =? 0 then None
  else
    match r1 with
    | String "}"%unit _ => Some (lo, Some lo, n1 + 1)
    | String ","%unit r2 =>
        match r2 with
        | String "}"%unit _ => Some (lo, None, n1 + 2)
        | _ =>
            let '(hi, n2, r3) := read_digits r2 0 0 in
            if n2 =? 0 then None
            else
              match r3 with
              | String "}"%unit _ => Some (lo, Some hi, n1 + n2 + 2)
              | _ => None
              end
        end
    | _ => None
    end.

(** The characters with a meaning of their own in a pattern. *)
Definition is_syntax_char (c : code_unit) : bool :=
  string_mem c "^$\.*+?()[|".

(** [literal_source t]: the text [t], read as a pattern, is a sequence of
    characters that stand for themselves. *)
Fixpoint literal_source (t : string) : bool :=
  match t with
  | EmptyString => true
  | String c rest =>
      negb (is_syntax_char c)
      && (if CodeUnit.eqb c "{"
          then match braced_quantifier rest with None => true | Some _ => false end
          else true)
      && literal_source rest
  end.

(** [prefix t s]: [s] starts with [t]. *)
Fixpoint is_prefix (t s : string) : bool :=
  match t, s with
  | EmptyString, _ => true
  | String c t', String d s' => CodeUnit.eqb c d && is_prefix t' s'
  | String _ _, EmptyString => false
  end.

(** ** An executable engine for flat patterns

    The fragment of the pattern language without groups, alternation,
    assertions and escapes: a sequence of atoms (a character, [.], a bracket
    class), each with an optional greedy quantifier.  [Flat.parse] rejects
    every other pattern. *)
Module Flat.

Inductive atom : Type :=
| ALit (c : code_unit)
| AAny
| AClass (negated : bool) (ranges : list (code_unit * code_unit)).

Record item : Type := mkItem {
  it_atom : atom;
  it_min : nat;
  it_max : option nat
}.

Definition once (a : atom) : item := mkItem a 1 (Some 1).

(** LF, CR, LS (U+2028) and PS (U+2029). *)
Definition is_line_terminator (c : code_unit) : bool :=
  CodeUnit.eqb c 10%N || CodeUnit.eqb c 13%N
  || CodeUnit.eqb c 8232%N || CodeUnit.eqb c 8233%N.

Definition in_range (c : code_unit) (r : code_unit * code_unit) : bool :=
  (N.to_nat (fst r) <=? N.to_nat c) && (N.to_nat c <=? N.to_nat (snd r)).

Definition accepts (a : atom) (c : code_unit) : bool :=
  match a with
  | ALit d => CodeUnit.eqb c d
  | AAny => negb (is_line_terminator c)
  | AClass negated ranges => xorb negated (existsb (in_range c) ranges)
  end.

(** The number of leading characters of [s] the atom accepts, at most
    [limit]. *)
Fixpoint count_prefix (a : atom) (limit : option nat) (s : string) : nat :=
  match s with
  | EmptyString => 0
  | String c s' =>
      match limit with
      | Some 0 => 0
      | _ =>
          if accepts a c
          then S (count_prefix a (option_map Nat.pred limit) s')
          else 0
      end
  end.

(** The backtracking matcher at the head of [s]: a quantified atom first takes
    as many characters as it can and gives them back one at a time.  The
    result is the length of the match. *)
Fixpoint match_items (items : list item) (s : string) : option nat :=
  match items with
  | [] => Some 0
  | it :: rest =>
      (fix back (k : nat) : option nat :=
         if k <? it_min it then None
         else
           match match_items rest (string_from k s) with
           | Some n => Some (k + n)
           | None =>
               match k with
               | 0 => None
               | S k' => back k'
               end
           end) (count_prefix (it_atom it) (it_max it) s)
  end.

(** The elements of a bracket class up to the closing bracket, with the
    number of characters read. *)
Fixpoint class_items (s : string) (acc : list (code_unit * code_unit)) (n : nat)
  : option (list (code_unit * code_unit) * nat) :=
  match s with
  | EmptyString => None
  | String c1 t1 =>
      if CodeUnit.eqb c1 "]" then Some (rev acc, S n)
      else if CodeUnit.eqb c1 "\" then None
      else
        match t1 with
        | String c2 (String c3 t3) =>
            if CodeUnit.eqb c2 "-" && negb (CodeUnit.eqb c3 "]") then
              if CodeUnit.eqb c3 "\" then None
              else if N.to_nat c1 <=? N.to_nat c3
                   then class_items t3 ((c1, c3) :: acc) (n + 3)
                   else None
            else class_items t1 ((c1, c1) :: acc) (S n)
        | _ => class_items t1 ((c1, c1) :: acc) (S n)
        end
  end.

Definition parse_class (s : string) : option (atom * nat) :=
  match s with
  | String "^"%unit s' =>
      match class_items s' [] 1 with
      | Some (ranges, n) => Some (AClass true ranges, n)
      | None => None
      end
  | _ =>
      match class_items s [] 0 with
      | Some (ranges, n) => Some (AClass false ranges, n)
      | None => None
      end
  end.

(** A quantifier applied to the last atom read, when there is one without a
    quantifier yet. *)
Definition quantify (acc : list item) (q : bool) (lo : nat) (hi : option nat)
  : option (list item) :=
  match acc with
  | it :: acc' =>
      if q && (match hi with Some h => lo <=? h | None => true end)
      then Some (mkItem (it_atom it) lo hi :: acc')
      else None
  | [] => None
  end.

(** The parser.  [acc] holds the items read so far, last first; [q] tells
    whether a quantifier may follow; [skip] characters belong to a construct
    already read. *)
Fixpoint parse_from (skip : nat) (acc : list item) (q : bool) (s : string)
  : option (list item) :=
  match s with
  | EmptyString => Some (rev acc)
  | String c rest =>
      match skip with
      | S k => parse_from k acc q rest
      | 0 =>
          if CodeUnit.eqb c "*" then
            match quantify acc q 0 None with
            | Some acc' => parse_from 0 acc' false rest
            | None => None
            end
          else if CodeUnit.eqb c "+" then
            match quantify acc q 1 None with
            | Some acc' => parse_from 0 acc' false rest
            | None => None
            end
          else if CodeUnit.eqb c "?" then
            match quantify acc q 0 (Some 1) with
            | Some acc' => parse_from 0 acc' false rest
            | None => None
            end
          else if CodeUnit.eqb c "{" then
            match braced_quantifier rest with
            | Some (lo, hi, n) =>
                match quantify acc q lo hi with
                | Some acc' => parse_from n acc' false rest
                | None => None
                end
            | None => parse_from 0 (once (ALit c) :: acc) true rest
            end
          else if CodeUnit.eqb c "[" then
            match parse_class rest with
            | Some (a, n) => parse_from n (once a :: acc) true rest
            | None => None
            end
          else if CodeUnit.eqb c "." then parse_from 0 (once AAny :: acc) true rest
          else if is_syntax_char c then None
          else parse_from 0 (once (ALit c) :: acc) true rest
      end
  end.

Definition parse (src : string) : option (list item) := parse_from 0 [] false src.

Definition run (p : list item) (s : string) (i : nat) : option MatchState :=
  if i <=? String.length s then
    match match_items p (string_from i s) with
    | Some n => Some (mkMatchState n [] None)
    | None => None
    end
  else None.

(** The items of a text read character by character. *)
Definition literal_items (t : string) : list item :=
  map (fun c => once (ALit c)) (list_units_of_string t).

Definition engine : RegExpEngine := {|
  Pattern := list item;
  compile := parse;
  pattern_match := run
|}.

End Flat.

(** ** Paths ([path.basename], [path.extname]) and the extension classifier *)

Definition is_slash (c : code_unit) : bool := CodeUnit.eqb c "/".
Definition is_dot (c : code_unit) : bool := CodeUnit.eqb c ".".

(** The scan of [path.basename]: [cur] is the component being read, [last]
    the last non-empty component completed. *)
Fixpoint basename_scan (s cur last : string) : string :=
  match s with
  | EmptyString => match cur with EmptyString => last | _ => cur end
  | String c s' =>
      if is_slash c
      then basename_scan s' EmptyString (match cur with EmptyString => last | _ => cur end)
      else basename_scan s' (append cur (String c EmptyString)) last
  end.

(** [path.basename(p)] (POSIX): the last non-empty component, trailing
    slashes ignored. *)
Definition path_basename (p : string) : string :=
  basename_scan p EmptyString EmptyString.

(** The text after the last [.] of [b]; [None] when [b] has no [.]. *)
Fixpoint after_last_dot (b : string) : option string :=
  match b with
  | EmptyString => None
  | String c b' =>
      match after_last_dot b' with
      | Some r => Some r
      | None => if is_dot c then Some b' else None
      end
  end.

(** [path.extname] on the last component: from its last [.] to its end, and
    empty when it has no [.], when its only [.] is its first character, and
    for [..]. *)
Definition extname_of_base (b : string) : string :=
  match b with
  | EmptyString => EmptyString
  | String _ b' =>
      match after_last_dot b' with
      | Some r => if String.eqb b ".." then EmptyString else String "." r
      | None => EmptyString
      end
  end.

Definition path_extname (p : string) : string :=
  extname_of_base (path_basename p).

(** The longest run, at the head of [s], of characters [.] of a pattern
    matches: any but a line terminator. *)
Fixpoint dot_run (s : string) : string :=
  match s with
  | EmptyString => EmptyString
  | String c s' =>
      if Flat.is_line_terminator c then EmptyString else String c (dot_run s')
  end.

(** The pattern [/\.?(.+)/] tried at the head of [s]: the text of its group.
    The optional dot is taken first and given back when nothing is left for
    the group. *)
Definition ext_pattern_at (s : string) : option string :=
  match s with
  | String c s' =>
      if is_dot c then
        match dot_run s' with
        | EmptyString => Some (dot_run s)
        | g => Some g
        end
      else
        match dot_run s with
        | EmptyString => None
        | g => Some g
        end
  | EmptyString => None
  end.

(** [ext.match(/\.?(.+)/)]: the group of the leftmost match, [None] for
    [null]. *)
Fixpoint ext_pattern_exec (s : string) : option string :=
  match ext_pattern_at s with
  | Some g => Some g
  | None =>
      match s with
      | EmptyString => None
      | String _ s' => ext_pattern_exec s'
      end
  end.

(** [FileUtil.getExtname(filePath)].  Indexing the [null] of a failed match
    throws. *)
Definition getExtname (filePath : string) : completion string :=
  let ext := path_extname filePath in
  let ext := match ext with
             | EmptyString => path_basename filePath
             | _ => ext
             end in
  match ext_pattern_exec ext with
  | Some g => Normal g
  | None => Throw (TypeError "Cannot read properties of null (reading '1')")
  end.

(** ** The copy pipeline ([FileUtil.transformCopy], lib/utils/file-util.js) *)

Definition TRANSFORM_BLACKLIST : list string := ["git"].

(** [array.includes(s)] for an array of strings. *)
Definition includes (a : list string) (s : string) : bool :=
  existsb (String.eqb s) a.

(** What a call does to the outside world, in order. *)
Inductive effect : Type :=
| MakeDir (dir : string)
| ConsoleGroup
| ConsoleGroupEnd
| ConsoleLog (line : string)
| CopyFile (source dest : string)
| PipeThrough (source dest : string).

(** The state of the promise a call returns. *)
Inductive promise_state : Type :=
| Resolved
| Rejected (e : JsError)
| Pending.

(** How the two streams of the text branch end: the read stream emits
    ['error'] before anything settles the promise; the write stream emits
    ['error']; or the source is read to its end, in these chunks, and the
    write stream takes all it is given. *)
Inductive stream_outcome : Type :=
| ReadFails (e : JsError)
| WriteFails (e : JsError)
| Reads (chunks : list Buffer).

(** What the file system answers to the calls of one [transformCopy]:
    whether [makeDir] succeeds, the error of [fs.copyFile] if any, and how
    the streams end. *)
Record io : Type := mkIo {
  makeDir_ok : bool;
  copyFile_error : option JsError;
  streams : stream_outcome
}.

(** [effect] writes a file at [dest]: [fs.copyFile] does, and so does
    [fs.createWriteStream], which opens the destination for writing. *)
Definition writes_file (dest : string) (e : effect) : bool :=
  match e with
  | CopyFile _ d => String.eqb d dest
  | PipeThrough _ d => String.eqb d dest
  | _ => false
  end.

Section CopyPipeline.
(** The table [text-extensions.json] and [path.dirname]. *)
Variable TEXT_EXTENSIONS : list string.
Variable path_dirname : string -> string.

(** The stream [new Transform({transform, flush})] of the two callbacks
    given to [transformCopy]: what it hands on for the chunks of a file, or
    the exception it ends with. *)
Variable through : list Buffer -> FlushResult.

(** [transformCopy(source, dest, transform, flush)]: the state of the returned
    promise and the effects.  An exception inside the executor (a failed
    [await], a throwing [getExtname]) leaves the promise unsettled.  In the
    text branch only the write stream has listeners: its ['error'] rejects
    and its ['close'] resolves; an error of the read stream or an exception
    of [flush] is handled by nobody, the write stream is never ended and the
    promise stays unsettled. *)
Definition transformCopy (env : io) (source dest : string)
  : promise_state * list effect :=
  let made := [MakeDir (path_dirname dest)] in
  if negb (makeDir_ok env) then (Pending, made)
  else
    match getExtname source with
    | Throw _ => (Pending, made)
    | Normal ext =>
        if includes TRANSFORM_BLACKLIST ext then
          (Resolved,
           made ++ [ConsoleGroup; ConsoleLog (append source " [Skipped Copy]");
                    ConsoleGroupEnd])
        else if negb (includes TEXT_EXTENSIONS ext) then
          (match copyFile_error env with
           | Some e => Rejected e
           | None => Resolved
           end,
           made ++ [ConsoleGroup; ConsoleLog (append source " [Skipped Transform]");
                    ConsoleGroupEnd; CopyFile source dest])
        else
          (match streams env with
           | ReadFails _ => Pending
           | WriteFails e => Rejected e
           | Reads chunks0 =>
               match through chunks0 with
               | Thrown _ => Pending
               | Callback _ => Resolved
               end
           end,
           made ++ [ConsoleLog dest; PipeThrough source dest])
    end.

End CopyPipeline.

(** ** Directory trees and the walkers *)

(** A directory tree: an entry is a directory with named entries or anything
    else (a regular file, a link, ...). *)
Inductive node : Type :=
| File
| Dir (entries : list (string * node)).

(** A normalized path is the list of its components; [path.join] of two such
    paths is their concatenation. *)
Definition path : Type := list string.

Definition path_join (a b : path) : path := a ++ b.

(** An [fs.Dirent] (or the [fs.Stats] standing in for it): the [name]
    property, which the walkers overwrite with a relative path, and what
    [isDirectory()] answers. *)
Record Dirent : Type := mkDirent {
  name : path;
  isDirectory : bool
}.

Definition is_dir (x : node) : bool :=
  match x with
  | Dir _ => true
  | File => false
  end.

Fixpoint find_entry (n : string) (entries : list (string * node)) : option node :=
  match entries with
  | [] => None
  | (m, x) :: entries' => if String.eqb m n then Some x else find_entry n entries'
  end.

(** The entry a path leads to. *)
Fixpoint lookup (fs : node) (p : path) : option node :=
  match p with
  | [] => Some fs
  | n :: p' =>
      match fs with
      | Dir entries =>
          match find_entry n entries with
          | Some x => lookup x p'
          | None => None
          end
      | File => None
      end
  end.

(** The paths, relative to [t], of the entries under [t] that are not
    directories. *)
Fixpoint leaves (t : node) : list path :=
  match t with
  | File => [[]]
  | Dir entries =>
      (fix go (es : list (string * node)) : list path :=
         match es with
         | [] => []
         | e :: es' => map (cons (fst e)) (leaves (snd e)) ++ go es'
         end) entries
  end.

(** The number of entries of a tree, itself included. *)
Fixpoint size (t : node) : nat :=
  match t with
  | File => 1
  | Dir entries =>
      S ((fix go (es : list (string * node)) : nat :=
            match es with
            | [] => 0
            | e :: es' => size (snd e) + go es'
            end) entries)
  end.

(** No directory of the tree lists a name twice. *)
Fixpoint well_formed (t : node) : Prop :=
  match t with
  | File => True
  | Dir entries =>
      NoDup (map fst entries) /\
      (fix go (es : list (string * node)) : Prop :=
         match es with
         | [] => True
         | e :: es' => well_formed (snd e) /\ go es'
         end) entries
  end.

(** A promise: fulfilled, rejected, or never settled. *)
Inductive promise (A : Type) : Type :=
| Fulfilled (a : A)
| RejectedWith (e : JsError)
| Unsettled.

Arguments Fulfilled {A} a.
Arguments RejectedWith {A} e.
Arguments Unsettled {A}.

(** An asynchronous function settles its promise with the completion of its
    body. *)
Definition settle {A : Type} (c : completion A) : promise A :=
  match c with
  | Normal a => Fulfilled a
  | Throw e => RejectedWith e
  end.

(** What [fs.readdir(dir, {withFileTypes: true})] lists: [fs.Dirent] objects
    on a runtime that has them, plain names on an older one, which ignores
    the option. *)
Inductive js_entry : Type :=
| JDirent (d : Dirent)
| JString (s : string).

Definition dirent_of (e : string * node) : Dirent :=
  mkDirent [fst e] (is_dir (snd e)).

(** [files.splice(i, 1)]. *)
Definition splice1 {A : Type} (i : nat) (files : list A) : list A :=
  firstn i files ++ skipn (S i) files.

(** Symbolic links.  In the tree a link is a [File], which is what its
    [fs.Dirent] says.  For the path [p] of an entry, links followed on the
    way, [links p] is [None] when the entry is no link, [Some None] when it
    is a link that leads nowhere, and [Some (Some t)] when it is a link that
    leads to [t]. *)
Definition Links : Type := path -> option (option node).

Definition no_links : Links := fun _ => None.

(** The entry the path [p] leads to from the entry [x] at [here], every link
    followed, the last one included: what [fs.stat] looks at and what
    [fs.readdir] lists. *)
Fixpoint resolve (links : Links) (here : path) (x : node) (p : path)
  : option node :=
  match (match x with
         | File => match links here with
                   | Some target => target
                   | None => Some File
                   end
         | Dir _ => Some x
         end) with
  | None => None
  | Some y =>
      match p with
      | [] => Some y
      | n :: p' =>
          match y with
          | Dir entries =>
              match find_entry n entries with
              | Some z => resolve links (here ++ [n]) z p'
              | None => None
              end
          | File => None
          end
      end
  end.

Section FileSystem.
Variable fs : node.
Variable links : Links.

(** [fs.readdir] / [fs.readdirSync] with [withFileTypes] on a runtime that has
    [fs.Dirent].  The directory is found with the links followed; of an
    entry that is a link the [fs.Dirent] says that it is no directory. *)
Definition fs_readdir_dirents (dir : path) : completion (list Dirent) :=
  match resolve links [] fs dir with
  | Some (Dir entries) => Normal (map dirent_of entries)
  | Some File => Throw (SystemError "ENOTDIR")
  | None => Throw (SystemError "ENOENT")
  end.

(** The same call, in the later revision, on any runtime; [fs_Dirent] tells
    whether [fs.Dirent] exists. *)
Definition fs_readdir (fs_Dirent : bool) (dir : path) : completion (list js_entry) :=
  match resolve links [] fs dir with
  | Some (Dir entries) =>
      Normal (map (fun e => if fs_Dirent then JDirent (dirent_of e) else JString (fst e))
                  entries)
  | Some File => Throw (SystemError "ENOTDIR")
  | None => Throw (SystemError "ENOENT")
  end.

(** [fs.stat(fullFile)] with [stat.name = file] set on the result.
    [fs.stat] follows links: for a link it answers for what the link leads
    to, and fails when that is nothing. *)
Definition fs_stat_named (dir : path) (file : string) : completion Dirent :=
  match resolve links [] fs (path_join dir [file]) with
  | Some x => Normal (mkDirent [file] (is_dir x))
  | None => Throw (SystemError "ENOENT")
  end.

End FileSystem.

(** *** The asynchronous walk

    The loop of [getTemplateFilePaths] (lib/utils/file-util.js) and of
    [getDirRecursive], which differ in the [readdir] they await. *)
Section AsyncWalk.
Variable readdir : path -> promise (list Dirent).
Variable basePath : path.

Definition containsDir (dirents : list Dirent) : bool :=
  existsb isDirectory dirents.

(** The [for] loop from index [i] on.  [None]: the loop does not come to its
    end, because [fuel] rounds are not enough or because it awaits a promise
    that is never settled. *)
Fixpoint for_loop (fuel : nat) (i : Z) (files : list Dirent)
  : option (completion (list Dirent)) :=
  match fuel with
  | 0 => None
  | S fuel' =>
      if (i <? Z.of_nat (List.length files))%Z then
        match nth_error files (Z.to_nat i) with
        | None => Some (Throw (TypeError "Cannot read properties of undefined"))
        | Some file =>
            if isDirectory file then
              match readdir (path_join basePath (name file)) with
              | Unsettled => None
              | RejectedWith e => Some (Throw e)
              | Fulfilled subFiles =>
                  let subFiles :=
                    map (fun subFile =>
                           mkDirent (path_join (name file) (name subFile))
                                    (isDirectory subFile))
                        subFiles in
                  let files := splice1 (Z.to_nat i) files in
                  let i := (i - 1)%Z in
                  let files := files ++ subFiles in
                  for_loop fuel' (i + 1)%Z files
              end
            else for_loop fuel' (i + 1)%Z files
        end
      else Some (Normal files)
  end.

(** The [while (containsDir(files))] loop; each round runs the [for] loop
    with [fuel] rounds of its own. *)
Fixpoint while_loop (rounds fuel : nat) (files : list Dirent)
  : option (completion (list Dirent)) :=
  match rounds with
  | 0 => None
  | S rounds' =>
      if containsDir files then
        match for_loop fuel 0%Z files with
        | Some (Normal files') => while_loop rounds' fuel files'
        | other => other
        end
      else Some (Normal files)
  end.

(** The body shared by the two asynchronous walkers.  [None]: the promise of
    the walk is not settled. *)
Definition walk (fuel : nat) : option (promise (list path)) :=
  match readdir basePath with
  | Unsettled => None
  | RejectedWith e => Some (RejectedWith e)
  | Fulfilled files =>
      match while_loop fuel fuel files with
      | None => None
      | Some (Throw e) => Some (RejectedWith e)
      | Some (Normal files') =>
          Some (Fulfilled (map (fun fileData => path_join basePath (name fileData)) files'))
      end
  end.

End AsyncWalk.

(** [FileUtil.readdir(dir, true)] of lib/utils/file-util.js, which resolves
    with what [fs.readdir] lists: [fs.Dirent] objects. *)
Definition readdir (links : Links) (fs : node) (dir : path)
  : promise (list Dirent) :=
  settle (fs_readdir_dirents fs links dir).

(** [FileUtil.getTemplateFilePaths(templateName)]. *)
Definition getTemplateFilePaths (links : Links) (fs : node) (TEMPLATE_DIR : path)
  (fuel : nat) (templateName : string) : option (promise (list path)) :=
  let basePath := path_join TEMPLATE_DIR [templateName] in
  walk (readdir links fs) basePath fuel.

(** *** The later revision of [FileUtil], with its synchronous walker *)
Module Recursive.

(** [Promise.all] over the [fs.stat] calls. *)
Fixpoint stat_all (links : Links) (fs : node) (dir : path) (files : list js_entry)
  : completion (list Dirent) :=
  match files with
  | [] => Normal []
  | f :: files' =>
      match f with
      | JDirent _ => Throw (TypeError "The path argument must be of type string")
      | JString file =>
          match fs_stat_named fs links dir file with
          | Throw e => Throw e
          | Normal st =>
              match stat_all links fs dir files' with
              | Throw e => Throw e
              | Normal sts => Normal (st :: sts)
              end
          end
      end
  end.

(** The objects of a listing taken as [fs.Dirent]s. *)
Fixpoint as_dirents (files : list js_entry) : list Dirent :=
  match files with
  | [] => []
  | JDirent d :: files' => d :: as_dirents files'
  | JString _ :: files' => as_dirents files'
  end.

(** [FileUtil.readdir(dir, true)]: the listing itself when [fs.Dirent]
    exists, the [fs.Stats] of every name otherwise.  When an [fs.stat]
    fails, the [await] of [Promise.all] throws inside the callback of
    [fs.readdir], where nothing catches it: the promise is then never
    settled. *)
Definition readdir (fs_Dirent : bool) (links : Links) (fs : node) (dir : path)
  : promise (list Dirent) :=
  match fs_readdir fs links fs_Dirent dir with
  | Throw e => RejectedWith e
  | Normal files =>
      if fs_Dirent then Fulfilled (as_dirents files)
      else
        match stat_all links fs dir files with
        | Normal stats => Fulfilled stats
        | Throw _ => Unsettled
        end
  end.

(** [FileUtil.getDirRecursive(basePath)]. *)
Definition getDirRecursive (fs_Dirent : bool) (links : Links) (fs : node)
  (fuel : nat) (basePath : path) : option (promise (list path)) :=
  walk (readdir fs_Dirent links fs) basePath fuel.

(** [dirent.isDirectory()] and [dirent.name] on what [fs.readdirSync]
    listed. *)
Definition entry_isDirectory (e : js_entry) : completion bool :=
  match e with
  | JDirent d => Normal (isDirectory d)
  | JString _ => Throw (TypeError "dirent.isDirectory is not a function")
  end.

Definition entry_name (e : js_entry) : completion path :=
  match e with
  | JDirent d => Normal (name d)
  | JString _ => Throw (TypeError "The path argument must be of type string")
  end.

(** [dirents.some((dirent) => dirent.isDirectory())]. *)
Fixpoint containsDirSync (dirents : list js_entry) : completion bool :=
  match dirents with
  | [] => Normal false
  | e :: es =>
      match entry_isDirectory e with
      | Throw x => Throw x
      | Normal true => Normal true
      | Normal false => containsDirSync es
      end
  end.

(** [subFiles.map(...)] of the synchronous walker. *)
Fixpoint rename_all (dir : path) (subFiles : list js_entry)
  : completion (list js_entry) :=
  match subFiles with
  | [] => Normal []
  | e :: es =>
      match e with
      | JString _ => Throw (TypeError "The path argument must be of type string")
      | JDirent d =>
          match rename_all dir es with
          | Throw x => Throw x
          | Normal es' =>
              Normal (JDirent (mkDirent (path_join dir (name d)) (isDirectory d)) :: es')
          end
      end
  end.

(** [files.map((fileData) => path.join(basePath, fileData.name))]. *)
Fixpoint full_paths (basePath : path) (files : list js_entry)
  : completion (list path) :=
  match files with
  | [] => Normal []
  | e :: es =>
      match entry_name e with
      | Throw x => Throw x
      | Normal n =>
          match full_paths basePath es with
          | Throw x => Throw x
          | Normal ps => Normal (path_join basePath n :: ps)
          end
      end
  end.

Section SyncWalk.
Variable fs_Dirent : bool.
Variable links : Links.
Variable fs : node.
Variable basePath : path.

Fixpoint for_loop_sync (fuel : nat) (i : Z) (files : list js_entry)
  : option (completion (list js_entry)) :=
  match fuel with
  | 0 => None
  | S fuel' =>
      if (i <? Z.of_nat (List.length files))%Z then
        match nth_error files (Z.to_nat i) with
        | None => Some (Throw (TypeError "Cannot read properties of undefined"))
        | Some file =>
            match entry_isDirectory file with
            | Throw e => Some (Throw e)
            | Normal false => for_loop_sync fuel' (i + 1)%Z files
            | Normal true =>
                match entry_name file with
                | Throw e => Some (Throw e)
                | Normal file_name =>
                    match fs_readdir fs links fs_Dirent
                            (path_join basePath file_name) with
                    | Throw e => Some (Throw e)
                    | Normal subFiles =>
                        match rename_all file_name subFiles with
                        | Throw e => Some (Throw e)
                        | Normal subFiles =>
                            let files := splice1 (Z.to_nat i) files in
                            let i := (i - 1)%Z in
                            let files := files ++ subFiles in
                            for_loop_sync fuel' (i + 1)%Z files
                        end
                    end
                end
            end
        end
      else Some (Normal files)
  end.

Fixpoint while_loop_sync (rounds fuel : nat) (files : list js_entry)
  : option (completion (list js_entry)) :=
  match rounds with
  | 0 => None
  | S rounds' =>
      match containsDirSync files with
      | Throw e => Some (Throw e)
      | Normal false => Some (Normal files)
      | Normal true =>
          match for_loop_sync fuel 0%Z files with
          | Some (Normal files') => while_loop_sync rounds' fuel files'
          | other => other
          end
      end
  end.

(** [FileUtil.getDirRecursiveSync(basePath)]. *)
Definition getDirRecursiveSync (fuel : nat) : option (completion (list path)) :=
  match fs_readdir fs links fs_Dirent basePath with
  | Throw e => Some (Throw e)
  | Normal files =>
      match while_loop_sync fuel fuel files with
      | None => None
      | Some (Throw e) => Some (Throw e)
      | Some (Normal files') => Some (full_paths basePath files')
      end
  end.

End SyncWalk.

End Recursive.

(** ** Notions the properties are stated with *)

Section Notions.
Context `{E : RegExpEngine}.

(** The tokens of a content: the texts of all non-overlapping matches of the
    pattern, in the order a global scan finds them. *)
Definition found_tokens (p : Pattern) (content : string) : list string :=
  map er_matched (exec_global p content).

(** The variable name [key], as a pattern, matches inside [token]. *)
Definition name_matches (key token : string) : bool :=
  match compile key with
  | Some p => RegExp_test p token
  | None => false
  end.

(** No variable name matches inside [token]. *)
Definition unresolved (vs : Vars) (token : string) : bool :=
  negb (existsb (fun key => name_matches key token) (Object_keys vs)).

(** The records [flush] has pushed to [foundMatches] when the filter is done,
    for the buffered text [fileString]. *)
Definition recorded (this : RegexMatch) (fileString : string) : list MatchRecord :=
  match fst (String_match fileString (pattern this)) with
  | Some match_ =>
      match compile_keys (Object_keys (vars this)) with
      | Normal varRegex =>
          fst (filter_matches (vars this) (Object_keys (vars this)) varRegex match_ [])
      | Throw _ => []
      end
  | None => []
  end.

(** Every variable name is a pattern the [RegExp] constructor accepts. *)
Definition valid_names (vs : Vars) : Prop :=
  Forall (fun key => compile key <> None) (Object_keys vs).

End Notions.

(** *** Literal replacement, as the specification words it *)

(** The offset of the first occurrence of [t] in [u]. *)
Fixpoint find_first (t u : string) : option nat :=
  if is_prefix t u then Some 0
  else
    match u with
    | EmptyString => None
    | String _ u' => option_map S (find_first t u')
    end.

(** [t] occurs in [u]. *)
Definition occurs (t u : string) : bool :=
  match find_first t u with
  | Some _ => true
  | None => false
  end.

(** Every occurrence of the text [t] in [u], found from left to right and
    not overlapping the one before, replaced by the text [v].  A non-empty
    [t] uses up [fuel] no larger than the length of [u]. *)
Fixpoint replace_all_fuel (fuel : nat) (t v u : string) : string :=
  match fuel with
  | 0 => u
  | S fuel' =>
      match find_first t u with
      | None => u
      | Some d =>
          append (substring 0 d u)
            (append v (replace_all_fuel fuel' t v (string_from (d + String.length t) u)))
      end
  end.

Definition replace_all_literal (t v u : string) : string :=
  replace_all_fuel (String.length u) t v u.

(** No [$$], [$&], [$`] or [$'] in [v]: the replacement patterns that stand
    for another text whatever the groups of the pattern. *)
Fixpoint plain_replacement (v : string) : bool :=
  match v with
  | EmptyString => true
  | String c v' =>
      negb (CodeUnit.eqb c "$"
            && match v' with
               | String d _ => string_mem d "$&`'"
               | EmptyString => false
               end)
      && plain_replacement v'
  end.

(** The value [v] never completes the text [w]: put between two texts that
    do not contain [w], it gives a text that does not contain [w]. *)
Definition inert (w v : string) : Prop :=
  forall g r,
    find_first w g = None -> find_first w r = None ->
    find_first w (append g (append v r)) = None.

(** The last code unit of [t], [c] when [t] is empty. *)
Fixpoint last_unit (c : code_unit) (t : string) : code_unit :=
  match t with
  | EmptyString => c
  | String d t' => last_unit d t'
  end.

(** A test that is enough for [inert w v]: [v] has neither the first nor
    the last code unit of [w] and does not occur in [w]. *)
Definition keeps_out (w v : string) : bool :=
  match w with
  | EmptyString => false
  | String c w' =>
      negb (string_mem c v) && negb (string_mem (last_unit c w') v)
      && negb (occurs v w)
  end.

(** The distinct elements of a list in the order of their first occurrence,
    those of [seen] left out. *)
Fixpoint distinct_from (seen l : list string) : list string :=
  match l with
  | [] => []
  | t :: l' =>
      if includes seen t then distinct_from seen l'
      else t :: distinct_from (t :: seen) l'
  end.

Definition distinct (l : list string) : list string := distinct_from [] l.

(** Among the distinct elements of [l], [w] is [t] or comes before [t]. *)
Definition not_after (l : list string) (w t : string) : Prop :=
  exists l1 l2, distinct l = l1 ++ t :: l2 /\ (In w l1 \/ w = t).

Section SubstitutionNotions.
Context `{E : RegExpEngine}.

(** The engine reads the text [t] as the pattern that matches [t] itself and
    nothing else, without groups. *)
Definition literal_pattern (t : string) : Prop :=
  exists p,
    compile t = Some p
    /\ forall s i, i <= String.length s ->
         pattern_match p s i
         = if is_prefix t (string_from i s)
           then Some (mkMatchState (String.length t) [] None)
           else None.

(** The engine reads every literal source literally, as ECMA-262 has it. *)
Definition reads_literal_sources : Prop :=
  forall t, literal_source t = true -> literal_pattern t.

(** The value paired with a token: that of the first variable, in the order
    of [Object.keys], whose name matches inside the token. *)
Definition paired_value (vs : Vars) (token : string) : string :=
  match find (fun key => name_matches key token) (Object_keys vs) with
  | Some key => ToString (Object_get vs key)
  | None => EmptyString
  end.

(** The substitution as the specification describes it: for each token in
    turn, every literal occurrence is replaced by the paired value. *)
Definition substitute (vs : Vars) (tokens : list string) (content : string)
  : string :=
  fold_left (fun s t => replace_all_literal t (paired_value vs t) s) tokens content.

(** The records one found token adds: one for each variable whose name
    matches inside it, in the order of the names. *)
Definition group (vs : Vars) (keys : list string) (m : option string)
  : list MatchRecord :=
  map (fun key => mkMatchRecord m (Object_get vs key))
      (filter (fun key => name_matches key (ToString m)) keys).

End SubstitutionNotions.

(** No character of [s] is a line terminator. *)
Fixpoint no_line_terminator (s : string) : bool :=
  match s with
  | EmptyString => true
  | String c s' => negb (Flat.is_line_terminator c) && no_line_terminator s'
  end.

(** The extension the classifier works with, read off the base name: the
    text after its last [.], the whole name when it has no [.], and [.]
    when nothing follows the last [.]. *)
Definition extension_of_base (b : string) : string :=
  match after_last_dot b with
  | Some EmptyString => "."
  | Some r => r
  | None => b
  end.

(** What the entries of a work list stand for in the tree [root] the walk
    started from. *)
Section WalkNotions.
Variable root : node.

(** The entry names a node of the tree and reports its kind. *)
Definition denotes (d : Dirent) : Prop :=
  exists x, lookup root (name d) = Some x /\ isDirectory d = is_dir x.

(** The number of tree entries at and under the entry. *)
Definition weight (d : Dirent) : nat :=
  match lookup root (name d) with
  | Some x => size x
  | None => 0
  end.

(** The files at and under the entry, by their paths from [root]. *)
Definition expand (d : Dirent) : list path :=
  match lookup root (name d) with
  | Some x => map (app (name d)) (leaves x)
  | None => []
  end.

Definition total_weight (l : list Dirent) : nat := list_sum (map weight l).

End WalkNotions.

(** The entries [readdir] lists for a directory of the tree, renamed by the
    walker: the children of the directory. *)
Definition children (dir : path) (es : list (string * node)) : list Dirent :=
  map (fun subFile => mkDirent (path_join dir (name subFile)) (isDirectory subFile))
      (map dirent_of es).

(** The files under the entries of a directory. *)
Definition leaves_entries (es : list (string * node)) : list path :=
  flat_map (fun e => map (cons (fst e)) (leaves (snd e))) es.

Definition size_entries (es : list (string * node)) : nat :=
  list_sum (map (fun e => size (snd e)) es).

Definition completion_map {A B : Type} (f : A -> B) (c : completion A)
  : completion B :=
  match c with
  | Normal a => Normal (f a)
  | Throw e => Throw e
  end.

(** ** Notions for the further properties *)

(** Every character of [s] is a line terminator. *)
Fixpoint only_line_terminators (s : string) : bool :=
  match s with
  | EmptyString => true
  | String c s' => Flat.is_line_terminator c && only_line_terminators s'
  end.

(** *** The order of a walk *)

(** The entries of the directory [dir], by their paths from the root. *)
Definition below (dir : path) (es : list (string * node)) : list (path * node) :=
  map (fun e => (dir ++ [fst e], snd e)) es.

(** The files at and under the entries of a queue in breadth-first order: a
    file is listed when it is taken from the queue, the entries of a
    directory go to its end. *)
Fixpoint breadth_first (fuel : nat) (queue : list (path * node)) : list path :=
  match fuel with
  | 0 => []
  | S fuel' =>
      match queue with
      | [] => []
      | (p, File) :: queue' => p :: breadth_first fuel' queue'
      | (p, Dir es) :: queue' => breadth_first fuel' (queue' ++ below p es)
      end
  end.

Definition queue_size (queue : list (path * node)) : nat :=
  list_sum (map (fun pn => size (snd pn)) queue).

(** The files under a directory with the entries [es], breadth first. *)
Definition files_breadth_first (es : list (string * node)) : list path :=
  breadth_first (S (size_entries es)) (below [] es).

(** ** Stripping a base path ([FileUtil.removeBasepath], later revision) *)

(** [path.sep] of [path.posix]. *)
Definition path_sep : string := "/".

(** [s.split(path.sep)]: the texts between the separators; the empty string
    splits into one empty text. *)
Fixpoint split_sep (s : string) : list string :=
  match s with
  | EmptyString => [EmptyString]
  | String c s' =>
      if is_slash c then EmptyString :: split_sep s'
      else match split_sep s' with
           | first :: others => String c first :: others
           | [] => [String c EmptyString]
           end
  end.

(** The loop of [removeBasepath]: [i] stays [0], each round compares the two
    heads and shifts both arrays.  [fullArr[0]] of an empty array is
    [undefined], which differs from every string.  [None] is the early
    return at a mismatch. *)
Fixpoint shift_common (baseArr fullArr : list string) : option (list string) :=
  match baseArr with
  | [] => Some fullArr
  | b :: baseArr' =>
      match fullArr with
      | f :: fullArr' =>
          if String.eqb b f then shift_common baseArr' fullArr' else None
      | [] => None
      end
  end.

Section RemoveBasepath.
(** [path.normalize]. *)
Variable path_normalize : string -> string.

Definition removeBasepath (basepath fullpath : string) : string :=
  let basepath := path_normalize basepath in
  let fullpath := path_normalize fullpath in
  let baseArr := split_sep basepath in
  let fullArr := split_sep fullpath in
  match shift_common baseArr fullArr with
  | None => fullpath
  | Some fullArr => String.concat path_sep fullArr
  end.

End RemoveBasepath.

(** ** Creating directories ([FileUtil.makeDir]) *)

(** [path.dirname] of a normalized path: the path without its last
    component; the root (or the working directory) is its own parent. *)
Definition dirname (p : path) : path := removelast p.

(** The entries with the first entry named [n] replaced by [x]. *)
Fixpoint replace_entry (n : string) (x : node) (entries : list (string * node))
  : list (string * node) :=
  match entries with
  | [] => []
  | (m, y) :: entries' =>
      if String.eqb m n then (m, x) :: entries'
      else (m, y) :: replace_entry n x entries'
  end.

(** The errors with which the system can refuse to create a directory where
    none is in the way: no permission, a read-only file system, no space,
    the quota, too many links, a name that is too long. *)
Inductive errno : Type :=
| EACCES | EPERM | EROFS | ENOSPC | EDQUOT | EMLINK | ENAMETOOLONG.

Definition errno_code (c : errno) : string :=
  match c with
  | EACCES => "EACCES"
  | EPERM => "EPERM"
  | EROFS => "EROFS"
  | ENOSPC => "ENOSPC"
  | EDQUOT => "EDQUOT"
  | EMLINK => "EMLINK"
  | ENAMETOOLONG => "ENAMETOOLONG"
  end.

(** What the system refuses: [refuses p] is the error of an attempt to
    create a directory at the path [p], [None] when the system lets it be
    created. *)
Definition Refusals : Type := path -> option errno.

Definition no_refusals : Refusals := fun _ => None.

(** [fs.mkdir(p)] on a runtime that does not know the [recursive] option
    ([mkdir(2)]), for the tree [fs] at the path [here]: the last component is
    created in an existing directory; [EEXIST] when the path exists, [ENOENT]
    when a component before the last is missing, [ENOTDIR] when one is not a
    directory, and the error of the system when it refuses. *)
Fixpoint mkdir (refuses : Refusals) (here : path) (fs : node) (p : path)
  : completion node :=
  match p with
  | [] => Throw (SystemError "EEXIST")
  | n :: p' =>
      match fs with
      | File => Throw (SystemError "ENOTDIR")
      | Dir entries =>
          match find_entry n entries with
          | Some x =>
              match mkdir refuses (here ++ [n]) x p' with
              | Normal x' => Normal (Dir (replace_entry n x' entries))
              | Throw e => Throw e
              end
          | None =>
              match p' with
              | [] =>
                  match refuses (here ++ [n]) with
                  | Some c => Throw (SystemError (errno_code c))
                  | None => Normal (Dir (entries ++ [(n, Dir [])]))
                  end
              | _ :: _ => Throw (SystemError "ENOENT")
              end
          end
      end
  end.

(** [fs.mkdir(p, {recursive: true})] on a runtime that knows the option: the
    tree afterwards and the error, if any.  The missing components are
    created from the top, an existing directory is no error; [EEXIST] when
    the path is not a directory, [ENOTDIR] when a component before the last
    is not one, and the error of the system when it refuses, the directories
    made before staying. *)
Fixpoint mkdir_p (refuses : Refusals) (here : path) (fs : node) (p : path)
  : node * option JsError :=
  match p with
  | [] =>
      match fs with
      | Dir _ => (fs, None)
      | File => (fs, Some (SystemError "EEXIST"))
      end
  | n :: p' =>
      match fs with
      | File => (fs, Some (SystemError "ENOTDIR"))
      | Dir entries =>
          match find_entry n entries with
          | Some x =>
              let '(x', err) := mkdir_p refuses (here ++ [n]) x p' in
              (Dir (replace_entry n x' entries), err)
          | None =>
              match refuses (here ++ [n]) with
              | Some c => (fs, Some (SystemError (errno_code c)))
              | None =>
                  let '(x', err) := mkdir_p refuses (here ++ [n]) (Dir []) p' in
                  (Dir (entries ++ [(n, x')]), err)
              end
          end
      end
  end.

(** [fs.mkdir(dirPath, {recursive: true}, callback)] on either runtime: the
    tree afterwards and the [err] of the callback. *)
Definition fs_mkdir (refuses : Refusals) (fs_recursive : bool) (fs : node)
  (dirPath : path) : node * option JsError :=
  if fs_recursive then mkdir_p refuses [] fs dirPath
  else
    match mkdir refuses [] fs dirPath with
    | Normal fs' => (fs', None)
    | Throw err => (fs, Some err)
    end.

(** [err.code === code]. *)
Definition has_code (code : string) (err : JsError) : bool :=
  match err with
  | SystemError c => String.eqb c code
  | _ => false
  end.

(** [makeDir(dirPath)]: the state of the returned promise and the tree
    afterwards.  An inner [makeDir] that does not resolve stops the callback
    (its [await] throws or never returns) and leaves the outer promise
    unsettled.  [fuel] bounds the depth of the recursion. *)
Fixpoint makeDir (refuses : Refusals) (fs_recursive : bool) (fuel : nat)
  (fs : node) (dirPath : path) : option (promise_state * node) :=
  match fuel with
  | 0 => None
  | S fuel' =>
      match fs_mkdir refuses fs_recursive fs dirPath with
      | (fs', Some err) =>
          if has_code "EEXIST" err then Some (Resolved, fs')
          else if has_code "ENOENT" err then
            match makeDir refuses fs_recursive fuel' fs' (dirname dirPath) with
            | None => None
            | Some (Resolved, fs1) =>
                match makeDir refuses fs_recursive fuel' fs1 dirPath with
                | None => None
                | Some (Resolved, fs2) => Some (Resolved, fs2)
                | Some (_, fs2) => Some (Pending, fs2)
                end
            | Some (_, fs1) => Some (Pending, fs1)
            end
          else Some (Rejected err, fs')
      | (fs', None) => Some (Resolved, fs')
      end
  end.

(** [q] is [p] or leads to a directory above [p]. *)
Definition on_path (q p : path) : Prop := exists r, p = q ++ r.


(** A component of [p] before the last is not a directory. *)
Definition file_above (fs : node) (p : path) : Prop :=
  exists q r, r <> [] /\ p = q ++ r /\ lookup fs q = Some File.

(** ** The command line ([Args], lib/utils/args.js) *)

(** *** The regular expression literals

    The patterns of the constructor are literals; they are given as syntax
    trees and run by the backtracking matcher of ECMA-262 (22.2.2) for this
    fragment: characters, [.], classes, sequences, greedy [+] on a character
    matcher, greedy [?], capturing groups, negative lookahead and the two
    assertions [^] and [$] (without the [m] flag). *)

Inductive char_matcher : Type :=
| MChar (c : code_unit)
| MDot
| MSet (cs : list code_unit).

Inductive regex : Type :=
| RAtom (a : char_matcher)
| RPlus (a : char_matcher)
| RSeq (r1 r2 : regex)
| ROpt (r : regex)
| RGroup (number : nat) (r : regex)
| RNotFollowedBy (r : regex)
| RStart
| REnd.

Definition char_matches (a : char_matcher) (c : code_unit) : bool :=
  match a with
  | MChar d => CodeUnit.eqb c d
  | MDot => negb (Flat.is_line_terminator c)
  | MSet cs => existsb (CodeUnit.eqb c) cs
  end.

(** The number of characters at the head of [s] that [a] matches. *)
Fixpoint run_length (a : char_matcher) (s : string) : nat :=
  match s with
  | EmptyString => 0
  | String c s' => if char_matches a c then S (run_length a s') else 0
  end.

(** A greedy repetition took [n] characters: the continuation is tried with
    [n], [n - 1], ... down to one. *)
Fixpoint backtrack {A : Type} (n : nat) (try : nat -> option A) : option A :=
  match n with
  | 0 => None
  | S n' =>
      match try n with
      | Some x => Some x
      | None => backtrack n' try
      end
  end.

(** The captures: [captures[i]] is the text of group [i + 1], [None] while
    the group has not taken part. *)
Definition Captures : Type := list (option string).

Fixpoint set_capture (i : nat) (text : string) (caps : Captures) : Captures :=
  match i, caps with
  | 0, _ :: caps' => Some text :: caps'
  | S i', c :: caps' => c :: set_capture i' text caps'
  | _, [] => []
  end.

(** [regex_match r input pos rest caps k]: the matcher of [r] at index [pos]
    of [input], of which [rest] is left, with the continuation [k]. *)
Fixpoint regex_match (r : regex) (A : Type) (input : string) (pos : nat)
  (rest : string) (caps : Captures)
  (k : nat -> string -> Captures -> option A) {struct r} : option A :=
  match r with
  | RAtom a =>
      match rest with
      | String c rest' => if char_matches a c then k (S pos) rest' caps else None
      | EmptyString => None
      end
  | RPlus a =>
      backtrack (run_length a rest)
        (fun n => k (pos + n) (string_from n rest) caps)
  | RSeq r1 r2 =>
      regex_match r1 A input pos rest caps
        (fun pos' rest' caps' => regex_match r2 A input pos' rest' caps' k)
  | ROpt r1 =>
      match regex_match r1 A input pos rest caps k with
      | Some x => Some x
      | None => k pos rest caps
      end
  | RGroup number r1 =>
      regex_match r1 A input pos rest caps
        (fun pos' rest' caps' =>
           k pos' rest'
             (set_capture (number - 1) (substring pos (pos' - pos) input) caps'))
  | RNotFollowedBy r1 =>
      match regex_match r1 unit input pos rest caps (fun _ _ _ => Some tt) with
      | Some _ => None
      | None => k pos rest caps
      end
  | RStart => if pos =? 0 then k pos rest caps else None
  | REnd =>
      match rest with
      | EmptyString => k pos rest caps
      | String _ _ => None
      end
  end.

(** The pattern tried at [pos], [pos + 1], ... up to the end of the input. *)
Fixpoint regex_scan (r : regex) (groups : nat) (input : string) (pos : nat)
  (rest : string) : option Captures :=
  match regex_match r Captures input pos rest (repeat None groups)
          (fun _ _ caps => Some caps) with
  | Some caps => Some caps
  | None =>
      match rest with
      | EmptyString => None
      | String _ rest' => regex_scan r groups input (S pos) rest'
      end
  end.

(** [input.match(r)] for a pattern without the [g] flag that has [groups]
    groups: the captures [match[1]], [match[2]], ...; [None] is [null]. *)
Definition regex_exec (r : regex) (groups : nat) (input : string)
  : option Captures :=
  regex_scan r groups input 0 input.

(** [match[i]] for [1 <= i]. *)
Definition capture (i : nat) (caps : Captures) : option string :=
  nth (i - 1) caps None.

(** [/^-(?!-)(.+)(?![:=])/] *)
Definition single_flags_pattern : regex :=
  RSeq RStart
    (RSeq (RAtom (MChar "-"))
       (RSeq (RNotFollowedBy (RAtom (MChar "-")))
          (RSeq (RGroup 1 (RPlus MDot))
             (RNotFollowedBy (RAtom (MSet [":"; "="]%unit)))))).

(** [/^--?(.+)[:=](.+)?/] *)
Definition string_option_pattern : regex :=
  RSeq RStart
    (RSeq (RAtom (MChar "-"))
       (RSeq (ROpt (RAtom (MChar "-")))
          (RSeq (RGroup 1 (RPlus MDot))
             (RSeq (RAtom (MSet [":"; "="]%unit))
                (ROpt (RGroup 2 (RPlus MDot))))))).

(** [/^--(.+)/] *)
Definition multi_flag_pattern : regex :=
  RSeq RStart
    (RSeq (RAtom (MChar "-"))
       (RSeq (RAtom (MChar "-")) (RGroup 1 (RPlus MDot)))).

(** [/^(.+)[:=](.+)$/] *)
Definition variable_pattern : regex :=
  RSeq RStart
    (RSeq (RGroup 1 (RPlus MDot))
       (RSeq (RAtom (MSet [":"; "="]%unit))
          (RSeq (RGroup 2 (RPlus MDot)) REnd))).

(** *** Plain objects

    [this.opts] and [this.vars] are plain objects.  [own] lists the own
    properties in the order of [Object.keys]: the array indices in ascending
    order, then the other names in the order of their creation.  [inherits]
    tells that the prototype is still [Object.prototype], whose [__proto__]
    setter receives an assignment to that name. *)
Record PlainObject (V : Type) : Type := mkPlainObject {
  own : list (string * V);
  inherits : bool
}.

Arguments mkPlainObject {V} _ _.
Arguments own {V} _.
Arguments inherits {V} _.

(** [{}] *)
Definition empty_object {V : Type} : PlainObject V := mkPlainObject [] true.

Fixpoint decimal_value (s : string) (acc : N) : option N :=
  match s with
  | EmptyString => Some acc
  | String c s' =>
      if is_digit c
      then decimal_value s' (10 * acc + (c - 48))%N
      else None
  end.

(** The array index a property name stands for: a canonical decimal numeral
    below [2^32 - 1]. *)
Definition array_index (key : string) : option N :=
  match key with
  | EmptyString => None
  | String c rest =>
      if CodeUnit.eqb c "0" && negb (String.eqb rest EmptyString) then None
      else
        match decimal_value key 0 with
        | Some n => if (n <=? 4294967294)%N then Some n else None
        | None => None
        end
  end.

Fixpoint has_own {V : Type} (key : string) (props : list (string * V)) : bool :=
  match props with
  | [] => false
  | (k, _) :: props' => String.eqb k key || has_own key props'
  end.

Fixpoint update_own {V : Type} (key : string) (v : V) (props : list (string * V))
  : list (string * V) :=
  match props with
  | [] => []
  | (k, w) :: props' =>
      if String.eqb k key then (k, v) :: props'
      else (k, w) :: update_own key v props'
  end.

(** A new array index goes before the first name that is no array index or
    a greater one. *)
Fixpoint insert_index {V : Type} (n : N) (key : string) (v : V)
  (props : list (string * V)) : list (string * V) :=
  match props with
  | [] => [(key, v)]
  | (k, w) :: props' =>
      match array_index k with
      | Some m =>
          if (m <? n)%N then (k, w) :: insert_index n key v props'
          else (key, v) :: props
      | None => (key, v) :: props
      end
  end.

Definition define_own {V : Type} (key : string) (v : V) (props : list (string * V))
  : list (string * V) :=
  if has_own key props then update_own key v props
  else
    match array_index key with
    | Some n => insert_index n key v props
    | None => props ++ [(key, v)]
    end.

(** [obj[key] = v].  [is_null] tells whether [v] is [null]: the setter of
    [__proto__] drops the prototype for [null] and ignores every other value
    that is no object. *)
Definition Object_set {V : Type} (is_null : V -> bool) (obj : PlainObject V)
  (key : string) (v : V) : PlainObject V :=
  if String.eqb key "__proto__" && inherits obj && negb (has_own key (own obj))
  then if is_null v then mkPlainObject (own obj) false else obj
  else mkPlainObject (define_own key v (own obj)) (inherits obj).

(** *** The constructor *)

Module ArgsClass.

(** The values of [this.opts]. *)
Inductive OptValue : Type :=
| OptTrue
| OptString (s : string)
| OptNull.

Definition is_null (v : OptValue) : bool :=
  match v with
  | OptNull => true
  | _ => false
  end.

Definition set_opt (o : PlainObject OptValue) (key : string) (v : OptValue)
  : PlainObject OptValue :=
  Object_set is_null o key v.

(** The values of [this.vars] are strings, or [undefined] for a group that
    took no part. *)
Definition set_var (o : PlainObject (option string)) (key : string)
  (v : option string) : PlainObject (option string) :=
  Object_set (fun _ => false) o key v.

Record t : Type := mk {
  process : option string;
  script : option string;
  args : list string;
  opts : PlainObject OptValue;
  vars : PlainObject (option string)
}.

(** A property name made from [match[i]]: [undefined] is converted to a
    string. *)
Definition property_key (v : option string) : string := ToString v.

(** [for (let i=0; i<flags.length; i++) this.opts[flags.charAt(i)] = true] *)
Fixpoint set_flags (flags : string) (o : PlainObject OptValue)
  : PlainObject OptValue :=
  match flags with
  | EmptyString => o
  | String c flags' => set_flags flags' (set_opt o (String c EmptyString) OptTrue)
  end.

(** [match[2] || null] *)
Definition or_null (v : option string) : OptValue :=
  match v with
  | None | Some EmptyString => OptNull
  | Some s => OptString s
  end.

(** The callback of [argv.forEach]. *)
Definition visit (this : t) (arg : string) (index : nat) : completion t :=
  if index =? 0
  then Normal (mk (Some arg) (script this) (args this) (opts this) (vars this))
  else if index =? 1
  then Normal (mk (process this) (Some arg) (args this) (opts this) (vars this))
  else
    match regex_exec single_flags_pattern 1 arg with
    | Some caps =>
        match capture 1 caps with
        | Some flags =>
            Normal (mk (process this) (script this) (args this)
                      (set_flags flags (opts this)) (vars this))
        | None =>
            Throw (TypeError "Cannot read properties of undefined (reading 'length')")
        end
    | None =>
        match regex_exec string_option_pattern 2 arg with
        | Some caps =>
            Normal (mk (process this) (script this) (args this)
                      (set_opt (opts this) (property_key (capture 1 caps))
                         (or_null (capture 2 caps)))
                      (vars this))
        | None =>
            match regex_exec multi_flag_pattern 1 arg with
            | Some caps =>
                Normal (mk (process this) (script this) (args this)
                          (set_opt (opts this) (property_key (capture 1 caps))
                             OptTrue)
                          (vars this))
            | None =>
                match regex_exec variable_pattern 2 arg with
                | Some caps =>
                    Normal (mk (process this) (script this) (args this)
                              (opts this)
                              (set_var (vars this) (property_key (capture 1 caps))
                                 (capture 2 caps)))
                | None =>
                    Normal (mk (process this) (script this) (args this ++ [arg])
                              (opts this) (vars this))
                end
            end
        end
    end.

(** [argv.forEach(callback)] from [index] on. *)
Fixpoint forEach (this : t) (argv : list string) (index : nat) : completion t :=
  match argv with
  | [] => Normal this
  | arg :: argv' =>
      match visit this arg index with
      | Normal this' => forEach this' argv' (S index)
      | Throw e => Throw e
      end
  end.

(** [new Args(argv)] *)
Definition new (argv : list string) : completion t :=
  forEach (mk None None [] empty_object empty_object) argv 0.

(** [arg] matches none of the four patterns. *)
Definition positional (arg : string) : bool :=
  match regex_exec single_flags_pattern 1 arg,
        regex_exec string_option_pattern 2 arg,
        regex_exec multi_flag_pattern 1 arg,
        regex_exec variable_pattern 2 arg with
  | None, None, None, None => true
  | _, _, _, _ => false
  end.

End ArgsClass.

(** [c] is [:] or [=]. *)
Definition is_separator (c : code_unit) : bool :=
  CodeUnit.eqb c ":" || CodeUnit.eqb c "=".

Fixpoint no_separator (s : string) : bool :=
  match s with
  | EmptyString => true
  | String c s' => negb (is_separator c) && no_separator s'
  end.

(** [s] does not start with a dash. *)
Definition no_dash (s : string) : bool :=
  match s with
  | String c _ => negb (CodeUnit.eqb c "-")
  | EmptyString => true
  end.

(** ** Concrete instances for the examples *)
Module Example.

(** A file system with the template [site] under [templates]. *)
Definition site : list (string * node) :=
  [("index.html", File);
   ("css", Dir [("main.css", File); ("vendor", Dir [("reset.css", File)])]);
   ("empty", Dir []);
   (".gitignore", File)].

Definition disk : node := Dir [("templates", Dir [("site", Dir site)])].

(** A directory with one file. *)
Definition one_file : node := Dir [("a.txt", File)].

Definition default_regex : @RegExp Flat.engine :=
  Eval vm_compute in
    match @DEFAULT_REGEX Flat.engine with
    | Some rx => rx
    | None => @mkRegExp Flat.engine [] true 0
    end.

(** A fresh transform for the command line [args], as [exec] of the [run]
    action builds one per file. *)
Definition fresh (args : Args) : completion (@RegexMatch Flat.engine) :=
  @RegexMatch_new Flat.engine default_regex args.

(** The result of one file's content, given in chunks, through a fresh
    transform. *)
Definition materialize (args : Args) (chunks0 : list Buffer)
  : completion FlushResult :=
  match fresh args with
  | Normal this => Normal (fst (@run_stream Flat.engine this chunks0))
  | Throw e => Throw e
  end.

End Example.

(* ================================================================== *)
(** * Part II.  Properties                                            *)
(* ================================================================== *)

(** ** Code units and strings *)

Lemma unit_eqb_refl (c : code_unit) : CodeUnit.eqb c c = true.
Proof. apply N.eqb_refl. Qed.

Lemma unit_eqb_eq (c d : code_unit) : CodeUnit.eqb c d = true <-> c = d.
Proof. apply N.eqb_eq. Qed.

Lemma unit_eqb_neq (c d : code_unit) : CodeUnit.eqb c d = false <-> c <> d.
Proof. apply N.eqb_neq. Qed.

Lemma unit_eqb_sym (c d : code_unit) : CodeUnit.eqb c d = CodeUnit.eqb d c.
Proof. apply N.eqb_sym. Qed.

Lemma unit_eqb_spec (c d : code_unit) : reflect (c = d) (CodeUnit.eqb c d).
Proof. apply N.eqb_spec. Qed.

Lemma string_eqb_refl (s : string) : String.eqb s s = true.
Proof.
  induction s as [|c s IH]; [reflexivity|].
  simpl. rewrite unit_eqb_refl. exact IH.
Qed.

Lemma string_eqb_eq (s t : string) : String.eqb s t = true <-> s = t.
Proof.
  split.
  - revert t. induction s as [|c s IH]; intros [|d t] H; simpl in H;
      try discriminate; [reflexivity|].
    apply andb_true_iff in H. destruct H as [Hc Hs].
    apply unit_eqb_eq in Hc. rewrite Hc, (IH t Hs). reflexivity.
  - intros <-. apply string_eqb_refl.
Qed.

Lemma string_eqb_neq (s t : string) : String.eqb s t = false <-> s <> t.
Proof.
  split.
  - intros H Heq. apply string_eqb_eq in Heq. congruence.
  - intros H. destruct (String.eqb s t) eqn:He; [|reflexivity].
    apply string_eqb_eq in He. contradiction.
Qed.

Lemma string_eqb_spec (s t : string) : reflect (s = t) (String.eqb s t).
Proof.
  destruct (String.eqb s t) eqn:He; constructor.
  - apply string_eqb_eq. exact He.
  - apply string_eqb_neq. exact He.
Qed.

(** ** UTF-8 *)

Lemma byte_of_to_N (b : byte) : byte_of (Byte.to_N b) = b.
Proof.
  unfold byte_of. pose proof (Byte.to_N_bounded b) as Hb.
  rewrite N.mod_small by lia. rewrite Byte.of_to_N. reflexivity.
Qed.

Lemma byte_in_bounds (lo hi : N) (b : byte) :
  byte_in lo hi b = true -> (lo <= Byte.to_N b <= hi)%N.
Proof.
  unfold byte_in. intros H. apply andb_true_iff in H. destruct H as [H1 H2].
  apply N.leb_le in H1, H2. split; assumption.
Qed.

Lemma div_mod_base (k q r : N) :
  (r < k)%N -> ((q * k + r) / k = q /\ (q * k + r) mod k = r)%N.
Proof.
  intros Hr. assert (Hk : k <> 0%N) by lia. split.
  - rewrite N.div_add_l by exact Hk. rewrite N.div_small by exact Hr. lia.
  - rewrite N.add_comm, N.Div0.mod_add. apply N.mod_small. exact Hr.
Qed.

Lemma utf8_bytes_1 (a : N) : (a < 128)%N -> utf8_bytes a = [byte_of a].
Proof.
  intros H. unfold utf8_bytes. apply N.ltb_lt in H. rewrite H. reflexivity.
Qed.

Lemma utf8_bytes_2 (a b : N) :
  (2 <= a < 32)%N -> (b < 64)%N ->
  utf8_bytes (a * 64 + b) = [byte_of (192 + a); byte_of (128 + b)].
Proof.
  intros Ha Hb. unfold utf8_bytes.
  destruct (N.ltb_spec (a * 64 + b) 128); [lia|].
  destruct (N.ltb_spec (a * 64 + b) 2048); [|lia].
  destruct (div_mod_base 64 a b Hb) as [Hd Hm]. rewrite Hd, Hm. reflexivity.
Qed.

Lemma utf8_bytes_3 (a b c : N) :
  (a < 16)%N -> (b < 64)%N -> (c < 64)%N -> (2048 <= a * 4096 + b * 64 + c)%N ->
  utf8_bytes (a * 4096 + b * 64 + c)
  = [byte_of (224 + a); byte_of (128 + b); byte_of (128 + c)].
Proof.
  intros Ha Hb Hc Hlow. unfold utf8_bytes.
  destruct (N.ltb_spec (a * 4096 + b * 64 + c) 128); [lia|].
  destruct (N.ltb_spec (a * 4096 + b * 64 + c) 2048); [lia|].
  destruct (N.ltb_spec (a * 4096 + b * 64 + c) 65536); [|lia].
  replace (a * 4096 + b * 64 + c)%N with ((a * 64 + b) * 64 + c)%N at 2 3 by lia.
  destruct (div_mod_base 64 (a * 64 + b) c Hc) as [Hd Hm]. rewrite Hd, Hm.
  destruct (div_mod_base 64 a b Hb) as [_ Hm2]. rewrite Hm2.
  replace (a * 4096 + b * 64 + c)%N with (a * 4096 + (b * 64 + c))%N by lia.
  destruct (div_mod_base 4096 a (b * 64 + c)) as [Hd3 _]; [lia|].
  rewrite Hd3. reflexivity.
Qed.

Lemma utf8_bytes_4 (a b c d : N) :
  (a < 8)%N -> (b < 64)%N -> (c < 64)%N -> (d < 64)%N ->
  (65536 <= a * 262144 + b * 4096 + c * 64 + d)%N ->
  utf8_bytes (a * 262144 + b * 4096 + c * 64 + d)
  = [byte_of (240 + a); byte_of (128 + b); byte_of (128 + c); byte_of (128 + d)].
Proof.
  intros Ha Hb Hc Hd Hlow. unfold utf8_bytes.
  set (cp := (a * 262144 + b * 4096 + c * 64 + d)%N) in *.
  destruct (N.ltb_spec cp 128); [lia|].
  destruct (N.ltb_spec cp 2048); [lia|].
  destruct (N.ltb_spec cp 65536); [lia|].
  assert (G1 : (cp = ((a * 64 + b) * 64 + c) * 64 + d)%N) by (unfold cp; lia).
  assert (G2 : (cp = (a * 64 + b) * 4096 + (c * 64 + d))%N) by (unfold cp; lia).
  assert (G3 : (cp = a * 262144 + (b * 4096 + c * 64 + d))%N) by (unfold cp; lia).
  assert (E1 : (cp mod 64 = d)%N).
  { rewrite G1. apply (div_mod_base 64 _ d Hd). }
  assert (E2 : ((cp / 64) mod 64 = c)%N).
  { rewrite G1. destruct (div_mod_base 64 ((a * 64 + b) * 64 + c) d Hd) as [-> _].
    apply (div_mod_base 64 _ c Hc). }
  assert (E3 : ((cp / 4096) mod 64 = b)%N).
  { rewrite G2. destruct (div_mod_base 4096 (a * 64 + b) (c * 64 + d)) as [-> _]; [lia|].
    apply (div_mod_base 64 _ b Hb). }
  assert (E4 : (cp / 262144 = a)%N).
  { rewrite G3. apply (div_mod_base 262144 a (b * 4096 + c * 64 + d)). lia. }
  rewrite E1, E2, E3, E4. reflexivity.
Qed.

Lemma surrogates_round_trip (cp : N) :
  (65536 <= cp < 1114112)%N ->
  is_high_surrogate (55296 + (cp - 65536) / 1024)%N = true
  /\ is_low_surrogate (56320 + (cp - 65536) mod 1024)%N = true
  /\ (65536 + (55296 + (cp - 65536) / 1024 - 55296) * 1024
      + (56320 + (cp - 65536) mod 1024 - 56320) = cp)%N.
Proof.
  intros Hcp.
  pose proof (N.Div0.div_mod (cp - 65536) 1024) as Hdm.
  assert (Hm : ((cp - 65536) mod 1024 < 1024)%N) by (apply N.mod_lt; lia).
  assert (Hq : ((cp - 65536) / 1024 < 1024)%N)
    by (apply N.Div0.div_lt_upper_bound; lia).
  generalize dependent ((cp - 65536) / 1024)%N. intros q Hdm Hq.
  generalize dependent ((cp - 65536) mod 1024)%N. intros m Hdm Hm.
  unfold is_high_surrogate, is_low_surrogate.
  repeat split.
  - apply andb_true_iff. split; apply N.leb_le; lia.
  - apply andb_true_iff. split; apply N.leb_le; lia.
  - lia.
Qed.

Lemma utf8_encode_unit (c : code_unit) (s : string) :
  is_high_surrogate c = false -> is_low_surrogate c = false ->
  utf8_encode (String c s) = utf8_bytes c ++ utf8_encode s.
Proof. intros Hh Hl. cbn [utf8_encode]. rewrite Hh, Hl. reflexivity. Qed.

Lemma not_surrogate (c : code_unit) :
  (c < 55296 \/ 57343 < c)%N ->
  is_high_surrogate c = false /\ is_low_surrogate c = false.
Proof.
  intros H. unfold is_high_surrogate, is_low_surrogate.
  split; apply andb_false_iff;
    destruct (N.leb_spec 55296 c), (N.leb_spec c 56319),
             (N.leb_spec 56320 c), (N.leb_spec c 57343); auto; lia.
Qed.

Lemma utf8_encode_pair (cp : N) (s : string) :
  (65536 <= cp < 1114112)%N ->
  utf8_encode (utf16 cp s) = utf8_bytes cp ++ utf8_encode s.
Proof.
  intros Hcp. unfold utf16.
  destruct (N.ltb_spec cp 65536); [lia|].
  destruct (surrogates_round_trip cp Hcp) as (Hh & Hl & Heq).
  cbn [utf8_encode]. rewrite Hh, Hl, Heq. reflexivity.
Qed.

Lemma second_bounds (b0 : byte) :
  (second_low b0 = if Byte.to_N b0 =? 224 then 160
                   else if Byte.to_N b0 =? 240 then 144 else 128)%N
  /\ (second_high b0 = if Byte.to_N b0 =? 237 then 159
                       else if Byte.to_N b0 =? 244 then 143 else 191)%N.
Proof. split; reflexivity. Qed.

Lemma second_range (b0 b1 : byte) :
  byte_in (second_low b0) (second_high b0) b1 = true ->
  (128 <= Byte.to_N b1 <= 191
   /\ (Byte.to_N b0 = 224 -> 160 <= Byte.to_N b1)
   /\ (Byte.to_N b0 = 237 -> Byte.to_N b1 <= 159)
   /\ (Byte.to_N b0 = 240 -> 144 <= Byte.to_N b1)
   /\ (Byte.to_N b0 = 244 -> Byte.to_N b1 <= 143))%N.
Proof.
  intros H. apply byte_in_bounds in H. unfold second_low, second_high in H.
  destruct (N.eqb_spec (Byte.to_N b0) 224), (N.eqb_spec (Byte.to_N b0) 240),
           (N.eqb_spec (Byte.to_N b0) 237), (N.eqb_spec (Byte.to_N b0) 244); lia.
Qed.

(** Decoding and encoding again gives back well-formed UTF-8. *)
Lemma utf8_round_trip (bs : list byte) :
  well_formed_utf8 bs = true -> utf8_encode (utf8_decode bs) = bs.
Proof.
  remember (List.length bs) as n eqn:Hn. revert bs Hn.
  induction n as [n IH] using lt_wf_ind. intros bs Hn Hwf.
  destruct bs as [|b0 r0]; [reflexivity|].
  cbn [well_formed_utf8 utf8_decode] in *.
  destruct (byte_in 0 127 b0) eqn:H1.
  { apply byte_in_bounds in H1.
    destruct (not_surrogate (Byte.to_N b0)) as [Hh Hl]; [lia|].
    rewrite (utf8_encode_unit _ _ Hh Hl), utf8_bytes_1 by lia.
    rewrite byte_of_to_N. simpl. f_equal.
    apply (IH (List.length r0)); [simpl in Hn; lia | reflexivity | exact Hwf]. }
  destruct (byte_in 194 223 b0) eqn:H2.
  { apply byte_in_bounds in H2.
    destruct r0 as [|b1 r1]; [discriminate|].
    apply andb_true_iff in Hwf. destruct Hwf as [Hb1 Hwf].
    rewrite Hb1. apply byte_in_bounds in Hb1. unfold payload.
    destruct (not_surrogate ((Byte.to_N b0 - 192) * 64 + (Byte.to_N b1 - 128))%N)
      as [Hh Hl]; [lia|].
    rewrite (utf8_encode_unit _ _ Hh Hl), utf8_bytes_2 by lia.
    replace (192 + (Byte.to_N b0 - 192))%N with (Byte.to_N b0) by lia.
    replace (128 + (Byte.to_N b1 - 128))%N with (Byte.to_N b1) by lia.
    rewrite !byte_of_to_N. simpl. do 2 f_equal.
    apply (IH (List.length r1)); [simpl in Hn; lia | reflexivity | exact Hwf]. }
  destruct (byte_in 224 239 b0) eqn:H3.
  { apply byte_in_bounds in H3.
    destruct r0 as [|b1 [|b2 r2]]; try discriminate.
    apply andb_true_iff in Hwf. destruct Hwf as [Hwf Hrest].
    apply andb_true_iff in Hwf. destruct Hwf as [Hb1 Hb2].
    rewrite Hb1, Hb2. apply second_range in Hb1. apply byte_in_bounds in Hb2.
    unfold payload.
    destruct (not_surrogate ((Byte.to_N b0 - 224) * 4096
                             + (Byte.to_N b1 - 128) * 64
                             + (Byte.to_N b2 - 128))%N) as [Hh Hl]; [lia|].
    rewrite (utf8_encode_unit _ _ Hh Hl), utf8_bytes_3 by lia.
    replace (224 + (Byte.to_N b0 - 224))%N with (Byte.to_N b0) by lia.
    replace (128 + (Byte.to_N b1 - 128))%N with (Byte.to_N b1) by lia.
    replace (128 + (Byte.to_N b2 - 128))%N with (Byte.to_N b2) by lia.
    rewrite !byte_of_to_N. simpl. do 3 f_equal.
    apply (IH (List.length r2)); [simpl in Hn; lia | reflexivity | exact Hrest]. }
  destruct (byte_in 240 244 b0) eqn:H4; [|discriminate].
  apply byte_in_bounds in H4.
  destruct r0 as [|b1 [|b2 [|b3 r3]]]; try discriminate.
  apply andb_true_iff in Hwf. destruct Hwf as [Hwf Hrest].
  apply andb_true_iff in Hwf. destruct Hwf as [Hwf Hb3].
  apply andb_true_iff in Hwf. destruct Hwf as [Hb1 Hb2].
  rewrite Hb1, Hb2, Hb3. apply second_range in Hb1.
  apply byte_in_bounds in Hb2, Hb3. unfold payload.
  rewrite utf8_encode_pair by lia. rewrite utf8_bytes_4 by lia.
  replace (240 + (Byte.to_N b0 - 240))%N with (Byte.to_N b0) by lia.
  replace (128 + (Byte.to_N b1 - 128))%N with (Byte.to_N b1) by lia.
  replace (128 + (Byte.to_N b2 - 128))%N with (Byte.to_N b2) by lia.
  replace (128 + (Byte.to_N b3 - 128))%N with (Byte.to_N b3) by lia.
  rewrite !byte_of_to_N. simpl. do 4 f_equal.
  apply (IH (List.length r3)); [simpl in Hn; lia | reflexivity | exact Hrest].
Qed.

(** ** The exec loop *)

Section BuiltinFacts.
Context `{E : RegExpEngine}.

Lemma exec_scan_index (p : Pattern) (s : string) (n i : nat) (r : ExecResult) :
  exec_scan p s i n = Some r -> i <= er_index r <= i + n.
Proof.
  revert i. induction n as [|n IH]; intros i H; simpl in H.
  - destruct (pattern_match p s i); inversion H; subst; simpl; lia.
  - destruct (pattern_match p s i).
    + inversion H; subst; simpl; lia.
    + apply IH in H. lia.
Qed.

Lemma exec_scan_none (p : Pattern) (s : string) (n i : nat) :
  (forall j, i <= j <= i + n -> pattern_match p s j = None) ->
  exec_scan p s i n = None.
Proof.
  revert i. induction n as [|n IH]; intros i H; simpl.
  - rewrite (H i) by lia. reflexivity.
  - rewrite (H i) by lia. apply IH. intros j Hj. apply H. lia.
Qed.

Lemma exec_index (p : Pattern) (s : string) (lastIndex : nat) (r : ExecResult) :
  RegExpBuiltinExec p s lastIndex = Some r ->
  lastIndex <= er_index r <= String.length s.
Proof.
  unfold RegExpBuiltinExec. destruct (Nat.ltb_spec (String.length s) lastIndex).
  - discriminate.
  - intros H0. apply exec_scan_index in H0. lia.
Qed.

Lemma exec_none (p : Pattern) (s : string) :
  (forall i, i <= String.length s -> pattern_match p s i = None) ->
  RegExpBuiltinExec p s 0 = None.
Proof.
  intros H. unfold RegExpBuiltinExec. simpl.
  apply exec_scan_none. intros j Hj. apply H. lia.
Qed.

Lemma next_lastIndex_grows (p : Pattern) (s : string) (lastIndex : nat)
  (r : ExecResult) :
  RegExpBuiltinExec p s lastIndex = Some r -> lastIndex < next_lastIndex r.
Proof.
  intros H. apply exec_index in H. unfold next_lastIndex.
  destruct (Nat.eqb_spec (String.length (er_matched r)) 0); lia.
Qed.

(** Fuel beyond what the string can use up changes nothing. *)
Lemma exec_all_fuel (p : Pattern) (s : string) (fuel lastIndex : nat) :
  String.length s + 2 <= fuel + lastIndex ->
  exec_all (S fuel) p s lastIndex = exec_all fuel p s lastIndex.
Proof.
  revert lastIndex. induction fuel as [|fuel IH]; intros lastIndex H.
  - simpl. unfold RegExpBuiltinExec.
    destruct (Nat.ltb_spec (String.length s) lastIndex); [reflexivity | lia].
  - change (exec_all (S (S fuel)) p s lastIndex)
      with (match RegExpBuiltinExec p s lastIndex with
            | None => []
            | Some r => r :: exec_all (S fuel) p s (next_lastIndex r)
            end).
    change (exec_all (S fuel) p s lastIndex)
      with (match RegExpBuiltinExec p s lastIndex with
            | None => []
            | Some r => r :: exec_all fuel p s (next_lastIndex r)
            end).
    destruct (RegExpBuiltinExec p s lastIndex) as [r|] eqn:Hr; [|reflexivity].
    f_equal. apply IH. apply next_lastIndex_grows in Hr. lia.
Qed.

(** [exec_global] is the loop run to its end: every larger fuel gives the
    same list. *)
Lemma exec_global_fuel (p : Pattern) (s : string) (fuel : nat) :
  String.length s + 2 <= fuel -> exec_all fuel p s 0 = exec_global p s.
Proof.
  unfold exec_global. intros H.
  replace fuel with ((fuel - (String.length s + 2)) + (String.length s + 2)) by lia.
  induction (fuel - (String.length s + 2)) as [|k IH]; [reflexivity|].
  simpl plus. rewrite exec_all_fuel by lia. exact IH.
Qed.

Lemma exec_global_none (p : Pattern) (s : string) :
  RegExpBuiltinExec p s 0 = None -> exec_global p s = [].
Proof.
  intros H. unfold exec_global. rewrite Nat.add_comm. simpl. rewrite H. reflexivity.
Qed.

Lemma String_match_none (s : string) (rx : RegExp) :
  RegExpBuiltinExec (re_pattern rx) s 0 = None ->
  fst (String_match s rx) = None.
Proof.
  intros H. unfold String_match. destruct (re_global rx).
  - rewrite exec_global_none by exact H. reflexivity.
  - rewrite H. reflexivity.
Qed.

(** The result of [match] does not depend on the [lastIndex] the object
    holds. *)
Lemma String_match_lastIndex (s : string) (p : Pattern) (g : bool) (i j : nat) :
  fst (String_match s (mkRegExp p g i)) = fst (String_match s (mkRegExp p g j)).
Proof.
  unfold String_match; simpl. destruct g.
  - destruct (exec_global p s); reflexivity.
  - destruct (RegExpBuiltinExec p s 0); reflexivity.
Qed.

End BuiltinFacts.

(** ** The stream protocol *)

Section StreamFacts.
Context `{E : RegExpEngine}.

Lemma fold_transform_some (cs more : list Buffer) (rx : RegExp) (vs : Vars) :
  fold_left transform more (mkRegexMatch rx vs (Some cs))
  = mkRegexMatch rx vs (Some (cs ++ more)).
Proof.
  revert cs. induction more as [|c more IH]; intros cs; simpl.
  - rewrite app_nil_r. reflexivity.
  - unfold transform at 2; simpl. rewrite IH, <- app_assoc. reflexivity.
Qed.

(** After the chunks of a file a fresh instance holds exactly them, and
    nothing when there was none. *)
Lemma fold_transform_fresh (cs : list Buffer) (rx : RegExp) (vs : Vars) :
  fold_left transform cs (mkRegexMatch rx vs None)
  = mkRegexMatch rx vs (match cs with [] => None | _ => Some cs end).
Proof.
  destruct cs as [|c cs]; [reflexivity|].
  simpl. unfold transform at 2; simpl. apply fold_transform_some.
Qed.

Lemma RegexMatch_new_fresh (d : RegExp) (args : Args) (this : RegexMatch) :
  RegexMatch_new d args = Normal this ->
  chunks this = None /\ vars this = args_vars args.
Proof.
  unfold RegexMatch_new.
  destruct (opts_pattern args) as [[|c src]|].
  - intros H; inversion H; subst; auto.
  - destruct (RegExp_new _ false); intros H; inversion H; subst; auto.
  - intros H; inversion H; subst; auto.
Qed.

End StreamFacts.

(** C10.  A file that delivers no chunk: whatever the pattern object and the
    variables, [flush] does not throw and calls back with the zero-length
    buffer; the instance is left as it was. *)
Theorem flush_empty_input `{E : RegExpEngine} (rx : RegExp) (vs : Vars) :
  run_stream (mkRegexMatch rx vs None) []
  = (Callback Buffer_alloc0, mkRegexMatch rx vs None)
  /\ List.length Buffer_alloc0 = 0.
Proof.
  split; reflexivity.
Qed.

(** Content in which the pattern matches at no position: for every pattern
    object, all variables and every sequence of chunks, the data [flush]
    calls back with is the text of the chunks, encoded again. *)
Lemma flush_no_placeholder `{E : RegExpEngine}
  (rx : RegExp) (vs : Vars) (c : Buffer) (cs : list Buffer) :
  (forall i, i <= String.length (Buffer_toString (Buffer_concat (c :: cs))) ->
             pattern_match (re_pattern rx)
               (Buffer_toString (Buffer_concat (c :: cs))) i = None) ->
  fst (run_stream (mkRegexMatch rx vs None) (c :: cs))
  = Callback (Buffer_from (Buffer_toString (Buffer_concat (c :: cs)))).
Proof.
  intros Hno. unfold run_stream. rewrite fold_transform_fresh.
  unfold flush. cbn [chunks pattern vars].
  pose proof (String_match_none (Buffer_toString (Buffer_concat (c :: cs))) rx
                (exec_none _ _ Hno)) as Hm.
  destruct (String_match _ rx) as [m rx']. simpl in Hm. subst m. reflexivity.
Qed.

(** C3, as amended.  Content that is well-formed UTF-8 and in whose text the
    pattern matches at no position passes through unchanged: for every
    pattern object, all variables and every sequence of chunks, the data
    [flush] calls back with is the concatenation of the chunks, byte for
    byte. *)
Theorem flush_no_placeholder_identity `{E : RegExpEngine}
  (rx : RegExp) (vs : Vars) (cs : list Buffer) :
  well_formed_utf8 (Buffer_concat cs) = true ->
  (forall i, i <= String.length (Buffer_toString (Buffer_concat cs)) ->
             pattern_match (re_pattern rx)
               (Buffer_toString (Buffer_concat cs)) i = None) ->
  fst (run_stream (mkRegexMatch rx vs None) cs) = Callback (Buffer_concat cs).
Proof.
  intros Hwf Hno. destruct cs as [|c cs]; [reflexivity|].
  rewrite (flush_no_placeholder rx vs c cs Hno).
  unfold Buffer_from, Buffer_toString. rewrite utf8_round_trip by exact Hwf.
  reflexivity.
Qed.

(** ** Determinism *)

Section FlushFacts.
Context `{E : RegExpEngine}.

(** The result of [flush] depends on the pattern object only through what
    [match] returns. *)
Lemma flush_result_match (rx1 rx2 : RegExp) (vs : Vars) (c : option (list Buffer)) :
  (forall s, fst (String_match s rx1) = fst (String_match s rx2)) ->
  fst (flush (mkRegexMatch rx1 vs c)) = fst (flush (mkRegexMatch rx2 vs c)).
Proof.
  intros H. unfold flush. cbn [chunks pattern vars].
  destruct c as [cs|]; [|reflexivity].
  specialize (H (Buffer_toString (Buffer_concat cs))).
  destruct (String_match _ rx1) as [m1 r1], (String_match _ rx2) as [m2 r2].
  simpl in H. subst m2. destruct m1 as [ms|]; [|reflexivity].
  destruct (compile_keys _) as [ps|e]; [|reflexivity].
  destruct (filter_matches _ _ _ _ _) as [found kept].
  destruct (0 <? List.length kept); [reflexivity|].
  destruct (apply_found _ _); reflexivity.
Qed.

(** [match] leaves the pattern and the flag of the object alone. *)
Lemma String_match_same_pattern (s : string) (rx : RegExp) :
  re_pattern (snd (String_match s rx)) = re_pattern rx
  /\ re_global (snd (String_match s rx)) = re_global rx.
Proof.
  unfold String_match. destruct (re_global rx) eqn:Hg.
  - destruct (exec_global _ _); simpl; auto.
  - destruct (RegExpBuiltinExec _ _ _); simpl; auto.
Qed.

Lemma flush_same_pattern (this : RegexMatch) :
  re_pattern (pattern (snd (flush this))) = re_pattern (pattern this)
  /\ re_global (pattern (snd (flush this))) = re_global (pattern this)
  /\ vars (snd (flush this)) = vars this.
Proof.
  unfold flush. destruct (chunks this) as [cs|]; [|simpl; auto].
  pose proof (String_match_same_pattern (Buffer_toString (Buffer_concat cs))
                (pattern this)) as [H1 H2].
  destruct (String_match _ _) as [m rx']. simpl in H1, H2.
  destruct m as [ms|]; [|simpl; auto].
  destruct (compile_keys _) as [ps|e]; [|simpl; auto].
  destruct (filter_matches _ _ _ _ _) as [found kept].
  destruct (0 <? List.length kept); [simpl; auto|].
  destruct (apply_found _ _); simpl; auto.
Qed.

Lemma same_pattern_same_match (rx1 rx2 : RegExp) :
  re_pattern rx1 = re_pattern rx2 -> re_global rx1 = re_global rx2 ->
  forall s, fst (String_match s rx1) = fst (String_match s rx2).
Proof.
  destruct rx1 as [p1 g1 i1], rx2 as [p2 g2 i2]; simpl.
  intros -> -> s. apply String_match_lastIndex.
Qed.

End FlushFacts.

(** [recorded] is the [foundMatches] of [flush]: with chunks buffered, the
    result of [flush] is read off the match, the compiled names, the tokens
    the filter keeps and the application of the records. *)
Lemma flush_recorded `{E : RegExpEngine} (this : RegexMatch) (cs : list Buffer) :
  chunks this = Some cs ->
  let fileString := Buffer_toString (Buffer_concat cs) in
  fst (flush this)
  = match fst (String_match fileString (pattern this)) with
    | None => Callback (Buffer_from fileString)
    | Some match_ =>
        match compile_keys (Object_keys (vars this)) with
        | Throw e => Thrown e
        | Normal varRegex =>
            let kept := snd (filter_matches (vars this) (Object_keys (vars this))
                               varRegex match_ []) in
            if 0 <? List.length kept then Thrown (Error (unresolved_message kept))
            else
              match apply_found (recorded this fileString) fileString with
              | Throw e => Thrown e
              | Normal fileString' => Callback (Buffer_from fileString')
              end
        end
    end.
Proof.
  intros Hcs fileString. unfold flush, recorded. rewrite Hcs. fold fileString.
  destruct (String_match fileString (pattern this)) as [m rx'].
  cbn [fst]. destruct m as [match_|]; [|reflexivity].
  destruct (compile_keys _) as [varRegex|e]; [|reflexivity].
  destruct (filter_matches _ _ _ _ _) as [found kept]. cbn [fst snd].
  destruct (0 <? List.length kept); [reflexivity|].
  destruct (apply_found found _); reflexivity.
Qed.

(** C5.  The transform is a function of the chunk sequence, the pattern and
    the variables: two runs whose pattern objects differ only in the
    [lastIndex] they happen to hold give the same result, and so does a second
    run that reuses the pattern object the first run left behind. *)
Theorem transform_deterministic `{E : RegExpEngine}
  (p : Pattern) (g : bool) (i j : nat) (vs : Vars) (cs : list Buffer) :
  fst (run_stream (mkRegexMatch (mkRegExp p g i) vs None) cs)
  = fst (run_stream (mkRegexMatch (mkRegExp p g j) vs None) cs)
  /\ fst (run_stream
            (mkRegexMatch
               (pattern (snd (run_stream (mkRegexMatch (mkRegExp p g i) vs None) cs)))
               vs None) cs)
     = fst (run_stream (mkRegexMatch (mkRegExp p g i) vs None) cs).
Proof.
  unfold run_stream. rewrite !fold_transform_fresh. split.
  - apply flush_result_match. intros s. apply String_match_lastIndex.
  - apply flush_result_match.
    destruct (flush_same_pattern
                (mkRegexMatch (mkRegExp p g i) vs
                   (match cs with [] => None | _ :: _ => Some cs end)))
      as (H1 & H2 & _).
    apply same_pattern_same_match; assumption.
Qed.

(** ** Resolution of the found tokens *)

Section ResolveFacts.
Context `{E : RegExpEngine}.

Lemma existsb_combine_seq {A : Type} (f : A -> bool) (l : list A) (n : nat) :
  existsb (fun v : A * nat => f (fst v)) (combine l (seq n (List.length l)))
  = existsb f l.
Proof.
  revert n. induction l as [|a l IH]; intros n; simpl; [reflexivity|].
  rewrite IH. reflexivity.
Qed.

Lemma existsb_indexed {A : Type} (f : A -> bool) (l : list A) :
  existsb (fun v : A * nat => f (fst v)) (indexed l) = existsb f l.
Proof. apply existsb_combine_seq. Qed.

(** [notFound] after the [forEach]: no pattern of [varRegex] matched. *)
Lemma check_var_notFound (vs : Vars) (keys : list string) (m : option string)
  (l : list (Pattern * nat)) (found : list MatchRecord) (b : bool) :
  snd (fold_left (check_var vs keys m) l (found, b))
  = b && negb (existsb (fun v => RegExp_test (fst v) (ToString m)) l).
Proof.
  revert found b. induction l as [|[p i] l IH]; intros found b; simpl.
  - rewrite andb_true_r. reflexivity.
  - destruct (RegExp_test p (ToString m)); simpl.
    + rewrite IH. simpl. rewrite andb_false_r. reflexivity.
    + apply IH.
Qed.

(** What the filter keeps: the tokens none of the patterns matches. *)
Lemma filter_matches_kept (vs : Vars) (keys : list string) (ps : list Pattern)
  (ms : list (option string)) (found : list MatchRecord) :
  snd (filter_matches vs keys ps ms found)
  = filter (fun m => negb (existsb (fun p => RegExp_test p (ToString m)) ps)) ms.
Proof.
  revert found. induction ms as [|m ms IH]; intros found; simpl; [reflexivity|].
  pose proof (check_var_notFound vs keys m (indexed ps) found true) as Hn.
  destruct (fold_left _ _ _) as [found' notFound]. simpl in Hn.
  rewrite (existsb_indexed (fun p => RegExp_test p (ToString m))) in Hn.
  specialize (IH found'). destruct (filter_matches _ _ _ ms found') as [found'' kept].
  simpl in IH. simpl. subst kept notFound.
  destruct (negb _); reflexivity.
Qed.

(** When every name compiles, [varRegex] is built, and one of its patterns
    matches a token exactly when one of the names does. *)
Lemma compile_keys_valid (keys : list string) :
  Forall (fun key => compile key <> None) keys ->
  exists ps,
    compile_keys keys = Normal ps
    /\ List.length ps = List.length keys
    /\ forall t, existsb (fun p => RegExp_test p t) ps
                 = existsb (fun key => name_matches key t) keys.
Proof.
  induction 1 as [|key keys Hk _ IH].
  - exists []. repeat split; reflexivity.
  - destruct IH as (ps & Hps & Hlen & Hex).
    destruct (compile key) as [p|] eqn:Hp; [|congruence].
    exists (p :: ps). simpl. rewrite Hp, Hps. repeat split.
    + simpl. congruence.
    + intros t. unfold name_matches at 1. rewrite Hp, Hex. reflexivity.
Qed.

(** A name the constructor rejects makes [flush] throw its [SyntaxError]. *)
Lemma compile_keys_invalid (keys : list string) :
  ~ Forall (fun key => compile key <> None) keys ->
  exists key, In key keys /\ compile key = None
              /\ compile_keys keys = Throw (SyntaxError key).
Proof.
  induction keys as [|k keys IH]; intros H.
  - exfalso. apply H. constructor.
  - simpl. destruct (compile k) as [p|] eqn:Hp.
    + destruct IH as (key & Hin & Hc & Hthrow).
      * intros HF. apply H. constructor; [congruence | exact HF].
      * exists key. rewrite Hthrow. auto.
    + exists k. auto.
Qed.

Lemma filter_map_Some (f : string -> bool) (l : list string) :
  filter (fun m => f (ToString m)) (map Some l) = map Some (filter f l).
Proof.
  induction l as [|a l IH]; simpl; [reflexivity|].
  rewrite IH. destruct (f a); reflexivity.
Qed.

Lemma global_match_tokens (rx : RegExp) (s : string) :
  re_global rx = true ->
  found_tokens (re_pattern rx) s <> [] ->
  fst (String_match s rx) = Some (map Some (found_tokens (re_pattern rx) s)).
Proof.
  intros Hg Hne. unfold String_match, found_tokens in *. rewrite Hg.
  destruct (exec_global (re_pattern rx) s) as [|r rs] eqn:Hrs.
  - exfalso. apply Hne. reflexivity.
  - simpl. rewrite map_map. reflexivity.
Qed.

End ResolveFacts.

(** C1 (amended).  For a pattern scanned globally (the default pattern is)
    and variables whose names are all valid patterns: when a file that
    delivered at least one chunk contains a token no variable name matches
    inside, [flush] throws -- it does not call back -- and the message of the
    error is the fixed text around the comma-separated list of exactly the
    unresolved tokens, one entry per occurrence, in the order of the scan. *)
Theorem flush_unresolved_error `{E : RegExpEngine}
  (rx : RegExp) (vs : Vars) (cs : list Buffer) :
  re_global rx = true ->
  cs <> [] ->
  valid_names vs ->
  (exists t, In t (found_tokens (re_pattern rx)
               (Buffer_toString (Buffer_concat cs)))
             /\ unresolved vs t = true) ->
  fst (run_stream (mkRegexMatch rx vs None) cs)
  = Thrown (Error (unresolved_message
                     (map Some (filter (unresolved vs)
                                  (found_tokens (re_pattern rx)
               (Buffer_toString (Buffer_concat cs)))))))
  /\ forall t,
       In t (filter (unresolved vs) (found_tokens (re_pattern rx)
               (Buffer_toString (Buffer_concat cs))))
       <-> In t (found_tokens (re_pattern rx)
               (Buffer_toString (Buffer_concat cs)))
           /\ forall key, In key (Object_keys vs) -> name_matches key t = false.
Proof.
  intros Hg Hcs Hvalid (t0 & Hin0 & Hun0). split.
  - unfold run_stream. rewrite fold_transform_fresh.
    destruct cs as [|c cs]; [congruence|].
    set (content := Buffer_toString (Buffer_concat (c :: cs))) in *.
    unfold flush. cbn [chunks pattern vars].
    fold content.
    assert (Hne : found_tokens (re_pattern rx) content <> [])
      by (intros Heq; rewrite Heq in Hin0; exact Hin0).
    pose proof (global_match_tokens rx content Hg Hne) as Hm.
    destruct (String_match content rx) as [m rx']. simpl in Hm. subst m.
    destruct (compile_keys_valid _ Hvalid) as (ps & Hps & _ & Hex).
    rewrite Hps.
    pose proof (filter_matches_kept vs (Object_keys vs) ps
                  (map Some (found_tokens (re_pattern rx) content)) []) as Hk.
    destruct (filter_matches _ _ _ _ _) as [found kept]. simpl in Hk.
    rewrite (filter_map_Some (fun t => negb (existsb (fun p => RegExp_test p t) ps))) in Hk.
    assert (Hf : filter (fun t => negb (existsb (fun p => RegExp_test p t) ps))
                   (found_tokens (re_pattern rx) content)
                 = filter (unresolved vs) (found_tokens (re_pattern rx) content)).
    { apply filter_ext. intros t. unfold unresolved. rewrite Hex. reflexivity. }
    rewrite Hf in Hk. subst kept.
    assert (Hin : In t0 (filter (unresolved vs) (found_tokens (re_pattern rx) content)))
      by (apply filter_In; auto).
    destruct (filter (unresolved vs) (found_tokens (re_pattern rx) content)) as [|u us];
      [contradiction|].
    reflexivity.
  - intros t. rewrite filter_In. unfold unresolved.
    rewrite negb_true_iff. split.
    + intros [Hin Hex]. split; [exact Hin|]. intros key Hkey.
      destruct (name_matches key t) eqn:Hnm; [|reflexivity].
      assert (existsb (fun key => name_matches key t) (Object_keys vs) = true)
        by (apply existsb_exists; eauto).
      congruence.
    + intros [Hin Hall]. split; [exact Hin|].
      destruct (existsb _ _) eqn:Hex; [|reflexivity].
      apply existsb_exists in Hex. destruct Hex as (key & Hkey & Hnm).
      rewrite (Hall key Hkey) in Hnm. discriminate.
Qed.

Lemma flush_unresolved_error_witness :
  fst (@run_stream Flat.engine
         (mkRegexMatch Example.default_regex [("NAME", "Acme")] None)
         [Buffer_from "{{UNKNOWN}}"])
  = Thrown (Error (unresolved_message [Some "{{UNKNOWN}}"])).
Proof.
  refine (proj1 (@flush_unresolved_error Flat.engine Example.default_regex
                   [("NAME", "Acme")] [Buffer_from "{{UNKNOWN}}"] _ _ _ _)).
  - reflexivity.
  - discriminate.
  - constructor; [vm_compute; discriminate | constructor].
  - exists "{{UNKNOWN}}". vm_compute. auto.
Defined.

(** C1, as stated, fails for a variable name that is not a valid pattern: the
    file has the token [{{A}}], no variable name matches inside it, and
    [flush] throws the [SyntaxError] of [new RegExp("(")], whose message is
    not the list of unresolved tokens. *)
Lemma flush_unresolved_error_invalid_name :
  @found_tokens Flat.engine (re_pattern Example.default_regex) "{{A}}" = ["{{A}}"]
  /\ @unresolved Flat.engine [("(", "x")] "{{A}}" = true
  /\ fst (@run_stream Flat.engine
            (mkRegexMatch Example.default_regex [("(", "x")] None)
            [Buffer_from "{{A}}"])
     = Thrown (SyntaxError "(")
  /\ fst (@run_stream Flat.engine
            (mkRegexMatch Example.default_regex [("(", "x")] None)
            [Buffer_from "{{A}}"])
     <> Thrown (Error (unresolved_message [Some "{{A}}"])).
Proof.
  repeat split; try (vm_compute; reflexivity).
  vm_compute. discriminate.
Qed.

(** With an overriding pattern, which the constructor builds without the [g]
    flag, only the first match is looked at: a later token that no variable
    resolves goes through. *)
Lemma flush_override_misses_token :
  Example.materialize (mkArgs (Some "{{[A-Z]+}}") [("A", "x")])
    [Buffer_from "{{A}} {{B}}"]
  = Normal (Callback (Buffer_from "x {{B}}"))
  /\ Example.materialize (mkArgs None [("A", "x")]) [Buffer_from "{{A}} {{B}}"]
     = Normal (Thrown (Error (unresolved_message [Some "{{B}}"]))).
Proof.
  split; vm_compute; reflexivity.
Qed.

Lemma flush_no_placeholder_identity_witness :
  fst (@run_stream Flat.engine
         (mkRegexMatch Example.default_regex [("NAME", "Acme")] None)
         [[x63; x61; x66; xc3]; [xa9; x21]])
  = Callback [x63; x61; x66; xc3; xa9; x21].
Proof.
  apply (@flush_no_placeholder_identity Flat.engine Example.default_regex
           [("NAME", "Acme")] [[x63; x61; x66; xc3]; [xa9; x21]]).
  - reflexivity.
  - intros i Hi.
    do 6 (destruct i as [|i]; [reflexivity|]).
    vm_compute in Hi. lia.
Defined.

(** C3, as stated, fails for content that is not well-formed UTF-8: in the
    four bytes [63 61 66 E9] (the Latin-1 form of a word that ends in an
    accented letter) the pattern matches nowhere, and the data [flush] calls
    back with has six bytes, the last three the UTF-8 form of U+FFFD. *)
Lemma flush_ill_formed_utf8_replaced :
  (forall i, i <= String.length (Buffer_toString [x63; x61; x66; xe9]) ->
             @pattern_match Flat.engine (re_pattern Example.default_regex)
               (Buffer_toString [x63; x61; x66; xe9]) i = None)
  /\ fst (@run_stream Flat.engine
            (mkRegexMatch Example.default_regex [] None) [[x63; x61; x66; xe9]])
     = Callback [x63; x61; x66; xef; xbf; xbd]
  /\ fst (@run_stream Flat.engine
            (mkRegexMatch Example.default_regex [] None) [[x63; x61; x66; xe9]])
     <> Callback (Buffer_concat [[x63; x61; x66; xe9]]).
Proof.
  split; [|split].
  - intros i Hi.
    do 5 (destruct i as [|i]; [reflexivity|]).
    vm_compute in Hi. lia.
  - vm_compute. reflexivity.
  - vm_compute. discriminate.
Qed.

(** C4 at a failing input.  The token [{{NAME}}] occurs twice and one
    variable matches it: [foundMatches] receives two records for the one
    distinct token, because [includes] compares the token with the record
    objects.  When two variable names match inside one token, each adds a
    record. *)
Theorem foundMatches_not_deduplicated :
  @recorded Flat.engine
    (mkRegexMatch Example.default_regex [("NAME", "x")] None) "{{NAME}} {{NAME}}"
  = [mkMatchRecord (Some "{{NAME}}") (Some "x");
     mkMatchRecord (Some "{{NAME}}") (Some "x")]
  /\ @recorded Flat.engine
       (mkRegexMatch Example.default_regex [("NAME", "a"); ("N", "b")] None) "{{NAME}}"
     = [mkMatchRecord (Some "{{NAME}}") (Some "a");
        mkMatchRecord (Some "{{NAME}}") (Some "b")].
Proof.
  split; vm_compute; reflexivity.
Qed.

(** ** The extension classifier *)

Lemma dot_run_no_line_terminator (s : string) :
  no_line_terminator s = true -> dot_run s = s.
Proof.
  induction s as [|c s IH]; simpl; [reflexivity|].
  intros H. apply andb_true_iff in H. destruct H as [Hc Hs].
  apply negb_true_iff in Hc. rewrite Hc, IH by exact Hs. reflexivity.
Qed.

Lemma after_last_dot_no_line_terminator (b r : string) :
  after_last_dot b = Some r -> no_line_terminator b = true ->
  no_line_terminator r = true.
Proof.
  revert r. induction b as [|c b IH]; simpl; intros r H Hb; [discriminate|].
  apply andb_true_iff in Hb. destruct Hb as [_ Hb].
  destruct (after_last_dot b) as [r'|].
  - inversion H; subst. apply IH; auto.
  - destruct (is_dot c); inversion H; subst. exact Hb.
Qed.

Lemma is_dot_line_terminator (c : code_unit) :
  is_dot c = true -> Flat.is_line_terminator c = false.
Proof.
  unfold is_dot. intros H. apply unit_eqb_eq in H. subst c. reflexivity.
Qed.

(** The pattern [/\.?(.+)/] on a dot followed by text without line
    terminators: the text, or the dot itself when the text is empty. *)
Lemma ext_pattern_exec_dotted (c : code_unit) (r : string) :
  is_dot c = true -> no_line_terminator r = true ->
  ext_pattern_exec (String c r)
  = Some (match r with EmptyString => String c EmptyString | _ => r end).
Proof.
  intros Hc Hr. unfold ext_pattern_exec, ext_pattern_at. rewrite Hc.
  rewrite (dot_run_no_line_terminator r Hr).
  destruct r as [|d r'].
  - simpl. rewrite (is_dot_line_terminator c Hc). reflexivity.
  - reflexivity.
Qed.

Lemma ext_pattern_exec_plain (c : code_unit) (r : string) :
  is_dot c = false -> no_line_terminator (String c r) = true ->
  ext_pattern_exec (String c r) = Some (String c r).
Proof.
  intros Hc Hr. unfold ext_pattern_exec, ext_pattern_at. rewrite Hc.
  rewrite (dot_run_no_line_terminator _ Hr). reflexivity.
Qed.

Lemma getExtname_of_base (b : string) :
  b <> EmptyString -> no_line_terminator b = true ->
  ext_pattern_exec (match extname_of_base b with
                    | EmptyString => b
                    | String c e => String c e
                    end)
  = Some (extension_of_base b).
Proof.
  intros Hne Hlt. destruct b as [|c b']; [congruence|].
  unfold extname_of_base, extension_of_base.
  assert (Hlt' : no_line_terminator b' = true)
    by (simpl in Hlt; apply andb_true_iff in Hlt; tauto).
  change (after_last_dot (String c b'))
    with (match after_last_dot b' with
          | Some r => Some r
          | None => if is_dot c then Some b' else None
          end).
  destruct (after_last_dot b') as [r|] eqn:Hr.
  - pose proof (after_last_dot_no_line_terminator b' r Hr Hlt') as Hrl.
    destruct (String.eqb (String c b') "..") eqn:Hdd.
    + apply string_eqb_eq in Hdd. inversion Hdd; subst.
      simpl in Hr. inversion Hr; subst. reflexivity.
    + rewrite (ext_pattern_exec_dotted "." r eq_refl Hrl).
      destruct r; reflexivity.
  - destruct (is_dot c) eqn:Hc.
    + rewrite (ext_pattern_exec_dotted c b' Hc Hlt').
      apply unit_eqb_eq in Hc. subst c. destruct b'; reflexivity.
    + apply ext_pattern_exec_plain; assumption.
Qed.

(** C7 (amended).  For every path whose base name is not empty and holds no
    line terminator, [getExtname] returns the text of the base name after its
    last [.]; the whole base name when it has no [.] (for a dotfile such as
    [.gitignore] the two readings agree: the name without its leading dot);
    and [.] when nothing follows the last [.]. *)
Theorem getExtname_spec (filePath : string) :
  path_basename filePath <> EmptyString ->
  no_line_terminator (path_basename filePath) = true ->
  getExtname filePath = Normal (extension_of_base (path_basename filePath)).
Proof.
  intros Hne Hlt. unfold getExtname, path_extname.
  pose proof (getExtname_of_base (path_basename filePath) Hne Hlt) as H.
  destruct (extname_of_base (path_basename filePath)); rewrite H; reflexivity.
Qed.

Lemma getExtname_spec_witness :
  getExtname "templates/site/.gitignore" = Normal "gitignore".
Proof.
  apply (getExtname_spec "templates/site/.gitignore").
  - vm_compute. discriminate.
  - reflexivity.
Defined.

(** C7, as stated, fails for a base name that ends in a dot: the text after
    the last [.] of [index.] is empty, and [getExtname] returns [.]. *)
Lemma getExtname_trailing_dot :
  path_basename "index." = "index."
  /\ after_last_dot "index." = Some EmptyString
  /\ getExtname "index." = Normal "."
  /\ getExtname "index." <> Normal EmptyString.
Proof.
  repeat split; try reflexivity. vm_compute. discriminate.
Qed.

(** A line terminator in the base name ends the extension, since [.] in the
    pattern does not match it; a base name that starts with one and has
    nothing else to offer makes [getExtname] throw. *)
Lemma getExtname_line_terminator :
  getExtname (append "notes.a" (append nl "b")) = Normal "a"
  /\ getExtname nl = Throw (TypeError "Cannot read properties of null (reading '1')").
Proof.
  split; vm_compute; reflexivity.
Qed.

(** ** The copy pipeline *)

Lemma includes_In (a : list string) (s : string) :
  includes a s = true <-> In s a.
Proof.
  unfold includes. rewrite existsb_exists. split.
  - intros (x & Hin & Heq). apply string_eqb_eq in Heq. subst. exact Hin.
  - intros Hin. exists s. split; [exact Hin | apply string_eqb_refl].
Qed.

(** C6 (amended).  A source whose extension is on the blacklist: whatever the
    table of text extensions holds (the extension itself included), whatever
    the transform is and whatever the file system answers, no effect of the
    call writes a file and the promise is never rejected; once [makeDir] has
    made the directory of the destination the promise is resolved, the only
    effects being the [makeDir] and the log line. *)
Theorem transformCopy_blacklisted
  (TEXT_EXTENSIONS : list string) (path_dirname : string -> string)
  (through : list Buffer -> FlushResult)
  (env : io) (source dest ext : string) :
  getExtname source = Normal ext ->
  In ext TRANSFORM_BLACKLIST ->
  (forall d e,
     In e (snd (transformCopy TEXT_EXTENSIONS path_dirname through env source dest)) ->
     writes_file d e = false)
  /\ (forall err,
        fst (transformCopy TEXT_EXTENSIONS path_dirname through env source dest)
        <> Rejected err)
  /\ (makeDir_ok env = true ->
      transformCopy TEXT_EXTENSIONS path_dirname through env source dest
      = (Resolved,
         [MakeDir (path_dirname dest); ConsoleGroup;
          ConsoleLog (append source " [Skipped Copy]"); ConsoleGroupEnd])).
Proof.
  intros Hext Hin. apply includes_In in Hin.
  unfold transformCopy. rewrite Hext, Hin.
  destruct (makeDir_ok env); simpl; repeat split.
  - intros d e [<-|[<-|[<-|[<-|[]]]]]; reflexivity.
  - discriminate.
  - intros d e [<-|[]]; reflexivity.
  - discriminate.
  - discriminate.
Qed.

Lemma transformCopy_blacklisted_witness :
  transformCopy ["git"; "txt"] (fun _ => "out") (fun _ => Callback [])
    (mkIo true None (Reads [])) "template/.git" "out/.git"
  = (Resolved,
     [MakeDir "out"; ConsoleGroup;
      ConsoleLog "template/.git [Skipped Copy]"; ConsoleGroupEnd]).
Proof.
  refine (proj2 (proj2 (transformCopy_blacklisted ["git"; "txt"] (fun _ => "out")
                          (fun _ => Callback []) (mkIo true None (Reads []))
                          "template/.git" "out/.git" "git" _ _)) _).
  - reflexivity.
  - left. reflexivity.
  - reflexivity.
Defined.

(** C6, as stated, fails when [makeDir] does not succeed: the source
    [template/.git] has the blacklisted extension [git], and the promise of
    [transformCopy] is not resolved; it is left unsettled, the rejection of
    the awaited [makeDir] being thrown inside the executor. *)
Lemma transformCopy_blacklisted_makeDir_fails :
  getExtname "template/.git" = Normal "git"
  /\ In "git" TRANSFORM_BLACKLIST
  /\ transformCopy ["txt"] (fun _ => "out") (fun _ => Callback [])
       (mkIo false None (Reads [])) "template/.git" "out/.git"
     = (Pending, [MakeDir "out"])
  /\ fst (transformCopy ["txt"] (fun _ => "out") (fun _ => Callback [])
            (mkIo false None (Reads [])) "template/.git" "out/.git")
     <> Resolved.
Proof.
  repeat split; try (vm_compute; reflexivity).
  - left. reflexivity.
  - vm_compute. discriminate.
Qed.

(** ** Directory trees *)

Lemma node_induction (P : node -> Prop) :
  P File ->
  (forall es, Forall (fun e => P (snd e)) es -> P (Dir es)) ->
  forall t, P t.
Proof.
  intros HF HD. fix IH 1. intros [|es].
  - exact HF.
  - apply HD. induction es as [|e es IHes]; constructor.
    + apply IH.
    + exact IHes.
Qed.

Lemma leaves_Dir (es : list (string * node)) :
  leaves (Dir es) = leaves_entries es.
Proof.
  unfold leaves_entries. simpl.
  induction es as [|e es IH]; simpl; [reflexivity|]. rewrite IH. reflexivity.
Qed.

Lemma size_Dir (es : list (string * node)) :
  size (Dir es) = S (size_entries es).
Proof.
  unfold size_entries. simpl. f_equal.
  induction es as [|e es IH]; simpl; [reflexivity|]. rewrite IH. reflexivity.
Qed.

Lemma size_positive (t : node) : 1 <= size t.
Proof. destruct t; [simpl; lia | rewrite size_Dir; lia]. Qed.

Lemma well_formed_Dir (es : list (string * node)) :
  well_formed (Dir es)
  <-> NoDup (map fst es) /\ Forall (fun e => well_formed (snd e)) es.
Proof.
  simpl. split; intros [Hnd H]; (split; [exact Hnd|]).
  - induction es as [|e es IH]; constructor.
    + apply H.
    + apply IH; [inversion Hnd; assumption | apply H].
  - induction es as [|e es IH]; [exact I|].
    inversion H; subst. split; [assumption|].
    apply IH; [inversion Hnd|]; assumption.
Qed.

Lemma find_entry_NoDup (es : list (string * node)) (e : string * node) :
  NoDup (map fst es) -> In e es -> find_entry (fst e) es = Some (snd e).
Proof.
  induction es as [|[m x] es IH]; intros Hnd Hin; [contradiction|].
  simpl in *. inversion Hnd as [|? ? Hnotin Hnd']; subst.
  destruct Hin as [<-|Hin].
  - simpl. rewrite string_eqb_refl. reflexivity.
  - destruct (string_eqb_spec m (fst e)) as [Heq|Hneq].
    + exfalso. apply Hnotin. subst m. apply in_map. exact Hin.
    + apply IH; assumption.
Qed.

Lemma find_entry_In (es : list (string * node)) (n : string) (x : node) :
  find_entry n es = Some x -> In (n, x) es.
Proof.
  induction es as [|[m y] es IH]; simpl; [discriminate|].
  destruct (string_eqb_spec m n) as [->|Hneq].
  - intros H; inversion H; subst. left; reflexivity.
  - intros H. right. apply IH. exact H.
Qed.

Lemma lookup_app (t : node) (p q : path) :
  lookup t (p ++ q)
  = match lookup t p with
    | Some x => lookup x q
    | None => None
    end.
Proof.
  revert t. induction p as [|n p IH]; intros t; simpl; [reflexivity|].
  destruct t as [|es]; [reflexivity|].
  destruct (find_entry n es); [apply IH | reflexivity].
Qed.

Lemma lookup_well_formed (t : node) (p : path) (x : node) :
  well_formed t -> lookup t p = Some x -> well_formed x.
Proof.
  revert t. induction p as [|n p IH]; intros t Hwf H; simpl in H.
  - inversion H; subst. exact Hwf.
  - destruct t as [|es]; [discriminate|].
    destruct (find_entry n es) as [y|] eqn:Hy; [|discriminate].
    apply (IH y); [|exact H].
    apply well_formed_Dir in Hwf. destruct Hwf as [_ Hall].
    rewrite Forall_forall in Hall.
    apply (Hall (n, y)). apply find_entry_In. exact Hy.
Qed.

Lemma NoDup_map_injective {A B : Type} (f : A -> B) (l : list A) :
  (forall a b, f a = f b -> a = b) -> NoDup l -> NoDup (map f l).
Proof.
  intros Hinj. induction 1 as [|a l Hnotin _ IH]; simpl; constructor.
  - intros Hin. apply in_map_iff in Hin. destruct Hin as (b & Heq & Hb).
    apply Hinj in Heq. subst b. contradiction.
  - exact IH.
Qed.

Lemma leaves_entries_NoDup (es : list (string * node)) :
  NoDup (map fst es) ->
  Forall (fun e => NoDup (leaves (snd e))) es ->
  NoDup (leaves_entries es).
Proof.
  unfold leaves_entries.
  induction es as [|[n x] es IH]; intros Hnd Hall; simpl; [constructor|].
  inversion Hnd as [|? ? Hnotin Hnd']; subst.
  inversion Hall as [|? ? Hx Hrest]; subst. simpl in *.
  apply NoDup_app.
  - apply NoDup_map_injective; [|exact Hx].
    intros a b Hab. inversion Hab. reflexivity.
  - apply IH; assumption.
  - intros q Hq Hq'. apply in_map_iff in Hq. destruct Hq as (q0 & <- & _).
    apply in_flat_map in Hq'. destruct Hq' as (e & He & Hq').
    apply in_map_iff in Hq'. destruct Hq' as (q1 & Heq & _).
    inversion Heq; subst. apply Hnotin. apply in_map. exact He.
Qed.

(** The files of a well-formed tree have pairwise different paths. *)
Lemma leaves_NoDup (t : node) : well_formed t -> NoDup (leaves t).
Proof.
  induction t as [|es IH] using node_induction; intros Hwf.
  - simpl. constructor; [intros [] | constructor].
  - rewrite leaves_Dir. apply well_formed_Dir in Hwf. destruct Hwf as [Hnd Hall].
    apply leaves_entries_NoDup; [exact Hnd|].
    rewrite Forall_forall in *. intros e He. apply IH; [exact He|].
    apply Hall. exact He.
Qed.

(** ** The asynchronous walk *)

Section WalkFacts.
Variable rd : path -> promise (list Dirent).
Variable basePath : path.
Variable root : node.
Hypothesis root_well_formed : well_formed root.
Hypothesis rd_directory :
  forall dir es, lookup root dir = Some (Dir es) ->
                 rd (path_join basePath dir) = Fulfilled (map dirent_of es).

Lemma children_denote (dir : path) (es : list (string * node)) :
  lookup root dir = Some (Dir es) ->
  Forall (denotes root) (children dir es).
Proof.
  intros H. pose proof (lookup_well_formed _ _ _ root_well_formed H) as Hwf.
  apply well_formed_Dir in Hwf. destruct Hwf as [Hnd _].
  unfold children. rewrite map_map. apply Forall_forall.
  intros d Hd. apply in_map_iff in Hd. destruct Hd as (e & <- & He).
  exists (snd e). simpl. split; [|reflexivity].
  unfold path_join. rewrite lookup_app, H. simpl.
  rewrite (find_entry_NoDup es e Hnd He). reflexivity.
Qed.

Lemma children_weight (dir : path) (es : list (string * node)) :
  lookup root dir = Some (Dir es) ->
  total_weight root (children dir es) = size_entries es.
Proof.
  intros H. pose proof (lookup_well_formed _ _ _ root_well_formed H) as Hwf.
  apply well_formed_Dir in Hwf. destruct Hwf as [Hnd _].
  unfold total_weight, size_entries, children. rewrite !map_map. f_equal.
  apply map_ext_in. intros e He. unfold weight. simpl.
  unfold path_join. rewrite lookup_app, H. simpl.
  rewrite (find_entry_NoDup es e Hnd He). reflexivity.
Qed.

Lemma children_expand (dir : path) (es : list (string * node)) :
  lookup root dir = Some (Dir es) ->
  flat_map (expand root) (children dir es) = map (app dir) (leaves_entries es).
Proof.
  intros H. pose proof (lookup_well_formed _ _ _ root_well_formed H) as Hwf.
  apply well_formed_Dir in Hwf. destruct Hwf as [Hnd _].
  unfold children, leaves_entries. rewrite map_map.
  assert (Hall : forall e, In e es ->
            expand root (mkDirent (path_join dir [fst e]) (is_dir (snd e)))
            = map (app dir) (map (cons (fst e)) (leaves (snd e)))).
  { intros e He. unfold expand. simpl. unfold path_join.
    rewrite lookup_app, H. simpl. rewrite (find_entry_NoDup es e Hnd He).
    rewrite map_map. apply map_ext. intros q. rewrite <- app_assoc. reflexivity. }
  clear Hnd H. induction es as [|e es IH]; simpl; [reflexivity|].
  rewrite map_app, <- IH.
  - f_equal. apply Hall. left; reflexivity.
  - intros e' He'. apply Hall. right; exact He'.
Qed.

Lemma weight_positive (d : Dirent) : denotes root d -> 1 <= weight root d.
Proof.
  intros (x & Hx & _). unfold weight. rewrite Hx. apply size_positive.
Qed.

Lemma expand_file (d : Dirent) :
  denotes root d -> isDirectory d = false -> expand root d = [name d].
Proof.
  intros (x & Hx & Hk) Hd. unfold expand. rewrite Hx.
  rewrite Hd in Hk. destruct x; [|discriminate]. simpl.
  rewrite app_nil_r. reflexivity.
Qed.

Lemma expand_files (l : list Dirent) :
  Forall (denotes root) l -> Forall (fun d => isDirectory d = false) l ->
  flat_map (expand root) l = map name l.
Proof.
  induction l as [|d l IH]; intros Hden Hfile; simpl; [reflexivity|].
  inversion Hden; inversion Hfile; subst.
  rewrite expand_file, IH by assumption. reflexivity.
Qed.

Lemma nth_error_middle {A : Type} (l1 l2 : list A) (a : A) :
  nth_error (l1 ++ a :: l2) (Z.to_nat (Z.of_nat (List.length l1))) = Some a.
Proof.
  rewrite Nat2Z.id. rewrite nth_error_app2 by lia.
  rewrite Nat.sub_diag. reflexivity.
Qed.

Lemma splice1_middle {A : Type} (l1 l2 : list A) (a : A) :
  splice1 (Z.to_nat (Z.of_nat (List.length l1))) (l1 ++ a :: l2) = l1 ++ l2.
Proof.
  rewrite Nat2Z.id. unfold splice1.
  induction l1 as [|b l1 IH]; simpl; [reflexivity|].
  f_equal. exact IH.
Qed.

(** The [for] loop from the index where [todo] starts: with fuel beyond the
    weight of [todo] it ends, leaves the entries before the index alone, and
    replaces [todo] by entries that are files and whose names are the paths of
    the files under [todo]. *)
Lemma for_loop_spec (fuel : nat) :
  forall done todo : list Dirent,
    Forall (denotes root) todo ->
    total_weight root todo < fuel ->
    exists result,
      for_loop rd basePath fuel (Z.of_nat (List.length done)) (done ++ todo)
      = Some (Normal (done ++ result))
      /\ Forall (denotes root) result
      /\ Forall (fun d => isDirectory d = false) result
      /\ Permutation (map name result) (flat_map (expand root) todo).
Proof.
  induction fuel as [|fuel IH]; intros done todo Hden Hw; [lia|].
  destruct todo as [|d todo].
  - exists []. simpl. rewrite app_nil_r, Z.ltb_irrefl. repeat split; constructor.
  - inversion Hden as [|? ? Hd Hden']; subst.
    cbn [for_loop].
    assert (Hlt : (Z.of_nat (List.length done)
                   <? Z.of_nat (List.length (done ++ d :: todo)))%Z = true).
    { apply Z.ltb_lt. rewrite length_app. simpl. lia. }
    rewrite Hlt, nth_error_middle.
    unfold total_weight in Hw. simpl in Hw. fold (total_weight root todo) in Hw.
    pose proof (weight_positive d Hd) as Hpos.
    destruct (isDirectory d) eqn:Hdir.
    + destruct Hd as (x & Hx & Hk). rewrite Hdir in Hk.
      destruct x as [|es]; [discriminate|].
      rewrite (rd_directory (name d) es Hx).
      fold (children (name d) es).
      rewrite splice1_middle, <- app_assoc.
      replace (Z.of_nat (List.length done) - 1 + 1)%Z
        with (Z.of_nat (List.length done)) by lia.
      destruct (IH done (todo ++ children (name d) es)) as (result & Hrun & Hr1 & Hr2 & Hperm).
      * apply Forall_app. split; [exact Hden' | apply children_denote; exact Hx].
      * unfold total_weight. rewrite map_app, list_sum_app.
        fold (total_weight root todo). fold (total_weight root (children (name d) es)).
        rewrite (children_weight _ _ Hx).
        unfold weight in Hw. rewrite Hx, size_Dir in Hw. lia.
      * exists result. repeat split; try assumption.
        rewrite flat_map_app, (children_expand _ _ Hx) in Hperm.
        simpl. unfold expand at 1. rewrite Hx, leaves_Dir.
        eapply Permutation_trans; [exact Hperm | apply Permutation_app_comm].
    + destruct (IH (done ++ [d]) todo Hden') as (result & Hrun & Hr1 & Hr2 & Hperm);
        [lia|].
      exists (d :: result).
      rewrite length_app in Hrun. simpl in Hrun.
      replace (Z.of_nat (List.length done + 1)) with (Z.of_nat (List.length done) + 1)%Z
        in Hrun by lia.
      rewrite <- app_assoc in Hrun. simpl in Hrun.
      repeat split.
      * rewrite Hrun. rewrite <- app_assoc. reflexivity.
      * constructor; assumption.
      * constructor; assumption.
      * simpl. rewrite (expand_file d Hd Hdir). simpl.
        apply perm_skip. exact Hperm.
Qed.

Lemma containsDir_false (l : list Dirent) :
  containsDir l = false <-> Forall (fun d => isDirectory d = false) l.
Proof.
  unfold containsDir. induction l as [|d l IH]; simpl.
  - split; [constructor | reflexivity].
  - rewrite orb_false_iff, IH. split.
    + intros [H1 H2]. constructor; assumption.
    + intros H. inversion H; auto.
Qed.

(** The [while] loop started on entries of the tree: two rounds and fuel
    beyond their weight are enough. *)
Lemma while_loop_spec (rounds fuel : nat) (files : list Dirent) :
  Forall (denotes root) files ->
  2 <= rounds ->
  total_weight root files < fuel ->
  exists result,
    while_loop rd basePath rounds fuel files = Some (Normal result)
    /\ Forall (denotes root) result
    /\ Forall (fun d => isDirectory d = false) result
    /\ Permutation (map name result) (flat_map (expand root) files).
Proof.
  intros Hden Hrounds Hw.
  destruct rounds as [|[|rounds]]; [lia | lia |].
  cbn [while_loop]. destruct (containsDir files) eqn:Hc.
  - destruct (for_loop_spec fuel [] files Hden Hw) as (result & Hrun & Hr1 & Hr2 & Hperm).
    simpl in Hrun. rewrite Hrun.
    apply containsDir_false in Hr2 as Hc'. rewrite Hc'.
    exists result. auto.
  - apply containsDir_false in Hc. exists files. repeat split; try assumption.
    rewrite expand_files by assumption. apply Permutation_refl.
Qed.

End WalkFacts.

(** More fuel does not change a result. *)
Lemma for_loop_more_fuel (rd : path -> promise (list Dirent)) (basePath : path)
  (fuel : nat) :
  forall (i : Z) (files : list Dirent) (r : completion (list Dirent)),
    for_loop rd basePath fuel i files = Some r ->
    for_loop rd basePath (S fuel) i files = Some r.
Proof.
  induction fuel as [|fuel IH]; intros i files r H; [discriminate|].
  cbn [for_loop] in H. cbn [for_loop].
  destruct (i <? Z.of_nat (List.length files))%Z; [|exact H].
  destruct (nth_error files (Z.to_nat i)) as [file|]; [|exact H].
  destruct (isDirectory file).
  - destruct (rd (path_join basePath (name file))) as [subFiles|e|];
      [|exact H|discriminate].
    apply IH in H. exact H.
  - apply IH in H. exact H.
Qed.

Lemma for_loop_fuel_le (rd : path -> promise (list Dirent)) (basePath : path)
  (fuel fuel' : nat) (i : Z) (files : list Dirent) (r : completion (list Dirent)) :
  fuel <= fuel' ->
  for_loop rd basePath fuel i files = Some r ->
  for_loop rd basePath fuel' i files = Some r.
Proof.
  induction 1 as [|fuel' _ IH]; intros H; [exact H|].
  apply for_loop_more_fuel. apply IH. exact H.
Qed.

Lemma while_loop_fuel_le (rd : path -> promise (list Dirent)) (basePath : path)
  (rounds : nat) :
  forall (rounds' fuel fuel' : nat) (files : list Dirent) (r : completion (list Dirent)),
    rounds <= rounds' -> fuel <= fuel' ->
    while_loop rd basePath rounds fuel files = Some r ->
    while_loop rd basePath rounds' fuel' files = Some r.
Proof.
  induction rounds as [|rounds IH]; intros rounds' fuel fuel' files r Hr Hf H;
    [discriminate|].
  destruct rounds' as [|rounds']; [lia|].
  cbn [while_loop] in H. cbn [while_loop].
  destruct (containsDir files); [|exact H].
  destruct (for_loop rd basePath fuel 0 files) as [c|] eqn:Hfor; [|discriminate].
  rewrite (for_loop_fuel_le rd basePath fuel fuel' 0 files c Hf Hfor).
  destruct c as [files'|e]; [|exact H].
  apply (IH rounds' fuel fuel'); [lia | exact Hf | exact H].
Qed.

Lemma children_root (es : list (string * node)) :
  children [] es = map dirent_of es.
Proof.
  unfold children. rewrite map_map. apply map_ext. intros e. reflexivity.
Qed.

(** The walk over a well-formed directory, for any [readdir] that lists the
    directories of the tree: from some fuel on it is fulfilled with one and
    the same list, a permutation of the paths of the files of the tree, each
    of them once and none of them a directory. *)
Lemma walk_leaves (fs : node) (rd : path -> promise (list Dirent))
  (basePath : path) (entries : list (string * node)) :
  lookup fs basePath = Some (Dir entries) ->
  well_formed (Dir entries) ->
  (forall dir es, lookup (Dir entries) dir = Some (Dir es) ->
                  rd (path_join basePath dir) = Fulfilled (map dirent_of es)) ->
  exists paths,
    (forall fuel, size (Dir entries) < fuel ->
                  walk rd basePath fuel = Some (Fulfilled paths))
    /\ Permutation paths (map (path_join basePath) (leaves (Dir entries)))
    /\ NoDup paths
    /\ (forall p, In p paths -> lookup fs p = Some File).
Proof.
  intros Hbase Hwf Hrd.
  set (root := Dir entries) in *.
  assert (Hroot : lookup root [] = Some (Dir entries)) by reflexivity.
  pose proof (children_denote root Hwf [] entries Hroot) as Hden.
  pose proof (children_weight root Hwf [] entries Hroot) as Hweight.
  pose proof (children_expand root Hwf [] entries Hroot) as Hexp.
  rewrite children_root in Hden, Hweight, Hexp.
  assert (Hsize : size root = S (size_entries entries)) by apply size_Dir.
  destruct (while_loop_spec rd basePath root Hwf Hrd
              (S (size root)) (S (size root)) (map dirent_of entries) Hden)
    as (result & Hrun & Hr1 & Hr2 & Hperm); [lia | lia |].
  exists (map (fun fileData => path_join basePath (name fileData)) result).
  assert (Hp : Permutation
                 (map (fun fileData => path_join basePath (name fileData)) result)
                 (map (path_join basePath) (leaves root))).
  { rewrite <- (map_map name (path_join basePath)).
    apply Permutation_map. rewrite Hexp in Hperm.
    unfold root. rewrite leaves_Dir.
    rewrite map_ext with (g := fun q => q) in Hperm by reflexivity.
    rewrite map_id in Hperm. exact Hperm. }
  repeat split.
  - intros fuel Hfuel. unfold walk.
    specialize (Hrd [] entries Hroot). unfold path_join in Hrd.
    rewrite app_nil_r in Hrd. rewrite Hrd.
    rewrite (while_loop_fuel_le rd basePath (S (size root)) fuel (S (size root)) fuel
               (map dirent_of entries) (Normal result)); [reflexivity | lia | lia |].
    exact Hrun.
  - exact Hp.
  - apply (Permutation_NoDup (Permutation_sym Hp)).
    apply NoDup_map_injective; [|apply leaves_NoDup; exact Hwf].
    intros a b Hab. unfold path_join in Hab. apply app_inv_head in Hab. exact Hab.
  - intros p Hin. apply in_map_iff in Hin. destruct Hin as (d & <- & Hd).
    rewrite Forall_forall in Hr1, Hr2.
    destruct (Hr1 d Hd) as (x & Hx & Hk). rewrite (Hr2 d Hd) in Hk.
    unfold path_join. rewrite lookup_app, Hbase. fold root. rewrite Hx.
    destruct x; [reflexivity | discriminate].
Qed.

(** A directory of the tree is found whatever the links are. *)
Lemma resolve_lookup_Dir (links : Links) (p : path) :
  forall (here : path) (x : node) (es : list (string * node)),
    lookup x p = Some (Dir es) -> resolve links here x p = Some (Dir es).
Proof.
  induction p as [|n p IH]; intros here x es H.
  - simpl in H. inversion H; subst. reflexivity.
  - destruct x as [|entries]; [discriminate|].
    cbn [lookup] in H. cbn [resolve].
    destruct (find_entry n entries) as [z|]; [|discriminate].
    apply IH. exact H.
Qed.

(** Without links every path leads where the tree says. *)
Lemma resolve_no_links (links : Links) (p : path) :
  (forall q, links q = None) ->
  forall (here : path) (x : node), resolve links here x p = lookup x p.
Proof.
  intros Hno. induction p as [|n p IH]; intros here x.
  - destruct x; simpl; [rewrite Hno|]; reflexivity.
  - destruct x as [|entries]; cbn [resolve lookup]; [rewrite Hno; reflexivity|].
    destruct (find_entry n entries) as [z|]; [apply IH | reflexivity].
Qed.

Lemma readdir_directory (links : Links) (fs : node) (basePath : path)
  (root : node) :
  lookup fs basePath = Some root ->
  forall dir es, lookup root dir = Some (Dir es) ->
                 readdir links fs (path_join basePath dir)
                 = Fulfilled (map dirent_of es).
Proof.
  intros Hbase dir es H. unfold readdir, fs_readdir_dirents.
  rewrite (resolve_lookup_Dir links (path_join basePath dir) [] fs es);
    [reflexivity|].
  unfold path_join. rewrite lookup_app, Hbase. exact H.
Qed.

(** C8.  For every well-formed file system in which the template's path is a
    directory, [getTemplateFilePaths] ends: for every fuel beyond the number
    of entries of the template it resolves with one and the same list.  The
    list is a permutation of the full paths of the files (the entries that
    are not directories) under the template, it lists no path twice, and
    every path in it leads to a file, none to a directory.  This holds
    whatever symbolic links there are: a link is an entry that is no
    directory. *)
Theorem getTemplateFilePaths_leaves (links : Links) (fs : node)
  (TEMPLATE_DIR : path) (templateName : string)
  (entries : list (string * node)) :
  lookup fs (path_join TEMPLATE_DIR [templateName]) = Some (Dir entries) ->
  well_formed (Dir entries) ->
  exists paths,
    (forall fuel, size (Dir entries) < fuel ->
                  getTemplateFilePaths links fs TEMPLATE_DIR fuel templateName
                  = Some (Fulfilled paths))
    /\ Permutation paths
         (map (path_join (path_join TEMPLATE_DIR [templateName])) (leaves (Dir entries)))
    /\ NoDup paths
    /\ (forall p, In p paths -> lookup fs p = Some File).
Proof.
  intros Hbase Hwf. unfold getTemplateFilePaths.
  apply (walk_leaves fs (readdir links fs) _ entries Hbase Hwf).
  apply readdir_directory. exact Hbase.
Qed.

Lemma getTemplateFilePaths_leaves_witness :
  exists paths,
    (forall fuel, size (Dir Example.site) < fuel ->
                  getTemplateFilePaths no_links Example.disk ["templates"] fuel
                    "site"
                  = Some (Fulfilled paths))
    /\ Permutation paths
         (map (path_join (path_join ["templates"] ["site"])) (leaves (Dir Example.site)))
    /\ NoDup paths
    /\ (forall p, In p paths -> lookup Example.disk p = Some File).
Proof.
  apply (getTemplateFilePaths_leaves no_links Example.disk ["templates"] "site"
           Example.site).
  - reflexivity.
  - simpl. repeat split; repeat constructor; simpl; intuition discriminate.
Defined.

(** The walk on the example template, run. *)
Lemma getTemplateFilePaths_example :
  getTemplateFilePaths no_links Example.disk ["templates"] 9 "site"
  = Some (Fulfilled
            [["templates"; "site"; "index.html"];
             ["templates"; "site"; ".gitignore"];
             ["templates"; "site"; "css"; "main.css"];
             ["templates"; "site"; "css"; "vendor"; "reset.css"]]).
Proof. vm_compute. reflexivity. Qed.

(** ** The two walkers of the later revision *)

Section SyncAsync.
Variable links : Links.
Variable fs : node.
Variable basePath : path.

(** What [fs.readdir] answers for a path, as [fs.Dirent]s. *)
Lemma fs_readdir_Dirent (dir : path) :
  exists c : completion (list Dirent),
    fs_readdir fs links true dir = completion_map (map JDirent) c
    /\ Recursive.readdir true links fs dir = settle c.
Proof.
  unfold Recursive.readdir, fs_readdir.
  destruct (resolve links [] fs dir) as [[|es]|].
  - exists (Throw (SystemError "ENOTDIR")). split; reflexivity.
  - exists (Normal (map dirent_of es)). split.
    + simpl. rewrite map_map. reflexivity.
    + simpl. f_equal. induction es as [|e es IH]; simpl; [reflexivity|].
      rewrite IH. reflexivity.
  - exists (Throw (SystemError "ENOENT")). split; reflexivity.
Qed.

Lemma containsDirSync_JDirent (l : list Dirent) :
  Recursive.containsDirSync (map JDirent l) = Normal (containsDir l).
Proof.
  unfold containsDir. induction l as [|d l IH]; simpl; [reflexivity|].
  destruct (isDirectory d); [reflexivity | exact IH].
Qed.

Lemma rename_all_JDirent (dir : path) (l : list Dirent) :
  Recursive.rename_all dir (map JDirent l)
  = Normal (map JDirent
              (map (fun subFile => mkDirent (path_join dir (name subFile))
                                            (isDirectory subFile)) l)).
Proof.
  induction l as [|d l IH]; simpl; [reflexivity|]. rewrite IH. reflexivity.
Qed.

Lemma full_paths_JDirent (l : list Dirent) :
  Recursive.full_paths basePath (map JDirent l)
  = Normal (map (fun fileData => path_join basePath (name fileData)) l).
Proof.
  induction l as [|d l IH]; simpl; [reflexivity|]. rewrite IH. reflexivity.
Qed.

Lemma splice1_map {A B : Type} (f : A -> B) (i : nat) (l : list A) :
  splice1 i (map f l) = map f (splice1 i l).
Proof.
  unfold splice1. rewrite map_app, firstn_map, skipn_map. reflexivity.
Qed.

(** On a runtime with [fs.Dirent] the synchronous [for] loop goes through the
    same states as the asynchronous one. *)
Lemma for_loop_sync_async (fuel : nat) :
  forall (i : Z) (files : list Dirent),
    Recursive.for_loop_sync true links fs basePath fuel i (map JDirent files)
    = option_map (completion_map (map JDirent))
        (for_loop (Recursive.readdir true links fs) basePath fuel i files).
Proof.
  induction fuel as [|fuel IH]; intros i files; [reflexivity|].
  cbn [Recursive.for_loop_sync for_loop]. rewrite length_map.
  destruct (i <? Z.of_nat (List.length files))%Z; [|reflexivity].
  rewrite nth_error_map.
  destruct (nth_error files (Z.to_nat i)) as [file|]; [|reflexivity].
  cbn [option_map Recursive.entry_isDirectory Recursive.entry_name].
  destruct (isDirectory file); [|apply IH].
  destruct (fs_readdir_Dirent (path_join basePath (name file))) as (c & Hc & Hr).
  rewrite Hc, Hr.
  destruct c as [subFiles|e]; [|reflexivity].
  cbn [completion_map settle]. rewrite rename_all_JDirent.
  rewrite splice1_map, <- map_app. apply IH.
Qed.

Lemma while_loop_sync_async (rounds fuel : nat) :
  forall files : list Dirent,
    Recursive.while_loop_sync true links fs basePath rounds fuel (map JDirent files)
    = option_map (completion_map (map JDirent))
        (while_loop (Recursive.readdir true links fs) basePath rounds fuel files).
Proof.
  induction rounds as [|rounds IH]; intros files; [reflexivity|].
  cbn [Recursive.while_loop_sync while_loop].
  rewrite containsDirSync_JDirent.
  destruct (containsDir files); [|reflexivity].
  rewrite for_loop_sync_async.
  destruct (for_loop (Recursive.readdir true links fs) basePath fuel 0 files)
    as [[files'|e]|]; try reflexivity.
  apply IH.
Qed.

(** On a runtime with [fs.Dirent] the asynchronous walker settles its promise
    with the completion of the synchronous one, whatever the file system, the
    path and the fuel. *)
Lemma getDirRecursive_sync_async (fuel : nat) :
  Recursive.getDirRecursive true links fs fuel basePath
  = option_map settle (Recursive.getDirRecursiveSync true links fs basePath fuel).
Proof.
  unfold Recursive.getDirRecursive, Recursive.getDirRecursiveSync, walk.
  destruct (fs_readdir_Dirent basePath) as (c & Hc & Hr).
  rewrite Hc, Hr.
  destruct c as [files|e]; [|reflexivity].
  cbn [completion_map settle]. rewrite while_loop_sync_async.
  destruct (while_loop (Recursive.readdir true links fs) basePath fuel fuel files)
    as [[files'|e]|]; try reflexivity.
  cbn [option_map completion_map]. rewrite full_paths_JDirent. reflexivity.
Qed.

End SyncAsync.

(** Without [fs.Dirent] and without links the wrapper rebuilds the listing of
    a directory of a well-formed tree from the [fs.stat] of its names. *)
Lemma stat_all_directory (links : Links) (fs : node) (dir : path)
  (es : list (string * node)) :
  (forall p, links p = None) ->
  lookup fs dir = Some (Dir es) ->
  NoDup (map fst es) ->
  Recursive.stat_all links fs dir (map (fun e => JString (fst e)) es)
  = Normal (map dirent_of es).
Proof.
  intros Hno Hdir Hnd.
  assert (Hall : forall e, In e es ->
            fs_stat_named fs links dir (fst e) = Normal (dirent_of e)).
  { intros e He. unfold fs_stat_named, path_join.
    rewrite (resolve_no_links links _ Hno), lookup_app, Hdir. simpl.
    rewrite (find_entry_NoDup es e Hnd He). reflexivity. }
  clear Hdir Hnd. induction es as [|e es IH]; [reflexivity|].
  simpl. rewrite (Hall e (or_introl eq_refl)).
  rewrite IH by (intros e' He'; apply Hall; right; exact He'). reflexivity.
Qed.

Lemma Recursive_readdir_directory (fs_Dirent : bool) (links : Links) (fs : node)
  (basePath : path) (root : node) :
  (fs_Dirent = false -> forall p, links p = None) ->
  lookup fs basePath = Some root ->
  well_formed root ->
  forall dir es, lookup root dir = Some (Dir es) ->
                 Recursive.readdir fs_Dirent links fs (path_join basePath dir)
                 = Fulfilled (map dirent_of es).
Proof.
  intros Hno Hbase Hwf dir es H.
  assert (Hdir : lookup fs (path_join basePath dir) = Some (Dir es))
    by (unfold path_join; rewrite lookup_app, Hbase; exact H).
  unfold Recursive.readdir, fs_readdir.
  rewrite (resolve_lookup_Dir links _ [] fs es Hdir).
  destruct fs_Dirent.
  - f_equal. clear. induction es as [|e es IH]; simpl; [reflexivity|].
    rewrite IH. reflexivity.
  - apply (lookup_well_formed _ _ _ Hwf) in H. apply well_formed_Dir in H.
    rewrite (stat_all_directory links fs _ es (Hno eq_refl) Hdir (proj1 H)).
    reflexivity.
Qed.

(** [getDirRecursive] lists the files of a well-formed directory: on a
    runtime with [fs.Dirent], and on one without when there are no links. *)
Lemma getDirRecursive_leaves (fs_Dirent : bool) (links : Links) (fs : node)
  (basePath : path) (entries : list (string * node)) :
  (fs_Dirent = false -> forall p, links p = None) ->
  lookup fs basePath = Some (Dir entries) ->
  well_formed (Dir entries) ->
  exists paths,
    (forall fuel, size (Dir entries) < fuel ->
                  Recursive.getDirRecursive fs_Dirent links fs fuel basePath
                  = Some (Fulfilled paths))
    /\ Permutation paths (map (path_join basePath) (leaves (Dir entries)))
    /\ NoDup paths
    /\ (forall p, In p paths -> lookup fs p = Some File).
Proof.
  intros Hno Hbase Hwf. unfold Recursive.getDirRecursive.
  apply (walk_leaves fs _ basePath entries Hbase Hwf).
  apply Recursive_readdir_directory; assumption.
Qed.

(** C9 at a failing input.  On a runtime without [fs.Dirent] (Node before
    10.10), which the asynchronous [readdir] supports through [fs.stat], the
    two walkers differ on a directory with one file: the asynchronous one
    resolves with the path of the file, the synchronous one throws when it
    calls [isDirectory] on a name. *)
Theorem getDirRecursive_sync_differs_without_Dirent :
  Recursive.getDirRecursive false no_links Example.one_file 3 []
  = Some (Fulfilled [["a.txt"]])
  /\ Recursive.getDirRecursiveSync false no_links Example.one_file [] 3
     = Some (Throw (TypeError "dirent.isDirectory is not a function")).
Proof.
  split; vm_compute; reflexivity.
Qed.

(** ** Literal substitution *)

(** *** Strings *)

Lemma string_from_0 (s : string) : string_from 0 s = s.
Proof. destruct s; reflexivity. Qed.

Lemma string_from_empty (i : nat) : string_from i EmptyString = EmptyString.
Proof. destruct i; reflexivity. Qed.

Lemma string_from_add (i j : nat) (s : string) :
  string_from (i + j) s = string_from j (string_from i s).
Proof.
  revert s. induction i as [|i IH]; intros s; simpl.
  - reflexivity.
  - destruct s; [rewrite string_from_empty; reflexivity | apply IH].
Qed.

Lemma string_from_length (i : nat) (s : string) :
  String.length (string_from i s) = String.length s - i.
Proof.
  revert s. induction i as [|i IH]; intros s; simpl.
  - lia.
  - destruct s; [reflexivity | simpl; apply IH].
Qed.

Lemma string_from_all (i : nat) (s : string) :
  String.length s <= i -> string_from i s = EmptyString.
Proof.
  intros H. pose proof (string_from_length i s) as Hl.
  destruct (string_from i s); [reflexivity | simpl in Hl; lia].
Qed.

Lemma string_from_S (i : nat) (s : string) :
  string_from (S i) s
  = match string_from i s with
    | EmptyString => EmptyString
    | String _ u => u
    end.
Proof.
  replace (S i) with (i + 1) by lia. rewrite string_from_add.
  destruct (string_from i s); reflexivity.
Qed.

Lemma string_from_app (t u : string) :
  string_from (String.length t) (append t u) = u.
Proof. induction t as [|c t IH]; simpl; [apply string_from_0 | exact IH]. Qed.

Lemma substring_from (i n : nat) (s : string) :
  substring i n s = substring 0 n (string_from i s).
Proof.
  revert s. induction i as [|i IH]; intros s.
  - rewrite string_from_0. reflexivity.
  - destruct s as [|c s]; simpl.
    + destruct n; reflexivity.
    + apply IH.
Qed.

Lemma substring_0_app (t u : string) :
  substring 0 (String.length t) (append t u) = t.
Proof. induction t as [|c t IH]; simpl; [destruct u; reflexivity | rewrite IH; reflexivity]. Qed.

Lemma substring_split (d : nat) (u : string) :
  d <= String.length u -> u = append (substring 0 d u) (string_from d u).
Proof.
  revert u. induction d as [|d IH]; intros u H.
  - rewrite string_from_0. destruct u; reflexivity.
  - destruct u as [|c u]; simpl in *; [lia|].
    rewrite <- IH by lia. reflexivity.
Qed.

Lemma substring_0_length (d : nat) (u : string) :
  d <= String.length u -> String.length (substring 0 d u) = d.
Proof.
  revert u. induction d as [|d IH]; intros u H.
  - destruct u; reflexivity.
  - destruct u as [|c u]; simpl in *; [lia|]. rewrite IH by lia. reflexivity.
Qed.

Lemma append_length (a b : string) :
  String.length (append a b) = String.length a + String.length b.
Proof. induction a as [|c a IH]; simpl; [reflexivity | rewrite IH; reflexivity]. Qed.

Lemma append_assoc (a b c : string) :
  append (append a b) c = append a (append b c).
Proof. induction a as [|x a IH]; simpl; [reflexivity | rewrite IH; reflexivity]. Qed.

Lemma append_empty_r (a : string) : append a EmptyString = a.
Proof. induction a as [|x a IH]; simpl; [reflexivity | rewrite IH; reflexivity]. Qed.

(** ** Prefixes and occurrences *)

Lemma is_prefix_app (t u : string) : is_prefix t (append t u) = true.
Proof.
  induction t as [|c t IH]; simpl; [reflexivity|].
  rewrite unit_eqb_refl. exact IH.
Qed.

Lemma is_prefix_split (t u : string) :
  is_prefix t u = true -> u = append t (string_from (String.length t) u).
Proof.
  revert u. induction t as [|c t IH]; intros u H; simpl.
  - reflexivity.
  - destruct u as [|d u]; simpl in H; [discriminate|].
    apply andb_true_iff in H. destruct H as [Hc Ht].
    apply unit_eqb_eq in Hc. subst d. simpl. rewrite <- IH by exact Ht. reflexivity.
Qed.

Lemma is_prefix_length (t u : string) :
  is_prefix t u = true -> String.length t <= String.length u.
Proof.
  intros H. apply is_prefix_split in H. rewrite H, append_length. lia.
Qed.

Lemma is_prefix_substring (t u : string) :
  is_prefix t u = true -> substring 0 (String.length t) u = t.
Proof.
  intros H. apply is_prefix_split in H. rewrite H. apply substring_0_app.
Qed.

Lemma find_first_spec (t u : string) (d : nat) :
  find_first t u = Some d ->
  is_prefix t (string_from d u) = true
  /\ d + String.length t <= String.length u
  /\ forall e, e < d -> is_prefix t (string_from e u) = false.
Proof.
  revert d. induction u as [|c u IH]; intros d H.
  - simpl in H. destruct (is_prefix t EmptyString) eqn:Hp; [|discriminate].
    inversion H; subst. repeat split.
    + exact Hp.
    + apply is_prefix_length in Hp. simpl in *. lia.
    + intros e He. lia.
  - cbn [find_first] in H. destruct (is_prefix t (String c u)) eqn:Hp.
    + inversion H; subst. repeat split.
      * exact Hp.
      * apply is_prefix_length in Hp. lia.
      * intros e He. lia.
    + destruct (find_first t u) as [d'|]; [|discriminate].
      simpl in H. inversion H; subst.
      destruct (IH d' eq_refl) as (H1 & H2 & H3). repeat split.
      * exact H1.
      * simpl. lia.
      * intros [|e] He; [exact Hp|]. simpl. apply H3. lia.
Qed.

Lemma find_first_none (t u : string) :
  find_first t u = None -> forall e, is_prefix t (string_from e u) = false.
Proof.
  induction u as [|c u IH]; intros H e.
  - rewrite string_from_empty. simpl in H.
    destruct (is_prefix t EmptyString); [discriminate | reflexivity].
  - cbn [find_first] in H. destruct (is_prefix t (String c u)) eqn:Hp; [discriminate|].
    destruct (find_first t u) eqn:Hf; [discriminate|].
    destruct e as [|e]; [exact Hp|]. simpl. apply IH. reflexivity.
Qed.

Lemma find_first_from (t u : string) :
  find_first t u
  = if is_prefix t u then Some 0
    else match u with
         | EmptyString => None
         | String _ _ => option_map S (find_first t (string_from 1 u))
         end.
Proof. destruct u as [|c [|d u]]; reflexivity. Qed.

Lemma find_first_none_intro (t u : string) :
  (forall e, e <= String.length u -> is_prefix t (string_from e u) = false) ->
  find_first t u = None.
Proof.
  induction u as [|c u IH]; intros H.
  - pose proof (H 0 (Nat.le_refl _)) as H0. simpl in *. rewrite H0. reflexivity.
  - pose proof (H 0 (Nat.le_0_l _)) as H0. cbn [find_first]. simpl in H0. rewrite H0.
    rewrite IH; [reflexivity|]. intros e He. apply (H (S e)). simpl. lia.
Qed.

Lemma string_from_app_le (g x : string) (e : nat) :
  e <= String.length g ->
  string_from e (append g x) = append (string_from e g) x.
Proof.
  revert e. induction g as [|c g IH]; intros e He.
  - simpl in He. assert (e = 0) by lia. subst. destruct x; reflexivity.
  - destruct e as [|e]; [reflexivity|]. simpl. apply IH. simpl in He. lia.
Qed.

Lemma is_prefix_app_l (t g x : string) :
  is_prefix t g = true -> is_prefix t (append g x) = true.
Proof.
  revert g. induction t as [|c t IH]; intros g H; [reflexivity|].
  destruct g as [|d g]; simpl in *; [discriminate|].
  apply andb_true_iff in H. destruct H as [Hc Ht].
  rewrite Hc. simpl. apply IH. exact Ht.
Qed.

(** A text absent from a string is absent from its beginnings and its ends. *)
Lemma absent_app_l (t g x : string) :
  find_first t (append g x) = None -> find_first t g = None.
Proof.
  induction g as [|c g IH]; intros H.
  - simpl in *. destruct (is_prefix t EmptyString) eqn:Hp; [|reflexivity].
    apply (is_prefix_app_l t EmptyString x) in Hp. simpl in Hp.
    rewrite find_first_from in H. rewrite Hp in H. discriminate.
  - cbn [append find_first] in *.
    destruct (is_prefix t (String c g)) eqn:Hp.
    + apply (is_prefix_app_l _ _ x) in Hp. simpl in Hp. rewrite Hp in H. discriminate.
    + destruct (is_prefix t (String c (append g x))); [discriminate|].
      destruct (find_first t (append g x)); [discriminate|].
      rewrite IH by reflexivity. reflexivity.
Qed.

Lemma absent_from (t u : string) (k : nat) :
  find_first t u = None -> find_first t (string_from k u) = None.
Proof.
  intros H. apply find_first_none_intro. intros e _.
  rewrite <- string_from_add. apply find_first_none. exact H.
Qed.

(** A text whose last code unit is not in [v] and that does not begin with
    [v] is no beginning of [v] followed by anything. *)
Lemma is_prefix_into (t v r : string) (c : code_unit) :
  string_mem (last_unit c t) v = false ->
  is_prefix v (String c t) = false ->
  is_prefix (String c t) (append v r) = false.
Proof.
  revert c v. induction t as [|d t IH]; intros c v Hlast Hpre.
  - destruct v as [|x v]; [discriminate|].
    cbn [last_unit string_mem] in Hlast. apply orb_false_iff in Hlast.
    destruct Hlast as [Hcx _]. cbn [append is_prefix]. rewrite Hcx. reflexivity.
  - destruct v as [|x v]; [discriminate|].
    cbn [append is_prefix] in *.
    destruct (CodeUnit.eqb c x) eqn:Hcx; [|reflexivity].
    cbn [andb]. rewrite unit_eqb_sym, Hcx in Hpre. cbn [andb] in Hpre.
    apply IH; [|exact Hpre].
    cbn [last_unit string_mem] in Hlast. apply orb_false_iff in Hlast. tauto.
Qed.

Lemma occurs_false_tail (v : string) (c : code_unit) (t : string) :
  find_first v (String c t) = None ->
  is_prefix v (String c t) = false /\ find_first v t = None.
Proof.
  cbn [find_first]. destruct (is_prefix v (String c t)); [discriminate|].
  destruct (find_first v t); [discriminate | auto].
Qed.

(** A text that begins [g] followed by [v] and more, begins [g]. *)
Lemma is_prefix_across (t g v r : string) :
  (forall c t', t = String c t' -> string_mem (last_unit c t') v = false) ->
  find_first v t = None ->
  g <> EmptyString ->
  is_prefix t (append g (append v r)) = true -> is_prefix t g = true.
Proof.
  revert g. induction t as [|c t IH]; intros g Hlast Hocc Hg Hp; [reflexivity|].
  destruct g as [|d g]; [congruence|].
  cbn [append is_prefix] in *.
  apply andb_true_iff in Hp. destruct Hp as [Hcd Hp]. rewrite Hcd. cbn [andb].
  apply occurs_false_tail in Hocc. destruct Hocc as [Hpre Hocc].
  destruct t as [|c' t']; [reflexivity|].
  destruct g as [|d' g'].
  - exfalso. cbn [append] in Hp.
    apply occurs_false_tail in Hocc. destruct Hocc as [Hpre' _].
    rewrite (is_prefix_into t' v r c') in Hp; [discriminate | | exact Hpre'].
    apply (Hlast c (String c' t') eq_refl).
  - apply IH; [| exact Hocc | discriminate | exact Hp].
    intros c0 t0 Heq. inversion Heq; subst.
    apply (Hlast c (String c0 t0) eq_refl).
Qed.

Lemma is_prefix_first (c : code_unit) (t v r : string) :
  string_mem c v = false -> v <> EmptyString ->
  is_prefix (String c t) (append v r) = false.
Proof.
  intros Hc Hv. destruct v as [|x v]; [congruence|].
  cbn [string_mem] in Hc. apply orb_false_iff in Hc. destruct Hc as [Hcx _].
  cbn [append is_prefix]. rewrite Hcx. reflexivity.
Qed.

Lemma absent_after_first (c : code_unit) (t v r : string) :
  string_mem c v = false ->
  find_first (String c t) r = None ->
  find_first (String c t) (append v r) = None.
Proof.
  intros Hc Hr. induction v as [|x v IH]; [exact Hr|].
  cbn [string_mem] in Hc. apply orb_false_iff in Hc. destruct Hc as [Hcx Hcv].
  change (append (String x v) r) with (String x (append v r)).
  cbn [find_first is_prefix]. rewrite Hcx. cbn [andb].
  rewrite (IH Hcv). reflexivity.
Qed.

Lemma keeps_out_inert (w v : string) : keeps_out w v = true -> inert w v.
Proof.
  unfold keeps_out. destruct w as [|c w']; [discriminate|].
  intros H. apply andb_true_iff in H. destruct H as [H Hocc].
  apply andb_true_iff in H. destruct H as [Hfirst Hlast].
  apply negb_true_iff in Hfirst, Hlast, Hocc.
  unfold occurs in Hocc.
  destruct (find_first v (String c w')) eqn:Hf; [discriminate|]. clear Hocc.
  intros g r Hg Hr. induction g as [|d g IH].
  - cbn [append]. apply absent_after_first; assumption.
  - apply occurs_false_tail in Hg. destruct Hg as [Hpg Hg].
    change (append (String d g) (append v r))
      with (String d (append g (append v r))).
    cbn [find_first].
    destruct (is_prefix (String c w') (String d (append g (append v r)))) eqn:Hp.
    + exfalso.
      change (String d (append g (append v r)))
        with (append (String d g) (append v r)) in Hp.
      apply is_prefix_across in Hp; [congruence | | exact Hf | discriminate].
      intros c0 t0 Heq. inversion Heq; subst. exact Hlast.
    + rewrite (IH Hg). reflexivity.
Qed.

(** ** Literal replacement *)

Lemma find_first_empty (t : string) :
  t <> EmptyString -> find_first t EmptyString = None.
Proof. destruct t; [congruence | reflexivity]. Qed.

Lemma replace_all_fuel_enough (t v : string) :
  t <> EmptyString ->
  forall f1 f2 u,
    String.length u <= f1 -> String.length u <= f2 ->
    replace_all_fuel f1 t v u = replace_all_fuel f2 t v u.
Proof.
  intros Hne. induction f1 as [|f1 IH]; intros f2 u H1 H2.
  - destruct u; [|simpl in H1; lia].
    destruct f2; cbn [replace_all_fuel]; [reflexivity|].
    rewrite find_first_empty by exact Hne. reflexivity.
  - destruct f2 as [|f2].
    + destruct u; [|simpl in H2; lia].
      cbn [replace_all_fuel]. rewrite find_first_empty by exact Hne. reflexivity.
    + cbn [replace_all_fuel]. destruct (find_first t u) as [d|] eqn:Hf; [|reflexivity].
      apply find_first_spec in Hf. destruct Hf as (_ & Hlen & _).
      assert (0 < String.length t) by (destruct t; [congruence | simpl; lia]).
      rewrite (IH f2); [reflexivity | |]; rewrite string_from_length; lia.
Qed.

Lemma replace_all_literal_none (t v u : string) :
  find_first t u = None -> replace_all_literal t v u = u.
Proof.
  intros H. unfold replace_all_literal. destruct (String.length u);
    cbn [replace_all_fuel]; [reflexivity | rewrite H; reflexivity].
Qed.

Lemma replace_all_literal_step (t v u : string) (d : nat) :
  t <> EmptyString -> find_first t u = Some d ->
  replace_all_literal t v u
  = append (substring 0 d u)
      (append v (replace_all_literal t v (string_from (d + String.length t) u))).
Proof.
  intros Hne Hf. unfold replace_all_literal.
  pose proof (find_first_spec _ _ _ Hf) as (_ & Hlen & _).
  assert (0 < String.length t) by (destruct t; [congruence | simpl; lia]).
  destruct (String.length u) as [|n] eqn:Hn; [lia|].
  cbn [replace_all_fuel]. rewrite Hf. do 2 f_equal.
  apply replace_all_fuel_enough; [exact Hne | | lia].
  rewrite string_from_length. lia.
Qed.

(** No occurrence of [t] lies inside the text before its first occurrence. *)
Lemma absent_before_first (t u : string) (d : nat) :
  t <> EmptyString -> find_first t u = Some d ->
  find_first t (substring 0 d u) = None.
Proof.
  intros Hne Hf. pose proof (find_first_spec _ _ _ Hf) as (_ & Hlen & Hmin).
  apply find_first_none_intro. intros e He.
  rewrite substring_0_length in He by lia.
  destruct (is_prefix t (string_from e (substring 0 d u))) eqn:Hp; [|reflexivity].
  exfalso.
  assert (0 < String.length t) by (destruct t; [congruence | simpl; lia]).
  pose proof (is_prefix_length _ _ Hp) as Hl.
  rewrite string_from_length, substring_0_length in Hl by lia.
  assert (He' : e < d) by lia.
  specialize (Hmin e He').
  apply (is_prefix_app_l _ _ (string_from d u)) in Hp.
  rewrite <- string_from_app_le in Hp by (rewrite substring_0_length; lia).
  rewrite <- substring_split in Hp by lia.
  congruence.
Qed.

(** After the replacement of [t] by a value that never completes [t], no
    [t] is left. *)
Lemma replace_all_literal_absent (t v : string) :
  t <> EmptyString -> inert t v ->
  forall u, find_first t (replace_all_literal t v u) = None.
Proof.
  intros Hne Hv u.
  remember (String.length u) as n eqn:Hn.
  revert u Hn. induction n as [n IH] using lt_wf_ind. intros u Hn.
  destruct (find_first t u) as [d|] eqn:Hf.
  - rewrite (replace_all_literal_step t v u d Hne Hf).
    pose proof (find_first_spec _ _ _ Hf) as (_ & Hlen & _).
    assert (0 < String.length t) by (destruct t; [congruence | simpl; lia]).
    apply Hv.
    + apply absent_before_first; assumption.
    + apply (IH (String.length (string_from (d + String.length t) u))); [|reflexivity].
      rewrite string_from_length. lia.
  - rewrite replace_all_literal_none by exact Hf. exact Hf.
Qed.

(** A text [w] absent before the replacement of [t] by a value that never
    completes [w] is absent after it. *)
Lemma replace_all_literal_keeps_absent (t v w : string) :
  t <> EmptyString -> inert w v ->
  forall u, find_first w u = None -> find_first w (replace_all_literal t v u) = None.
Proof.
  intros Hne Hv u.
  remember (String.length u) as n eqn:Hn.
  revert u Hn. induction n as [n IH] using lt_wf_ind. intros u Hn Habs.
  destruct (find_first t u) as [d|] eqn:Hf.
  - rewrite (replace_all_literal_step t v u d Hne Hf).
    pose proof (find_first_spec _ _ _ Hf) as (_ & Hlen & _).
    assert (0 < String.length t) by (destruct t; [congruence | simpl; lia]).
    apply Hv.
    + apply (absent_app_l w _ (string_from d u)).
      rewrite <- substring_split by lia. exact Habs.
    + apply (IH (String.length (string_from (d + String.length t) u))).
      * rewrite string_from_length. lia.
      * reflexivity.
      * apply absent_from. exact Habs.
  - rewrite replace_all_literal_none by exact Hf. exact Habs.
Qed.

(** ** The engine on a literal pattern *)

Section LiteralFacts.
Context `{E : RegExpEngine}.
Variable t : string.
Variable p : Pattern.
Hypothesis t_not_empty : t <> EmptyString.
Hypothesis p_literal :
  forall s i, i <= String.length s ->
    pattern_match p s i
    = if is_prefix t (string_from i s)
      then Some (mkMatchState (String.length t) [] None)
      else None.

Lemma exec_scan_literal (s : string) (n : nat) :
  forall i, i + n = String.length s ->
    exec_scan p s i n
    = match find_first t (string_from i s) with
      | Some d => Some (mkExecResult (i + d) t [] None)
      | None => None
      end.
Proof.
  induction n as [|n IH]; intros i Hi.
  - simpl. rewrite p_literal by lia. rewrite find_first_from.
    destruct (is_prefix t (string_from i s)) eqn:Hp.
    + simpl. rewrite substring_from, (is_prefix_substring _ _ Hp), Nat.add_0_r.
      reflexivity.
    + rewrite string_from_all by lia. reflexivity.
  - cbn [exec_scan]. rewrite p_literal by lia. rewrite find_first_from.
    destruct (is_prefix t (string_from i s)) eqn:Hp.
    + simpl. rewrite substring_from, (is_prefix_substring _ _ Hp), Nat.add_0_r.
      reflexivity.
    + rewrite IH by lia.
      pose proof (string_from_length i s) as Hl.
      destruct (string_from i s) as [|c u] eqn:Hu; [simpl in Hl; lia|].
      rewrite <- Hu, <- string_from_add.
      replace (i + 1) with (S i) by lia.
      destruct (find_first t (string_from (S i) s)) as [d|]; simpl; [|reflexivity].
      do 2 f_equal. lia.
Qed.

Lemma exec_literal (s : string) (lastIndex : nat) :
  lastIndex <= String.length s ->
  RegExpBuiltinExec p s lastIndex
  = match find_first t (string_from lastIndex s) with
    | Some d => Some (mkExecResult (lastIndex + d) t [] None)
    | None => None
    end.
Proof.
  intros H. unfold RegExpBuiltinExec.
  destruct (Nat.ltb_spec (String.length s) lastIndex); [lia|].
  apply exec_scan_literal. lia.
Qed.

End LiteralFacts.

Lemma capture_ref_none (index : nat) (ref : string) :
  capture_ref [] index ref = ref.
Proof.
  unfold capture_ref. cbn [List.length].
  destruct index; reflexivity.
Qed.

Lemma plain_replacement_tail (c : code_unit) (v : string) :
  plain_replacement (String c v) = true -> plain_replacement v = true.
Proof. cbn [plain_replacement]. intros H. apply andb_true_iff in H. tauto. Qed.

(** A replacement text without [$$], [$&], [$`] and [$'] stands for itself
    when the match has no groups. *)
Lemma GetSubstitution_plain (r : ExecResult) (str v : string) :
  er_captures r = [] -> er_groups r = None ->
  plain_replacement v = true -> GetSubstitution r str v = v.
Proof.
  intros Hc Hg. unfold GetSubstitution.
  remember (String.length v) as n eqn:Hn. revert v Hn.
  induction n as [n IH] using lt_wf_ind. intros v Hn Hv.
  destruct v as [|c t1]; [reflexivity|].
  pose proof (plain_replacement_tail _ _ Hv) as Ht1.
  assert (IH1 : GetSubstitution_from r str None t1 = t1)
    by (apply (IH (String.length t1)); [subst n; simpl; lia | reflexivity | exact Ht1]).
  cbn [GetSubstitution_from].
  destruct (CodeUnit.eqb c "$") eqn:Hd; cbn [negb].
  2: { rewrite IH1. reflexivity. }
  apply unit_eqb_eq in Hd. subst c.
  destruct t1 as [|d t2]; [reflexivity|].
  pose proof (plain_replacement_tail _ _ Ht1) as Ht2.
  assert (IH2 : GetSubstitution_from r str None t2 = t2)
    by (apply (IH (String.length t2)); [subst n; simpl; lia | reflexivity | exact Ht2]).
  cbn [plain_replacement] in Hv. apply andb_true_iff in Hv. destruct Hv as [Hs _].
  rewrite unit_eqb_refl in Hs. cbn [andb negb string_mem] in Hs.
  apply negb_true_iff in Hs. rewrite !orb_false_iff in Hs.
  destruct Hs as (H1 & H2 & H3 & H4 & _).
  rewrite H1, H3, H2, H4.
  destruct (is_digit d).
  - rewrite Hc, capture_ref_none. cbn [List.length].
    destruct t2 as [|d2 t3]; [rewrite IH2; reflexivity|].
    destruct (is_digit d2 && (10 * digit_value d + digit_value d2 <=? 0)).
    + rewrite capture_ref_none.
      pose proof (plain_replacement_tail _ _ Ht2) as Ht3.
      rewrite (IH (String.length t3)); [reflexivity | subst n; simpl; lia | reflexivity | exact Ht3].
    + rewrite IH2. reflexivity.
  - destruct (CodeUnit.eqb d "<") eqn:Hlt.
    + apply unit_eqb_eq in Hlt. subst d. rewrite Hg, IH2. reflexivity.
    + rewrite IH1. reflexivity.
Qed.

Section ReplaceFacts.
Context `{E : RegExpEngine}.
Variable t : string.
Variable p : Pattern.
Hypothesis t_not_empty : t <> EmptyString.
Hypothesis p_literal :
  forall s i, i <= String.length s ->
    pattern_match p s i
    = if is_prefix t (string_from i s)
      then Some (mkMatchState (String.length t) [] None)
      else None.

Lemma replace_loop_literal (s v : string) :
  plain_replacement v = true ->
  forall fuel lastIndex acc,
    lastIndex <= String.length s ->
    String.length s + 2 <= fuel + lastIndex ->
    (let '(accumulated, nextSourcePosition) :=
       fold_left (replace_step s v) (exec_all fuel p s lastIndex) (acc, lastIndex) in
     if String.length s <=? nextSourcePosition then accumulated
     else append accumulated (string_from nextSourcePosition s))
    = append acc (replace_all_literal t v (string_from lastIndex s)).
Proof.
  intros Hv. induction fuel as [|fuel IH]; intros lastIndex acc Hle Hfuel; [lia|].
  cbn [exec_all]. rewrite (exec_literal t p p_literal s lastIndex Hle).
  destruct (find_first t (string_from lastIndex s)) as [d|] eqn:Hf.
  - pose proof (find_first_spec _ _ _ Hf) as (_ & Hlen & _).
    rewrite string_from_length in Hlen.
    assert (0 < String.length t) by (destruct t; [congruence | simpl; lia]).
    cbn [fold_left]. unfold replace_step at 2. cbn [er_index er_matched].
    rewrite Nat.min_l by lia.
    destruct (Nat.leb_spec lastIndex (lastIndex + d)); [|lia].
    rewrite GetSubstitution_plain; [| reflexivity | reflexivity | exact Hv].
    unfold next_lastIndex. cbn [er_index er_matched].
    destruct (Nat.eqb_spec (String.length t) 0); [lia|].
    rewrite IH by lia.
    rewrite (replace_all_literal_step t v _ d t_not_empty Hf).
    rewrite <- string_from_add, !append_assoc.
    replace (lastIndex + d - lastIndex) with d by lia.
    rewrite (substring_from lastIndex d s).
    replace (lastIndex + d + String.length t) with (lastIndex + (d + String.length t)) by lia.
    reflexivity.
  - cbn [fold_left]. rewrite replace_all_literal_none by exact Hf.
    destruct (Nat.leb_spec (String.length s) lastIndex); [|reflexivity].
    rewrite string_from_all by lia. rewrite append_empty_r. reflexivity.
Qed.

(** A global replacement by a literal pattern and a text that stands for
    itself is the literal replacement. *)
Lemma String_replace_literal (s v : string) :
  plain_replacement v = true ->
  String_replace s (mkRegExp p true 0) (Some v) = replace_all_literal t v s.
Proof.
  intros Hv. unfold String_replace, replace_results, exec_global.
  cbn [re_global re_pattern ToString].
  apply (replace_loop_literal s v Hv (String.length s + 2) 0 EmptyString); lia.
Qed.

End ReplaceFacts.

(** ** The records of [foundMatches] and their application *)

Section RecordFacts.
Context `{E : RegExpEngine}.

Lemma Array_includes_false (a : list MatchRecord) (y : option string) :
  Array_includes a y = false.
Proof. unfold Array_includes. induction a; simpl; auto. Qed.

Lemma compile_keys_Forall2 (keys : list string) (ps : list Pattern) :
  compile_keys keys = Normal ps ->
  Forall2 (fun key p => compile key = Some p) keys ps.
Proof.
  revert ps. induction keys as [|k keys IH]; intros ps H; simpl in H.
  - inversion H; subst. constructor.
  - destruct (compile k) as [p|] eqn:Hp; [|discriminate].
    destruct (compile_keys keys) as [ps'|e]; [|discriminate].
    inversion H; subst. constructor; [exact Hp | apply IH; reflexivity].
Qed.

Lemma check_var_found (vs : Vars) (all_keys : list string) (m : option string) :
  forall (keys : list string) (ps : list Pattern),
    Forall2 (fun key p => compile key = Some p) keys ps ->
    forall (pre : list string) (found : list MatchRecord) (b : bool),
      all_keys = pre ++ keys ->
      fst (fold_left (check_var vs all_keys m)
             (combine ps (seq (List.length pre) (List.length ps))) (found, b))
      = found ++ group vs keys m.
Proof.
  induction 1 as [|k p keys ps Hk _ IH]; intros pre found b Hall.
  - simpl. unfold group. simpl. rewrite app_nil_r. reflexivity.
  - cbn [List.length seq combine fold_left]. unfold check_var at 2.
    unfold group. cbn [filter]. unfold name_matches at 1. rewrite Hk.
    assert (Hpre : all_keys = (pre ++ [k]) ++ keys)
      by (rewrite <- app_assoc; exact Hall).
    specialize (IH (pre ++ [k])). rewrite length_app in IH. simpl in IH.
    replace (List.length pre + 1) with (S (List.length pre)) in IH by lia.
    destruct (RegExp_test p (ToString m)).
    + rewrite Array_includes_false. cbn [negb].
      rewrite IH by exact Hpre. unfold group. cbn [map].
      rewrite <- app_assoc. cbn [app]. do 3 f_equal.
      rewrite Hall, app_nth2, Nat.sub_diag by lia. reflexivity.
    + apply IH. exact Hpre.
Qed.

Lemma filter_matches_found (vs : Vars) (keys : list string) (ps : list Pattern)
  (ms : list (option string)) :
  Forall2 (fun key p => compile key = Some p) keys ps ->
  forall found,
    fst (filter_matches vs keys ps ms found)
    = found ++ flat_map (group vs keys) ms.
Proof.
  intros Hps. induction ms as [|m ms IH]; intros found; simpl.
  - rewrite app_nil_r. reflexivity.
  - pose proof (check_var_found vs keys m keys ps Hps [] found true eq_refl) as Hf.
    simpl in Hf. fold (indexed ps) in Hf.
    destruct (fold_left _ (indexed ps) _) as [found' notFound]. simpl in Hf.
    specialize (IH found').
    destruct (filter_matches vs keys ps ms found') as [found'' kept].
    simpl in *. rewrite IH, Hf, app_assoc. reflexivity.
Qed.

Lemma apply_found_app (l1 l2 : list MatchRecord) (s : string) :
  apply_found (l1 ++ l2) s
  = match apply_found l1 s with
    | Normal s' => apply_found l2 s'
    | Throw e => Throw e
    end.
Proof.
  revert s. induction l1 as [|r l1 IH]; intros s; simpl; [reflexivity|].
  destruct (RegExp_new (matchStr r) true); [apply IH | reflexivity].
Qed.

(** One record of a non-empty literal token with a value that stands for
    itself. *)
Lemma apply_found_literal (t : string) (v : option string) (s : string) :
  t <> EmptyString -> literal_pattern t ->
  plain_replacement (ToString v) = true ->
  apply_found [mkMatchRecord (Some t) v] s
  = Normal (replace_all_literal t (ToString v) s).
Proof.
  intros Hne (p & Hp & Hlit) Hv. simpl. unfold RegExp_new. simpl. rewrite Hp.
  unfold String_replace, replace_results, exec_global.
  cbn [re_global re_pattern]. f_equal.
  apply (replace_loop_literal t p Hne Hlit s (ToString v) Hv
           (String.length s + 2) 0 EmptyString); lia.
Qed.

(** One record of a non-empty literal token that the text does not contain:
    nothing is replaced, whatever the value. *)
Lemma apply_found_absent (t : string) (v : option string) (s : string) :
  t <> EmptyString -> literal_pattern t ->
  find_first t s = None ->
  apply_found [mkMatchRecord (Some t) v] s = Normal s.
Proof.
  intros Hne (p & Hp & Hlit) Habs. simpl. unfold RegExp_new. simpl. rewrite Hp.
  unfold String_replace, replace_results, exec_global.
  cbn [re_global re_pattern]. f_equal.
  replace (String.length s + 2) with (S (String.length s + 1)) by lia.
  cbn [exec_all].
  rewrite (exec_literal t p Hlit s 0) by lia.
  rewrite string_from_0, Habs. cbn [fold_left].
  destruct (Nat.leb_spec (String.length s) 0) as [Hl|Hl].
  - destruct s; [reflexivity | simpl in Hl; lia].
  - rewrite string_from_0. reflexivity.
Qed.

End RecordFacts.

Section SubstitutionFacts.
Context `{E : RegExpEngine}.
Variable vs : Vars.

Lemma find_filter {A : Type} (f : A -> bool) (l : list A) :
  find f l = hd_error (filter f l).
Proof.
  induction l as [|a l IH]; simpl; [reflexivity|].
  destruct (f a); [reflexivity | exact IH].
Qed.

(** The records of a token the text does not contain change nothing. *)
Lemma group_absent (t s : string) (keys : list string) :
  t <> EmptyString -> literal_pattern t ->
  find_first t s = None ->
  apply_found (group vs keys (Some t)) s = Normal s.
Proof.
  intros Hne Hlit Habs. unfold group.
  induction (filter (fun key => name_matches key (ToString (Some t))) keys)
    as [|k l IH]; [reflexivity|].
  cbn [map].
  change (mkMatchRecord (Some t) (Object_get vs k)
          :: map (fun key => mkMatchRecord (Some t) (Object_get vs key)) l)
    with ([mkMatchRecord (Some t) (Object_get vs k)]
          ++ map (fun key => mkMatchRecord (Some t) (Object_get vs key)) l).
  rewrite apply_found_app, (apply_found_absent t _ s Hne Hlit Habs).
  exact IH.
Qed.

(** The records of one token, applied: the token is replaced by the value
    paired with it, and the further records of the token change nothing. *)
Lemma group_apply (t s : string) :
  t <> EmptyString -> literal_pattern t ->
  unresolved vs t = false ->
  plain_replacement (paired_value vs t) = true ->
  inert t (paired_value vs t) ->
  apply_found (group vs (Object_keys vs) (Some t)) s
  = Normal (replace_all_literal t (paired_value vs t) s).
Proof.
  intros Hne Hlit Hres Hplain Hinert.
  pose proof (group_absent t (replace_all_literal t (paired_value vs t) s)) as Hrest.
  pose proof (replace_all_literal_absent t _ Hne Hinert s) as Habs.
  unfold unresolved in Hres. apply negb_false_iff in Hres.
  unfold group, paired_value in *. cbn [ToString] in *.
  rewrite find_filter in *.
  destruct (filter (fun key => name_matches key t) (Object_keys vs)) as [|k1 l] eqn:Hf.
  - exfalso. apply existsb_exists in Hres. destruct Hres as (key & Hin & Hm).
    assert (Hk : In key (filter (fun key => name_matches key t) (Object_keys vs)))
      by (apply filter_In; auto).
    rewrite Hf in Hk. exact Hk.
  - cbn [hd_error map] in *.
    change (mkMatchRecord (Some t) (Object_get vs k1)
            :: map (fun key => mkMatchRecord (Some t) (Object_get vs key)) l)
      with ([mkMatchRecord (Some t) (Object_get vs k1)]
            ++ map (fun key => mkMatchRecord (Some t) (Object_get vs key)) l).
    rewrite apply_found_app, (apply_found_literal t _ s Hne Hlit Hplain).
    specialize (Hrest (k1 :: l) Hne Hlit Habs).
    assert (Hsame : filter (fun key => name_matches key t) (k1 :: l) = k1 :: l).
    { rewrite <- Hf. clear. induction (Object_keys vs) as [|k ks IH]; [reflexivity|].
      cbn [filter]. destruct (name_matches k t) eqn:Hk; [|exact IH].
      cbn [filter]. rewrite Hk, IH. reflexivity. }
    rewrite Hsame in Hrest. cbn [map] in Hrest.
    change (mkMatchRecord (Some t) (Object_get vs k1)
            :: map (fun key => mkMatchRecord (Some t) (Object_get vs key)) l)
      with ([mkMatchRecord (Some t) (Object_get vs k1)]
            ++ map (fun key => mkMatchRecord (Some t) (Object_get vs key)) l) in Hrest.
    rewrite apply_found_app in Hrest.
    rewrite (apply_found_absent t _ _ Hne Hlit Habs) in Hrest.
    exact Hrest.
Qed.

(** The records of all found tokens, applied in the order of the scan:
    each distinct token is replaced once, at its first occurrence in the
    list, the later records of it change nothing, and none of the tokens is
    left. *)
Lemma records_apply (tokens : list string) :
  forall seen s,
    (forall t, In t tokens -> t <> EmptyString /\ literal_pattern t) ->
    (forall t, In t tokens -> unresolved vs t = false) ->
    (forall l1 t l2, distinct_from seen tokens = l1 ++ t :: l2 ->
       plain_replacement (paired_value vs t) = true
       /\ forall w, In w seen \/ In w l1 \/ w = t -> inert w (paired_value vs t)) ->
    (forall w, In w seen -> find_first w s = None) ->
    apply_found (flat_map (group vs (Object_keys vs)) (map Some tokens)) s
    = Normal (substitute vs (distinct_from seen tokens) s)
    /\ forall w, In w seen \/ In w tokens ->
                 find_first w (substitute vs (distinct_from seen tokens) s) = None.
Proof.
  induction tokens as [|t tokens IH]; intros seen s Hlit Hres Hval Habs.
  - split; [reflexivity|]. intros w [Hw|[]]. apply Habs. exact Hw.
  - destruct (Hlit t (or_introl eq_refl)) as [Hne Ht].
    assert (Hlit' : forall t', In t' tokens -> t' <> EmptyString /\ literal_pattern t')
      by (intros t' Ht'; apply Hlit; right; exact Ht').
    assert (Hres' : forall t', In t' tokens -> unresolved vs t' = false)
      by (intros t' Ht'; apply Hres; right; exact Ht').
    cbn [map flat_map]. rewrite apply_found_app.
    cbn [distinct_from] in *.
    destruct (includes seen t) eqn:Hinc.
    + apply includes_In in Hinc.
      rewrite (group_absent t s _ Hne Ht (Habs t Hinc)).
      destruct (IH seen s Hlit' Hres' Hval Habs) as [Heq Hnone].
      split; [exact Heq|].
      intros w [Hw|[<-|Hw]]; apply Hnone; auto.
    + destruct (Hval [] t (distinct_from (t :: seen) tokens) eq_refl)
        as [Hplain Hinert].
      rewrite (group_apply t s Hne Ht (Hres t (or_introl eq_refl)) Hplain)
        by (apply Hinert; auto).
      unfold substitute at 1 2. cbn [fold_left].
      fold (substitute vs (distinct_from (t :: seen) tokens)
              (replace_all_literal t (paired_value vs t) s)).
      destruct (IH (t :: seen) (replace_all_literal t (paired_value vs t) s)
                  Hlit' Hres') as [Heq Hnone].
      * intros l1 t' l2 Hd.
        destruct (Hval (t :: l1) t' l2) as [Hp Hi]; [rewrite Hd; reflexivity|].
        split; [exact Hp|].
        intros w [[<-|Hw]|[Hw|Hw]]; apply Hi; simpl; auto.
      * intros w [<-|Hw].
        -- apply replace_all_literal_absent; [exact Hne|]. apply Hinert. auto.
        -- apply replace_all_literal_keeps_absent; [exact Hne | | apply Habs; exact Hw].
           apply Hinert. auto.
      * split; [exact Heq|].
        intros w [Hw|[<-|Hw]]; apply Hnone; simpl; auto.
Qed.

Lemma distinct_from_In (l seen : list string) (t : string) :
  In t (distinct_from seen l) -> In t l.
Proof.
  revert seen. induction l as [|x l IH]; intros seen H; [exact H|].
  cbn [distinct_from] in H. destruct (includes seen x).
  - right. apply (IH seen). exact H.
  - destruct H as [<-|H]; [left; reflexivity | right; apply (IH _ H)].
Qed.

End SubstitutionFacts.

(** The two texts [not_after] relates are elements of the list. *)
Lemma not_after_In (l : list string) (w t : string) :
  not_after l w t -> In w l /\ In t l.
Proof.
  intros (l1 & l2 & Hd & Hw). unfold distinct in Hd.
  assert (Ht : In t (distinct_from [] l))
    by (rewrite Hd; apply in_or_app; right; left; reflexivity).
  split; [|apply (distinct_from_In l [] t Ht)].
  destruct Hw as [Hw| ->]; [|apply (distinct_from_In l [] t Ht)].
  apply (distinct_from_In l [] w). rewrite Hd. apply in_or_app. left. exact Hw.
Qed.

Lemma substring_empty (i n : nat) : substring i n EmptyString = EmptyString.
Proof. destruct i, n; reflexivity. Qed.

Section EmptyContent.
Context `{E : RegExpEngine}.

Lemma exec_scan_empty (p : Pattern) (n i : nat) (r : ExecResult) :
  exec_scan p EmptyString i n = Some r -> er_matched r = EmptyString.
Proof.
  revert i. induction n as [|n IH]; intros i H; simpl in H.
  - destruct (pattern_match p EmptyString i); inversion H; subst.
    simpl. apply substring_empty.
  - destruct (pattern_match p EmptyString i).
    + inversion H; subst. simpl. apply substring_empty.
    + apply IH in H. exact H.
Qed.

Lemma exec_all_empty (p : Pattern) (fuel lastIndex : nat) (r : ExecResult) :
  In r (exec_all fuel p EmptyString lastIndex) -> er_matched r = EmptyString.
Proof.
  revert lastIndex. induction fuel as [|fuel IH]; intros lastIndex H; [contradiction|].
  cbn [exec_all] in H.
  destruct (RegExpBuiltinExec p EmptyString lastIndex) as [r0|] eqn:Hr; [|contradiction].
  destruct H as [<-|H].
  - unfold RegExpBuiltinExec in Hr.
    destruct (String.length EmptyString <? lastIndex); [discriminate|].
    apply exec_scan_empty in Hr. exact Hr.
  - apply IH in H. exact H.
Qed.

(** The tokens of the empty content are empty. *)
Lemma found_tokens_empty (p : Pattern) (t : string) :
  In t (found_tokens p EmptyString) -> t = EmptyString.
Proof.
  unfold found_tokens, exec_global. intros H. apply in_map_iff in H.
  destruct H as (r & <- & Hr). apply exec_all_empty in Hr. exact Hr.
Qed.

End EmptyContent.

(** C2 (amended).  For an engine that reads literal sources literally (as
    ECMA-262 has it), a pattern scanned globally (the default pattern is) and
    variables whose names are all valid patterns: when every token found in
    the text of the content matches some variable name, every found token is
    a non-empty literal source, and the value paired with each found token
    (that of the first variable whose name matches inside it) has none of
    [$$], [$&], [$`] and [$'] and never completes, with the text around it,
    that token or a token found before it, then [flush] calls back with the
    text in which, for each distinct token in the order of first occurrence,
    every literal occurrence of the token is replaced by the value paired
    with it, encoded as UTF-8; and no found token occurs in that text. *)
Theorem flush_substitutes `{E : RegExpEngine}
  (rx : RegExp) (vs : Vars) (cs : list Buffer) :
  reads_literal_sources ->
  re_global rx = true ->
  valid_names vs ->
  (forall t, In t (found_tokens (re_pattern rx) (Buffer_toString (Buffer_concat cs))) ->
             unresolved vs t = false) ->
  (forall t, In t (found_tokens (re_pattern rx) (Buffer_toString (Buffer_concat cs))) ->
             t <> EmptyString /\ literal_source t = true) ->
  (forall t, In t (found_tokens (re_pattern rx) (Buffer_toString (Buffer_concat cs))) ->
             plain_replacement (paired_value vs t) = true) ->
  (forall w t,
     not_after (found_tokens (re_pattern rx) (Buffer_toString (Buffer_concat cs))) w t ->
     inert w (paired_value vs t)) ->
  fst (run_stream (mkRegexMatch rx vs None) cs)
  = Callback
      (Buffer_from
         (substitute vs
            (distinct (found_tokens (re_pattern rx)
                         (Buffer_toString (Buffer_concat cs))))
            (Buffer_toString (Buffer_concat cs))))
  /\ forall t,
       In t (found_tokens (re_pattern rx) (Buffer_toString (Buffer_concat cs))) ->
       occurs t
         (substitute vs
            (distinct (found_tokens (re_pattern rx)
                         (Buffer_toString (Buffer_concat cs))))
            (Buffer_toString (Buffer_concat cs))) = false.
Proof.
  intros Hengine Hg Hvalid Hres Hlit Hplain Hinert.
  remember (Buffer_toString (Buffer_concat cs)) as content eqn:Hcontent.
  remember (found_tokens (re_pattern rx) content) as T eqn:HTdef.
  assert (HT : forall t, In t T -> t <> EmptyString /\ literal_pattern t).
  { intros t Ht. destruct (Hlit t Ht) as [Hne Hsrc]. split; [exact Hne|].
    apply Hengine. exact Hsrc. }
  destruct (records_apply vs T [] content HT Hres) as [Heq Hnone].
  { intros l1 t l2 Hd. split.
    - apply Hplain. apply (distinct_from_In T [] t). rewrite Hd.
      apply in_or_app. right. left. reflexivity.
    - intros w [[]|Hw]. apply Hinert. exists l1, l2. split; [exact Hd | exact Hw]. }
  { intros w []. }
  fold (distinct T) in Heq, Hnone. split.
  - unfold run_stream. rewrite fold_transform_fresh.
    destruct cs as [|c cs].
    + unfold Buffer_concat in Hcontent. simpl in Hcontent. subst content.
      destruct T as [|t T']; [reflexivity|].
      exfalso. destruct (HT t (or_introl eq_refl)) as [Hne _]. apply Hne.
      apply (found_tokens_empty (re_pattern rx)). rewrite <- HTdef. left. reflexivity.
    + unfold flush. cbn [chunks pattern vars]. rewrite <- Hcontent.
      destruct T as [|t0 T'] eqn:HTeq.
      * assert (Hm : fst (String_match content rx) = None).
        { unfold String_match. rewrite Hg. unfold found_tokens in HTdef.
          symmetry in HTdef. apply map_eq_nil in HTdef. rewrite HTdef. reflexivity. }
        destruct (String_match content rx) as [m rx']. simpl in Hm. subst m.
        reflexivity.
      * rewrite <- HTeq in *.
        assert (Hne : found_tokens (re_pattern rx) content <> [])
          by (rewrite <- HTdef, HTeq; discriminate).
        pose proof (global_match_tokens rx content Hg Hne) as Hm.
        rewrite <- HTdef in Hm.
        destruct (String_match content rx) as [m rx']. simpl in Hm. subst m.
        destruct (compile_keys_valid _ Hvalid) as (ps & Hps & _ & Hex).
        rewrite Hps.
        pose proof (filter_matches_kept vs (Object_keys vs) ps (map Some T) []) as Hk.
        pose proof (filter_matches_found vs (Object_keys vs) ps (map Some T)
                      (compile_keys_Forall2 _ _ Hps) []) as Hf.
        destruct (filter_matches _ _ _ _ _) as [found kept]. simpl in Hk, Hf.
        rewrite (filter_map_Some (fun t => negb (existsb (fun p => RegExp_test p t) ps)))
          in Hk.
        assert (Hnil : filter (fun t => negb (existsb (fun p => RegExp_test p t) ps)) T
                       = []).
        { clear - Hres Hex. induction T as [|t T IH]; [reflexivity|].
          simpl. pose proof (Hres t (or_introl eq_refl)) as Ht.
          unfold unresolved in Ht. rewrite <- Hex in Ht. rewrite Ht.
          apply IH. intros t' Ht'. apply Hres. right. exact Ht'. }
        rewrite Hnil in Hk. subst kept found. cbn [map List.length Nat.ltb Nat.leb].
        rewrite Heq. reflexivity.
  - intros t Ht. unfold occurs. rewrite Hnone; [reflexivity|]. right. exact Ht.
Qed.

(** ** The flat engine reads literal sources literally *)

Module FlatFacts.
Import Flat.

Lemma syntax_char_cases (c : code_unit) :
  is_syntax_char c = false ->
  CodeUnit.eqb c "*" = false /\ CodeUnit.eqb c "+" = false /\ CodeUnit.eqb c "?" = false
  /\ CodeUnit.eqb c "[" = false /\ CodeUnit.eqb c "." = false.
Proof.
  unfold is_syntax_char. cbn [string_mem].
  rewrite !orb_false_iff. tauto.
Qed.

Lemma parse_literal (t : string) :
  literal_source t = true ->
  forall acc q, parse_from 0 acc q t = Some (rev acc ++ literal_items t).
Proof.
  induction t as [|c t IH]; intros H acc q.
  - simpl. rewrite app_nil_r. reflexivity.
  - cbn [literal_source] in H.
    apply andb_true_iff in H. destruct H as [H Ht].
    apply andb_true_iff in H. destruct H as [Hc Hb].
    apply negb_true_iff in Hc.
    destruct (syntax_char_cases c Hc) as (H1 & H2 & H3 & H4 & H5).
    cbn [parse_from]. rewrite H1, H2, H3, H4, H5, Hc.
    unfold literal_items. cbn [list_units_of_string map].
    destruct (CodeUnit.eqb c "{").
    + destruct (braced_quantifier t); [discriminate|].
      rewrite IH by exact Ht. cbn [rev]. rewrite <- app_assoc. reflexivity.
    + rewrite IH by exact Ht. cbn [rev]. rewrite <- app_assoc. reflexivity.
Qed.

Lemma match_literal (t u : string) :
  match_items (literal_items t) u
  = if is_prefix t u then Some (String.length t) else None.
Proof.
  revert u. induction t as [|c t IH]; intros u; [reflexivity|].
  unfold literal_items. cbn [list_units_of_string map match_items once it_atom it_max it_min].
  fold (literal_items t).
  destruct u as [|d u]; [reflexivity|].
  cbn [count_prefix accepts is_prefix option_map Nat.pred].
  rewrite (unit_eqb_sym d c).
  destruct (CodeUnit.eqb c d); cbn [andb]; [|reflexivity].
  replace (count_prefix (ALit c) (Some 0) u) with 0 by (destruct u; reflexivity).
  cbn [Nat.ltb Nat.leb string_from]. rewrite IH.
  destruct (is_prefix t u); reflexivity.
Qed.

Lemma reads_literals : @reads_literal_sources engine.
Proof.
  intros t Ht. exists (literal_items t). split.
  - simpl. unfold parse. rewrite parse_literal by exact Ht. reflexivity.
  - intros s i Hi. simpl. unfold run.
    destruct (Nat.leb_spec i (String.length s)); [|lia].
    rewrite match_literal. destruct (is_prefix t (string_from i s)); reflexivity.
Qed.

End FlatFacts.

Lemma flush_substitutes_witness :
  fst (@run_stream Flat.engine
         (mkRegexMatch Example.default_regex
            [("NAME", "Acme"); ("DESCRIPTION", "Widgets")] None)
         [Buffer_from "# {{NAME}}"; Buffer_from nl;
          Buffer_from "{{DESCRIPTION}} by {{NAME}}"])
  = Callback (Buffer_from (append "# Acme" (append nl "Widgets by Acme"))).
Proof.
  refine (proj1 (@flush_substitutes Flat.engine Example.default_regex
                   [("NAME", "Acme"); ("DESCRIPTION", "Widgets")]
                   [Buffer_from "# {{NAME}}"; Buffer_from nl;
                    Buffer_from "{{DESCRIPTION}} by {{NAME}}"]
                   FlatFacts.reads_literals _ _ _ _ _ _)).
  - reflexivity.
  - repeat constructor; vm_compute; discriminate.
  - intros t Ht. vm_compute in Ht.
    destruct Ht as [<-|[<-|[<-|[]]]]; vm_compute; reflexivity.
  - intros t Ht. vm_compute in Ht.
    destruct Ht as [<-|[<-|[<-|[]]]]; (split; [discriminate | vm_compute; reflexivity]).
  - intros t Ht. vm_compute in Ht.
    destruct Ht as [<-|[<-|[<-|[]]]]; vm_compute; reflexivity.
  - intros w t H. apply not_after_In in H. destruct H as [Hw Ht].
    vm_compute in Hw, Ht.
    destruct Hw as [<-|[<-|[<-|[]]]]; destruct Ht as [<-|[<-|[<-|[]]]];
      apply keeps_out_inert; vm_compute; reflexivity.
Defined.

(** C2, as stated, fails when a value brings the token back: with the default
    pattern and the variable [NAME] set to [{{NAME}}], the one token of the
    content matches the variable name, and the output still contains the
    token. *)
Lemma flush_substitutes_value_restores_token :
  @found_tokens Flat.engine (re_pattern Example.default_regex)
    (Buffer_toString (Buffer_from "{{NAME}}")) = ["{{NAME}}"]
  /\ @unresolved Flat.engine [("NAME", "{{NAME}}")] "{{NAME}}" = false
  /\ fst (@run_stream Flat.engine
            (mkRegexMatch Example.default_regex [("NAME", "{{NAME}}")] None)
            [Buffer_from "{{NAME}}"])
     = Callback (Buffer_from "{{NAME}}")
  /\ occurs "{{NAME}}" (Buffer_toString (Buffer_from "{{NAME}}")) = true.
Proof.
  repeat split; vm_compute; reflexivity.
Qed.

(** Each condition on the values is needed.  [$&] in a value stands for the
    matched token, which stays; a value can close up, with the text around
    it, to the token it replaces; a value that holds a token found before
    brings that token back.  A value that holds a token found later is
    itself substituted.  And a token of digits, read back as a pattern, is a
    quantifier and matches nothing. *)
Lemma flush_substitutes_conditions :
  Example.materialize (mkArgs None [("A", "<$&>")]) [Buffer_from "{{A}}"]
  = Normal (Callback (Buffer_from "<{{A}}>"))
  /\ Example.materialize (mkArgs None [("NAME", "NAME")])
       [Buffer_from "{{{{NAME}}}}"]
     = Normal (Callback (Buffer_from "{{NAME}}"))
  /\ Example.materialize (mkArgs None [("A", "x"); ("B", "{{A}}")])
       [Buffer_from "{{A}} {{B}}"]
     = Normal (Callback (Buffer_from "x {{A}}"))
  /\ Example.materialize (mkArgs None [("A", "{{B}}"); ("B", "y")])
       [Buffer_from "{{A}} {{B}}"]
     = Normal (Callback (Buffer_from "y y"))
  /\ Example.materialize (mkArgs None [("123", "x")]) [Buffer_from "a {{123}} b"]
     = Normal (Callback (Buffer_from "a {{123}} b")).
Proof.
  repeat split; vm_compute; reflexivity.
Qed.

(** A value with a [$] that starts no replacement pattern, and one that
    shares letters with the token, are inserted as they are. *)
Lemma flush_substitutes_dollar :
  Example.materialize (mkArgs None [("PRICE", "US$5 to $HOME")])
    [Buffer_from "{{PRICE}}, {{PRICE}}"]
  = Normal (Callback (Buffer_from "US$5 to $HOME, US$5 to $HOME"))
  /\ plain_replacement "US$5 to $HOME" = true
  /\ keeps_out "{{PRICE}}" "US$5 to $HOME" = true.
Proof.
  repeat split; vm_compute; reflexivity.
Qed.

(** The example of the specification. *)
Lemma flush_specification_example :
  Example.materialize (mkArgs None [("NAME", "Acme"); ("DESCRIPTION", "Widgets")])
    [Buffer_from (append "# {{NAME}}" (append nl "{{DESCRIPTION}}"))]
  = Normal (Callback (Buffer_from (append "# Acme" (append nl "Widgets"))))
  /\ Example.materialize (mkArgs None [("NAME", "Acme"); ("DESCRIPTION", "Widgets")])
       [Buffer_from "{{UNKNOWN}}"]
     = Normal (Thrown (Error (unresolved_message [Some "{{UNKNOWN}}"]))).
Proof.
  split; vm_compute; reflexivity.
Qed.

(* ================================================================== *)
(** * Part III.  Further properties of the code                       *)
(* ================================================================== *)

(** ** More on the extension classifier *)

Lemma ext_pattern_at_none (s : string) :
  ext_pattern_at s = None
  <-> match s with
      | EmptyString => True
      | String c _ => Flat.is_line_terminator c = true
      end.
Proof.
  destruct s as [|c s]; simpl; [tauto|].
  destruct (is_dot c) eqn:Hc.
  - rewrite (is_dot_line_terminator c Hc).
    destruct (dot_run s); split; discriminate.
  - destruct (Flat.is_line_terminator c); split; intros H;
      try discriminate; reflexivity.
Qed.

Lemma ext_pattern_exec_none (s : string) :
  ext_pattern_exec s = None <-> only_line_terminators s = true.
Proof.
  induction s as [|c s IH].
  - simpl. tauto.
  - cbn [ext_pattern_exec only_line_terminators].
    pose proof (ext_pattern_at_none (String c s)) as Hat. cbn beta iota in Hat.
    destruct (ext_pattern_at (String c s)) as [g|].
    + split; [discriminate|]. intros H. apply andb_true_iff in H.
      destruct H as [Hc _]. apply Hat in Hc. discriminate.
    + rewrite IH. destruct Hat as [Hat _]. rewrite (Hat eq_refl). simpl. tauto.
Qed.

Lemma after_last_dot_has_dot (b r : string) :
  after_last_dot b = Some r -> only_line_terminators b = false.
Proof.
  revert r. induction b as [|c b IH]; intros r H; simpl in H; [discriminate|].
  simpl. destruct (after_last_dot b) as [r'|].
  - rewrite (IH r' eq_refl). apply andb_false_r.
  - destruct (is_dot c) eqn:Hc; [|discriminate].
    rewrite (is_dot_line_terminator c Hc). reflexivity.
Qed.

Lemma getExtname_Throw_basename (filePath : string) :
  (exists e, getExtname filePath = Throw e)
  <-> only_line_terminators (path_basename filePath) = true.
Proof.
  unfold getExtname, path_extname.
  set (b := path_basename filePath).
  assert (Hext : forall c e, extname_of_base b = String c e ->
                   ext_pattern_exec (String c e) <> None).
  { intros c e He. unfold extname_of_base in He.
    destruct b as [|c0 b']; [discriminate|].
    destruct (after_last_dot b') as [r|]; [|discriminate].
    destruct (String.eqb (String c0 b') ".."); [discriminate|].
    injection He as <- <-. simpl. destruct (dot_run r); discriminate. }
  assert (Hlt : forall c e, extname_of_base b = String c e ->
                  only_line_terminators b = false).
  { intros c e He. unfold extname_of_base in He.
    destruct b as [|c0 b']; [discriminate|].
    destruct (after_last_dot b') as [r|] eqn:Hr; [|discriminate].
    simpl. rewrite (after_last_dot_has_dot b' r Hr). apply andb_false_r. }
  destruct (extname_of_base b) as [|c e] eqn:He.
  - pose proof (ext_pattern_exec_none b) as Hn.
    destruct (ext_pattern_exec b) as [g|].
    + split; [intros [e H]; discriminate|]. intros H. apply Hn in H. discriminate.
    + split; [intros _; apply Hn; reflexivity | intros _; eexists; reflexivity].
  - specialize (Hext c e eq_refl). rewrite (Hlt c e eq_refl).
    destruct (ext_pattern_exec (String c e)); [|congruence].
    split; [intros [x H]; discriminate | discriminate].
Qed.

(** X1.  [getExtname] throws exactly for the paths whose base name has no
    character other than line terminators -- the empty path and [/] among
    them; for every other path it returns an extension. *)
Theorem getExtname_throws_iff (filePath : string) :
  (exists e, getExtname filePath = Throw e)
  <-> only_line_terminators (path_basename filePath) = true.
Proof. exact (getExtname_Throw_basename filePath). Qed.

Lemma dot_run_no_lt (s : string) : no_line_terminator (dot_run s) = true.
Proof.
  induction s as [|c s IH]; simpl; [reflexivity|].
  destruct (Flat.is_line_terminator c) eqn:Hc; [reflexivity|].
  simpl. rewrite Hc, IH. reflexivity.
Qed.

Lemma ext_pattern_at_result (s g : string) :
  ext_pattern_at s = Some g -> g <> EmptyString /\ no_line_terminator g = true.
Proof.
  destruct s as [|c s]; unfold ext_pattern_at; [discriminate|].
  cbn [dot_run].
  destruct (is_dot c) eqn:Hc.
  - destruct (dot_run s) as [|d r] eqn:Hr; intros H; inversion H; subst.
    + rewrite (is_dot_line_terminator c Hc). split; [discriminate|].
      cbn [no_line_terminator]. rewrite (is_dot_line_terminator c Hc). reflexivity.
    + split; [discriminate|]. rewrite <- Hr. apply dot_run_no_lt.
  - destruct (Flat.is_line_terminator c) eqn:Hl; intros H; [discriminate|].
    inversion H; subst. split; [discriminate|].
    cbn [no_line_terminator]. rewrite Hl. simpl. apply dot_run_no_lt.
Qed.

(** X2.  An extension [getExtname] returns is never empty and holds no line
    terminator, whatever the path. *)
Theorem getExtname_result (filePath g : string) :
  getExtname filePath = Normal g ->
  g <> EmptyString /\ no_line_terminator g = true.
Proof.
  unfold getExtname. cbv zeta.
  match goal with |- context [ext_pattern_exec ?e] => generalize e end.
  intros ext H. destruct (ext_pattern_exec ext) as [g'|] eqn:He; [|discriminate].
  inversion H; subst g'. clear H.
  induction ext as [|c s IH]; [discriminate|].
  cbn [ext_pattern_exec] in He.
  destruct (ext_pattern_at (String c s)) as [g0|] eqn:Hat.
  - inversion He; subst. apply (ext_pattern_at_result _ _ Hat).
  - apply IH. exact He.
Qed.

Lemma getExtname_result_witness :
  "gitignore" <> EmptyString /\ no_line_terminator "gitignore" = true.
Proof.
  apply (getExtname_result "site/.gitignore" "gitignore"). reflexivity.
Defined.

Lemma after_last_dot_Some (b r : string) :
  after_last_dot b = Some r ->
  after_last_dot r = None /\ exists x, b = append x (String "." r).
Proof.
  revert r. induction b as [|c b IH]; intros r H; simpl in H; [discriminate|].
  destruct (after_last_dot b) as [r'|] eqn:Hb.
  - inversion H; subst. destruct (IH r eq_refl) as [Hr [x Hx]].
    split; [exact Hr|]. exists (String c x). simpl. rewrite Hx. reflexivity.
  - destruct (is_dot c) eqn:Hc; [|discriminate]. inversion H; subst.
    split; [exact Hb|]. exists EmptyString. simpl.
    apply unit_eqb_eq in Hc. subst c. reflexivity.
Qed.

Lemma after_last_dot_app (x r : string) :
  after_last_dot r = None ->
  after_last_dot (append x (String "." r)) = Some r.
Proof.
  intros Hr. induction x as [|c x IH]; simpl.
  - rewrite Hr. reflexivity.
  - rewrite IH. reflexivity.
Qed.

(** X3.  Which files the copy pipeline skips: for a path whose base name
    holds no line terminator, [getExtname] is the blacklisted [git] exactly
    when the base name is [git] or ends in [.git]. *)
Theorem getExtname_git (filePath : string) :
  no_line_terminator (path_basename filePath) = true ->
  (getExtname filePath = Normal "git"
   <-> path_basename filePath = "git"
       \/ exists x, path_basename filePath = append x ".git").
Proof.
  intros Hlt. set (b := path_basename filePath) in *.
  destruct b as [|c0 b0] eqn:Hb.
  - split.
    + intros H. unfold getExtname, path_extname in H. fold b in H. rewrite Hb in H.
      simpl in H. discriminate.
    + intros [H|[x H]]; [discriminate|]. destruct x; discriminate.
  - rewrite <- Hb in *.
    assert (Hne : b <> EmptyString) by (rewrite Hb; discriminate).
    assert (Hspec : getExtname filePath = Normal (extension_of_base b)).
    { unfold getExtname, path_extname. fold b.
      pose proof (getExtname_of_base b Hne Hlt) as H.
      destruct (extname_of_base b); rewrite H; reflexivity. }
    rewrite Hspec. unfold extension_of_base.
    destruct (after_last_dot b) as [r|] eqn:Hr.
    + destruct (after_last_dot_Some b r Hr) as [Hnone [x Hx]]. split.
      * intros H. right. exists x.
        destruct r as [|d r']; inversion H; subst. exact Hx.
      * intros [H|[y Hy]].
        -- rewrite H in Hr. discriminate.
        -- rewrite Hy in Hr.
           rewrite (after_last_dot_app y "git" eq_refl) in Hr.
           inversion Hr; subst. reflexivity.
    + split.
      * intros H. left. inversion H. reflexivity.
      * intros [H|[y Hy]]; [rewrite H; reflexivity|].
        rewrite Hy in Hr.
        rewrite (after_last_dot_app y "git" eq_refl) in Hr. discriminate.
Qed.

Lemma getExtname_git_witness :
  getExtname "template/hooks.git" = Normal "git"
  <-> path_basename "template/hooks.git" = "git"
      \/ exists x, path_basename "template/hooks.git" = append x ".git".
Proof.
  apply (getExtname_git "template/hooks.git"). reflexivity.
Defined.

(** ** More on the copy pipeline *)

(** X20.  [transformCopy] leaves its promise unsettled, neither resolved nor
    rejected, in exactly three cases: [makeDir] fails; the base name of the
    source has no character other than line terminators (the exception of
    [getExtname] is raised inside the executor); or the source goes through
    the transform and the read stream fails or the transform throws.  In the
    first two nothing is logged, copied or written; in the third the
    destination has been logged and opened for writing. *)
Theorem transformCopy_unsettled (TEXT_EXTENSIONS : list string)
  (path_dirname : string -> string) (through : list Buffer -> FlushResult)
  (env : io) (source dest : string) :
  (fst (transformCopy TEXT_EXTENSIONS path_dirname through env source dest) = Pending
   <-> makeDir_ok env = false
       \/ only_line_terminators (path_basename source) = true
       \/ exists ext,
            getExtname source = Normal ext
            /\ includes TRANSFORM_BLACKLIST ext = false
            /\ includes TEXT_EXTENSIONS ext = true
            /\ ((exists e, streams env = ReadFails e)
                \/ exists chunks0 e,
                     streams env = Reads chunks0 /\ through chunks0 = Thrown e))
  /\ (makeDir_ok env = false
      \/ only_line_terminators (path_basename source) = true ->
      transformCopy TEXT_EXTENSIONS path_dirname through env source dest
      = (Pending, [MakeDir (path_dirname dest)]))
  /\ (fst (transformCopy TEXT_EXTENSIONS path_dirname through env source dest) = Pending ->
      makeDir_ok env = true ->
      only_line_terminators (path_basename source) = false ->
      snd (transformCopy TEXT_EXTENSIONS path_dirname through env source dest)
      = [MakeDir (path_dirname dest); ConsoleLog dest; PipeThrough source dest]).
Proof.
  pose proof (getExtname_Throw_basename source) as Hthrow.
  unfold transformCopy.
  destruct (makeDir_ok env); cbn [negb].
  2:{ split; [|split]; [|reflexivity|discriminate].
      split; [intros _; left; reflexivity | reflexivity]. }
  destruct (getExtname source) as [ext|e0].
  - assert (Hno : only_line_terminators (path_basename source) <> true).
    { intros H. apply Hthrow in H. destruct H as [e H]. discriminate. }
    split; [|split].
    + split.
      * intros Hp. right. right. exists ext.
        destruct (includes TRANSFORM_BLACKLIST ext); [discriminate|].
        destruct (includes TEXT_EXTENSIONS ext); cbn [negb fst] in *.
        2:{ destruct (copyFile_error env); discriminate. }
        repeat split.
        destruct (streams env) as [e|e|chunks0]; [eauto | discriminate |].
        right. exists chunks0.
        destruct (through chunks0) as [data|e]; [discriminate | eauto].
      * intros [H|[H|(ext' & Hext & Hb & Ht & Hs)]];
          [discriminate | contradiction |].
        inversion Hext; subst ext'. rewrite Hb, Ht. cbn [negb fst].
        destruct Hs as [[e He]|(chunks0 & e & Hr & Hthr)].
        -- rewrite He. reflexivity.
        -- rewrite Hr, Hthr. reflexivity.
    + intros [H|H]; [discriminate | contradiction].
    + intros Hp _ _.
      destruct (includes TRANSFORM_BLACKLIST ext); [discriminate|].
      destruct (includes TEXT_EXTENSIONS ext); cbn [negb fst snd] in *;
        [reflexivity|].
      destruct (copyFile_error env); discriminate.
  - assert (Hyes : only_line_terminators (path_basename source) = true)
      by (apply Hthrow; exists e0; reflexivity).
    split; [|split]; [|reflexivity|congruence].
    split; [intros _; right; left; exact Hyes | reflexivity].
Qed.

(** A text file with a token no variable resolves: the transform throws,
    nobody listens, and the promise of the copy stays unsettled, the
    destination opened for writing. *)
Lemma transformCopy_unresolved_token :
  transformCopy ["txt"] (fun _ => "out")
    (fun chunks0 =>
       fst (@run_stream Flat.engine
              (mkRegexMatch Example.default_regex [("NAME", "Acme")] None) chunks0))
    (mkIo true None (Reads [Buffer_from "{{UNKNOWN}}"]))
    "template/notes.txt" "out/notes.txt"
  = (Pending,
     [MakeDir "out"; ConsoleLog "out/notes.txt";
      PipeThrough "template/notes.txt" "out/notes.txt"]).
Proof. vm_compute. reflexivity. Qed.

(** ** More on the transform *)

Section MoreFlushFacts.
Context `{E : RegExpEngine}.

Lemma exec_scan_some (p : Pattern) (s : string) (n : nat) :
  forall i j, i <= j <= i + n -> pattern_match p s j <> None ->
              exec_scan p s i n <> None.
Proof.
  induction n as [|n IH]; intros i j Hj Hm; simpl.
  - assert (j = i) by lia. subst j.
    destruct (pattern_match p s i); [discriminate | congruence].
  - destruct (pattern_match p s i) eqn:Hi; [discriminate|].
    apply (IH (S i) j); [|exact Hm].
    destruct (Nat.eq_dec j i) as [->|Hne]; [congruence | lia].
Qed.

Lemma String_match_some (s : string) (rx : RegExp) (i : nat) :
  i <= String.length s -> pattern_match (re_pattern rx) s i <> None ->
  fst (String_match s rx) <> None.
Proof.
  intros Hi Hm.
  assert (Hex : RegExpBuiltinExec (re_pattern rx) s 0 <> None).
  { unfold RegExpBuiltinExec. simpl. apply (exec_scan_some _ _ _ 0 i); [lia | exact Hm]. }
  unfold String_match. destruct (re_global rx).
  - unfold exec_global. rewrite Nat.add_comm. cbn [plus exec_all].
    destruct (RegExpBuiltinExec (re_pattern rx) s 0); [discriminate | congruence].
  - destruct (RegExpBuiltinExec (re_pattern rx) s 0); [discriminate | congruence].
Qed.

End MoreFlushFacts.

(** X4.  A variable name that is not a valid pattern makes [flush] throw the
    [SyntaxError] of that name as soon as the content has one match of the
    pattern, whether or not the tokens could be resolved by the other
    names. *)
Theorem flush_invalid_name `{E : RegExpEngine}
  (rx : RegExp) (vs : Vars) (cs : list Buffer) (i : nat) :
  i <= String.length (Buffer_toString (Buffer_concat cs)) ->
  pattern_match (re_pattern rx) (Buffer_toString (Buffer_concat cs)) i <> None ->
  cs <> [] ->
  ~ valid_names vs ->
  exists key,
    In key (Object_keys vs) /\ compile key = None
    /\ fst (run_stream (mkRegexMatch rx vs None) cs) = Thrown (SyntaxError key).
Proof.
  intros Hi Hm Hcs Hinv.
  destruct (compile_keys_invalid _ Hinv) as (key & Hin & Hc & Hthrow).
  exists key. split; [exact Hin|]. split; [exact Hc|].
  unfold run_stream. rewrite fold_transform_fresh.
  destruct cs as [|c cs]; [congruence|].
  unfold flush. cbn [chunks pattern vars].
  pose proof (String_match_some _ rx i Hi Hm) as Hs.
  destruct (String_match (Buffer_toString (Buffer_concat (c :: cs))) rx) as [m rx'].
  simpl in Hs.
  destruct m as [ms|]; [|congruence].
  rewrite Hthrow. reflexivity.
Qed.

Lemma flush_invalid_name_witness :
  exists key,
    In key (Object_keys [("A", "x"); ("(", "y")]) /\ @compile Flat.engine key = None
    /\ fst (@run_stream Flat.engine
              (mkRegexMatch Example.default_regex [("A", "x"); ("(", "y")] None)
              [Buffer_from "{{A}}"])
       = Thrown (SyntaxError key).
Proof.
  apply (@flush_invalid_name Flat.engine Example.default_regex
           [("A", "x"); ("(", "y")] [Buffer_from "{{A}}"] 0).
  - vm_compute. lia.
  - vm_compute. discriminate.
  - discriminate.
  - intros H. inversion H as [|? ? _ H2]; subst.
    inversion H2 as [|? ? H3 _]; subst. apply H3. reflexivity.
Defined.

Lemma flush_content `{E : RegExpEngine} (rx : RegExp) (vs : Vars)
  (cs1 cs2 : list Buffer) :
  Buffer_concat cs1 = Buffer_concat cs2 ->
  fst (flush (mkRegexMatch rx vs (Some cs1)))
  = fst (flush (mkRegexMatch rx vs (Some cs2))).
Proof.
  intros H. unfold flush. cbn [chunks pattern vars]. rewrite H.
  destruct (String_match _ _) as [m rx'].
  destruct m as [ms|]; [|reflexivity].
  destruct (compile_keys _) as [ps|e]; [|reflexivity].
  destruct (filter_matches _ _ _ _ _) as [found kept].
  destruct (0 <? List.length kept); [reflexivity|].
  destruct (apply_found _ _); reflexivity.
Qed.

(** X5.  Where the stream cuts the file does not matter: two sequences of
    at least one chunk each with the same concatenation give the same result,
    so a token that is split over two chunks is treated as one that arrives
    whole. *)
Theorem run_stream_chunking `{E : RegExpEngine}
  (rx : RegExp) (vs : Vars) (cs1 cs2 : list Buffer) :
  cs1 <> [] -> cs2 <> [] ->
  Buffer_concat cs1 = Buffer_concat cs2 ->
  fst (run_stream (mkRegexMatch rx vs None) cs1)
  = fst (run_stream (mkRegexMatch rx vs None) cs2).
Proof.
  intros H1 H2 H. unfold run_stream. rewrite !fold_transform_fresh.
  destruct cs1 as [|c1 cs1]; [congruence|].
  destruct cs2 as [|c2 cs2]; [congruence|].
  apply flush_content. exact H.
Qed.

Lemma run_stream_chunking_witness :
  fst (@run_stream Flat.engine
         (mkRegexMatch Example.default_regex [("NAME", "site")] None)
         [Buffer_from "<h1>{{NA"; Buffer_from "ME}}</h1>"])
  = fst (@run_stream Flat.engine
           (mkRegexMatch Example.default_regex [("NAME", "site")] None)
           [Buffer_from "<h1>{{NAME}}</h1>"]).
Proof.
  apply (@run_stream_chunking Flat.engine Example.default_regex
           [("NAME", "site")] [Buffer_from "<h1>{{NA"; Buffer_from "ME}}</h1>"]
           [Buffer_from "<h1>{{NAME}}</h1>"]).
  - discriminate.
  - discriminate.
  - reflexivity.
Defined.

(** ** More on the walkers *)









(** With links the two runtimes part.  The directory [site] holds the file
    [a.txt], a link [docs] to a directory with the file [b.txt], and a link
    [gone] that leads nowhere.  With [fs.Dirent] a link is listed as a file.
    Without it, [fs.stat] follows the link: the walk goes down into [docs];
    and on [gone] the [fs.stat] fails, so that the promise of [readdir], and
    with it that of the walk, is never settled. *)
Lemma getDirRecursive_links :
  let site := Dir [("a.txt", File); ("docs", File)] in
  let broken := Dir [("a.txt", File); ("gone", File)] in
  let links : Links :=
    fun p =>
      match p with
      | [n] =>
          if String.eqb n "docs" then Some (Some (Dir [("b.txt", File)]))
          else if String.eqb n "gone" then Some None
          else None
      | _ => None
      end in
  Recursive.getDirRecursive true links site 5 []
  = Some (Fulfilled [["a.txt"]; ["docs"]])
  /\ Recursive.getDirRecursive false links site 5 []
     = Some (Fulfilled [["a.txt"]; ["docs"; "b.txt"]])
  /\ Recursive.getDirRecursive true links broken 5 []
     = Some (Fulfilled [["a.txt"]; ["gone"]])
  /\ Recursive.readdir false links broken [] = Unsettled
  /\ forall fuel, Recursive.getDirRecursive false links broken fuel [] = None.
Proof.
  cbv zeta. repeat split; try (vm_compute; reflexivity).
Qed.

(** X8.  On a runtime with [fs.Dirent], [getDirRecursiveSync] on a directory
    of a well-formed tree returns, for every fuel beyond the number of
    entries, one list: a permutation of the full paths of the files under the
    directory, without duplicates, none of them a directory; and this
    whatever links there are. *)
Theorem getDirRecursiveSync_leaves (links : Links) (fs : node) (basePath : path)
  (entries : list (string * node)) :
  lookup fs basePath = Some (Dir entries) ->
  well_formed (Dir entries) ->
  exists paths,
    (forall fuel, size (Dir entries) < fuel ->
                  Recursive.getDirRecursiveSync true links fs basePath fuel
                  = Some (Normal paths))
    /\ Permutation paths (map (path_join basePath) (leaves (Dir entries)))
    /\ NoDup paths
    /\ (forall p, In p paths -> lookup fs p = Some File).
Proof.
  intros Hbase Hwf.
  destruct (getDirRecursive_leaves true links fs basePath entries) as
    (paths & Hrun & Hperm & Hnd & Hfile); [discriminate | exact Hbase | exact Hwf |].
  exists paths. repeat split; try assumption.
  intros fuel Hfuel. specialize (Hrun fuel Hfuel).
  rewrite getDirRecursive_sync_async in Hrun.
  destruct (Recursive.getDirRecursiveSync true links fs basePath fuel) as [[ps|e]|];
    simpl in Hrun; try discriminate.
  inversion Hrun; subst. reflexivity.
Qed.

Lemma getDirRecursiveSync_leaves_witness :
  exists paths,
    (forall fuel, size (Dir Example.site) < fuel ->
                  Recursive.getDirRecursiveSync true no_links Example.disk
                    ["templates"; "site"] fuel
                  = Some (Normal paths))
    /\ Permutation paths
         (map (path_join ["templates"; "site"]) (leaves (Dir Example.site)))
    /\ NoDup paths
    /\ (forall p, In p paths -> lookup Example.disk p = Some File).
Proof.
  apply (getDirRecursiveSync_leaves no_links Example.disk ["templates"; "site"]
           Example.site).
  - reflexivity.
  - simpl. repeat split; repeat constructor; simpl; intuition discriminate.
Defined.

(** ** The order of the walk *)

Lemma queue_size_app (q1 q2 : list (path * node)) :
  queue_size (q1 ++ q2) = queue_size q1 + queue_size q2.
Proof. unfold queue_size. rewrite map_app, list_sum_app. reflexivity. Qed.

Lemma queue_size_below (dir : path) (es : list (string * node)) :
  queue_size (below dir es) = size_entries es.
Proof. unfold queue_size, below, size_entries. rewrite map_map. reflexivity. Qed.

Lemma queue_size_cons (p : path) (x : node) (queue : list (path * node)) :
  queue_size ((p, x) :: queue) = size x + queue_size queue.
Proof. reflexivity. Qed.

Lemma breadth_first_fuel (fuel fuel' : nat) :
  forall queue, queue_size queue < fuel -> queue_size queue < fuel' ->
                breadth_first fuel queue = breadth_first fuel' queue.
Proof.
  revert fuel'. induction fuel as [|fuel IH]; intros fuel' queue H H'; [lia|].
  destruct fuel' as [|fuel']; [lia|].
  destruct queue as [|[p [|es]] queue]; [reflexivity | |].
  - cbn [breadth_first]. f_equal.
    rewrite queue_size_cons in H, H'. simpl in H, H'. apply IH; lia.
  - cbn [breadth_first].
    rewrite queue_size_cons, size_Dir in H, H'.
    apply IH; rewrite queue_size_app, queue_size_below; lia.
Qed.

Lemma breadth_first_files (fuel : nat) :
  forall queue, List.length queue < fuel ->
                Forall (fun pn => is_dir (snd pn) = false) queue ->
                breadth_first fuel queue = map fst queue.
Proof.
  induction fuel as [|fuel IH]; intros queue Hlen Hfiles; [lia|].
  destruct queue as [|[p x] queue]; [reflexivity|].
  inversion Hfiles as [|? ? Hx Hq]; subst. simpl in Hx.
  destruct x; [|discriminate]. cbn [breadth_first map fst]. f_equal.
  apply IH; [simpl in Hlen; lia | exact Hq].
Qed.

Lemma queue_length_size (queue : list (path * node)) :
  List.length queue <= queue_size queue.
Proof.
  induction queue as [|[p x] queue IH]; [apply le_n|].
  rewrite queue_size_cons. simpl. pose proof (size_positive x). lia.
Qed.

Section WalkOrder.
Variable rd : path -> promise (list Dirent).
Variable basePath : path.
Variable root : node.
Hypothesis root_well_formed : well_formed root.
Hypothesis rd_directory :
  forall dir es, lookup root dir = Some (Dir es) ->
                 rd (path_join basePath dir) = Fulfilled (map dirent_of es).

(** The entry of a work list for a node of the tree, and the entry of a
    file. *)
Let dirent_at (pn : path * node) : Dirent := mkDirent (fst pn) (is_dir (snd pn)).
Let file_at (p : path) : Dirent := mkDirent p false.
Let at_root (pn : path * node) : Prop := lookup root (fst pn) = Some (snd pn).

Lemma below_at_root (dir : path) (es : list (string * node)) :
  lookup root dir = Some (Dir es) -> Forall at_root (below dir es).
Proof.
  intros H. pose proof (lookup_well_formed _ _ _ root_well_formed H) as Hwf.
  apply well_formed_Dir in Hwf. destruct Hwf as [Hnd _].
  apply Forall_forall. intros pn Hin. unfold below in Hin.
  apply in_map_iff in Hin. destruct Hin as (e & <- & He).
  unfold at_root. simpl. rewrite lookup_app, H. simpl.
  rewrite (find_entry_NoDup es e Hnd He). reflexivity.
Qed.

Lemma children_below (dir : path) (es : list (string * node)) :
  children dir es = map dirent_at (below dir es).
Proof.
  unfold children, below. rewrite !map_map. apply map_ext. intros e. reflexivity.
Qed.

(** The [for] loop is a breadth-first traversal: the entries from the index
    on are the queue, the entries before it the files listed so far. *)
Lemma for_loop_breadth_first (fuel : nat) :
  forall (done : list Dirent) (queue : list (path * node)),
    Forall at_root queue ->
    queue_size queue < fuel ->
    for_loop rd basePath fuel (Z.of_nat (List.length done))
      (done ++ map dirent_at queue)
    = Some (Normal (done ++ map file_at (breadth_first fuel queue))).
Proof.
  induction fuel as [|fuel IH]; intros done queue Hroot Hsize; [lia|].
  destruct queue as [|[p x] queue].
  - simpl. rewrite app_nil_r, Z.ltb_irrefl. reflexivity.
  - inversion Hroot as [|? ? Hp Hq]; subst. unfold at_root in Hp. simpl in Hp.
    cbn [for_loop map].
    assert (Hlt : (Z.of_nat (List.length done)
                   <? Z.of_nat (List.length (done ++ dirent_at (p, x)
                                               :: map dirent_at queue)))%Z = true).
    { apply Z.ltb_lt. rewrite length_app. simpl. lia. }
    rewrite Hlt, nth_error_middle.
    rewrite queue_size_cons in Hsize.
    destruct x as [|es]; cbn [dirent_at isDirectory is_dir snd fst name].
    + simpl in Hsize.
      specialize (IH (done ++ [file_at p]) queue Hq ltac:(lia)).
      rewrite length_app in IH. simpl in IH.
      replace (Z.of_nat (List.length done + 1))
        with (Z.of_nat (List.length done) + 1)%Z in IH by lia.
      rewrite <- app_assoc in IH. simpl in IH.
      unfold dirent_at, file_at in *. simpl. rewrite IH, <- app_assoc. reflexivity.
    + rewrite (rd_directory p es Hp).
      fold (children p es). rewrite children_below.
      rewrite splice1_middle, <- app_assoc, <- map_app.
      replace (Z.of_nat (List.length done) - 1 + 1)%Z
        with (Z.of_nat (List.length done)) by lia.
      cbn [breadth_first]. apply IH.
      * apply Forall_app. split; [exact Hq | apply below_at_root; exact Hp].
      * rewrite queue_size_app, queue_size_below. rewrite size_Dir in Hsize.
        lia.
Qed.

Lemma while_loop_breadth_first (rounds fuel : nat) (queue : list (path * node)) :
  Forall at_root queue ->
  2 <= rounds -> queue_size queue < fuel ->
  while_loop rd basePath rounds fuel (map dirent_at queue)
  = Some (Normal (map file_at (breadth_first fuel queue))).
Proof.
  intros Hroot Hrounds Hsize.
  destruct rounds as [|[|rounds]]; [lia | lia |].
  cbn [while_loop]. destruct (containsDir (map dirent_at queue)) eqn:Hc.
  - pose proof (for_loop_breadth_first fuel [] queue Hroot Hsize) as Hrun.
    simpl in Hrun. rewrite Hrun.
    assert (Hfiles : containsDir (map file_at (breadth_first fuel queue)) = false).
    { apply containsDir_false. apply Forall_forall. intros d Hd.
      apply in_map_iff in Hd. destruct Hd as (p & <- & _). reflexivity. }
    rewrite Hfiles. reflexivity.
  - apply containsDir_false in Hc. rewrite Forall_map in Hc.
    rewrite (breadth_first_files fuel queue).
    + rewrite map_map. f_equal. f_equal. apply map_ext_in. intros pn Hin.
      rewrite Forall_forall in Hc. unfold dirent_at, file_at.
      rewrite <- (Hc pn Hin). reflexivity.
    + pose proof (queue_length_size queue). lia.
    + exact Hc.
Qed.

End WalkOrder.

Lemma walk_breadth_first (fs : node) (rd : path -> promise (list Dirent))
  (basePath : path) (entries : list (string * node)) (fuel : nat) :
  well_formed (Dir entries) ->
  (forall dir es, lookup (Dir entries) dir = Some (Dir es) ->
                  rd (path_join basePath dir) = Fulfilled (map dirent_of es)) ->
  size (Dir entries) < fuel ->
  walk rd basePath fuel
  = Some (Fulfilled (map (path_join basePath) (files_breadth_first entries))).
Proof.
  intros Hwf Hrd Hfuel. unfold walk.
  pose proof (Hrd [] entries eq_refl) as H0. unfold path_join in H0.
  rewrite app_nil_r in H0. rewrite H0.
  assert (Hq : map dirent_of entries
               = map (fun pn => mkDirent (fst pn) (is_dir (snd pn))) (below [] entries)).
  { unfold below. rewrite map_map. apply map_ext. intros e. reflexivity. }
  rewrite Hq. rewrite size_Dir in Hfuel.
  rewrite (while_loop_breadth_first rd basePath (Dir entries) Hwf Hrd fuel fuel
             (below [] entries)).
  - rewrite map_map. unfold files_breadth_first.
    rewrite (breadth_first_fuel fuel (S (size_entries entries))).
    + reflexivity.
    + rewrite queue_size_below. lia.
    + rewrite queue_size_below. lia.
  - apply (below_at_root (Dir entries) Hwf [] entries). reflexivity.
  - lia.
  - rewrite queue_size_below. lia.
Qed.

(** X21.  The order of the listing: on a well-formed template directory
    [getTemplateFilePaths] resolves, for every fuel beyond the number of
    entries, with the files in breadth-first order -- the files of a
    directory in the order [readdir] lists them, before the files of its
    subdirectories. *)
Theorem getTemplateFilePaths_breadth_first (links : Links) (fs : node)
  (TEMPLATE_DIR : path) (templateName : string)
  (entries : list (string * node)) (fuel : nat) :
  lookup fs (path_join TEMPLATE_DIR [templateName]) = Some (Dir entries) ->
  well_formed (Dir entries) ->
  size (Dir entries) < fuel ->
  getTemplateFilePaths links fs TEMPLATE_DIR fuel templateName
  = Some (Fulfilled (map (path_join (path_join TEMPLATE_DIR [templateName]))
                       (files_breadth_first entries))).
Proof.
  intros Hbase Hwf Hfuel. unfold getTemplateFilePaths.
  apply (walk_breadth_first fs (readdir links fs) _ entries fuel Hwf);
    [|exact Hfuel].
  apply readdir_directory. exact Hbase.
Qed.

Lemma getTemplateFilePaths_breadth_first_witness :
  getTemplateFilePaths no_links Example.disk ["templates"] 9 "site"
  = Some (Fulfilled (map (path_join (path_join ["templates"] ["site"]))
                       (files_breadth_first Example.site))).
Proof.
  apply (getTemplateFilePaths_breadth_first no_links Example.disk ["templates"]
           "site" Example.site 9).
  - reflexivity.
  - simpl. repeat split; repeat constructor; simpl; intuition discriminate.
  - simpl. lia.
Defined.

(** X22.  [getDirRecursive] lists the files in the same breadth-first order:
    on a runtime with [fs.Dirent], and on one without when the file system
    has no symbolic links. *)
Theorem getDirRecursive_breadth_first (fs_Dirent : bool) (links : Links)
  (fs : node) (basePath : path) (entries : list (string * node)) (fuel : nat) :
  (fs_Dirent = false -> forall p, links p = None) ->
  lookup fs basePath = Some (Dir entries) ->
  well_formed (Dir entries) ->
  size (Dir entries) < fuel ->
  Recursive.getDirRecursive fs_Dirent links fs fuel basePath
  = Some (Fulfilled (map (path_join basePath) (files_breadth_first entries))).
Proof.
  intros Hno Hbase Hwf Hfuel. unfold Recursive.getDirRecursive.
  apply (walk_breadth_first fs _ _ entries fuel Hwf); [|exact Hfuel].
  apply Recursive_readdir_directory; assumption.
Qed.

Lemma getDirRecursive_breadth_first_witness :
  Recursive.getDirRecursive false no_links Example.disk 9 ["templates"; "site"]
  = Some (Fulfilled (map (path_join ["templates"; "site"])
                       (files_breadth_first Example.site))).
Proof.
  apply (getDirRecursive_breadth_first false no_links Example.disk
           ["templates"; "site"] Example.site 9).
  - reflexivity.
  - reflexivity.
  - simpl. repeat split; repeat constructor; simpl; intuition discriminate.
  - simpl. lia.
Defined.

(** ** Stripping a base path *)

Lemma split_sep_nonempty (s : string) : split_sep s <> [].
Proof.
  destruct s as [|c s]; simpl; [discriminate|].
  destruct (is_slash c); [discriminate|].
  destruct (split_sep s); discriminate.
Qed.

Lemma is_slash_true (c : code_unit) : is_slash c = true -> c = "/"%unit.
Proof. unfold is_slash. apply unit_eqb_eq. Qed.

Lemma concat_cons (sep h x : string) (xs : list string) :
  String.concat sep (h :: x :: xs)
  = append h (append sep (String.concat sep (x :: xs))).
Proof. reflexivity. Qed.

Lemma concat_split_sep (s : string) : String.concat path_sep (split_sep s) = s.
Proof.
  induction s as [|c s IH]; [reflexivity|].
  pose proof (split_sep_nonempty s) as Hne.
  cbn [split_sep]. destruct (is_slash c) eqn:Hc.
  - apply is_slash_true in Hc. subst c.
    destruct (split_sep s) as [|x xs]; [congruence|].
    rewrite concat_cons, IH. reflexivity.
  - destruct (split_sep s) as [|x xs]; [congruence|].
    destruct xs as [|y ys].
    + simpl in *. rewrite IH. reflexivity.
    + rewrite concat_cons in *. simpl. f_equal. exact IH.
Qed.

Lemma split_sep_app (a r : string) :
  split_sep (append a (String "/" r)) = split_sep a ++ split_sep r.
Proof.
  induction a as [|c a IH]; [reflexivity|].
  cbn [append split_sep]. rewrite IH.
  pose proof (split_sep_nonempty a) as Hne.
  destruct (is_slash c); [reflexivity|].
  destruct (split_sep a); [congruence | reflexivity].
Qed.

Lemma shift_common_app (a rest : list string) :
  shift_common a (a ++ rest) = Some rest.
Proof.
  induction a as [|x a IH]; [reflexivity|].
  simpl. rewrite string_eqb_refl. exact IH.
Qed.

Lemma shift_common_Some (a l rest : list string) :
  shift_common a l = Some rest -> l = a ++ rest.
Proof.
  revert l. induction a as [|x a IH]; intros l H; simpl in H.
  - inversion H. reflexivity.
  - destruct l as [|y l]; [discriminate|].
    destruct (String.eqb x y) eqn:Hxy; [|discriminate].
    apply string_eqb_eq in Hxy. subst y. simpl. f_equal. apply IH. exact H.
Qed.

Lemma String_concat_app (sep : string) (l1 l2 : list string) :
  l1 <> [] -> l2 <> [] ->
  String.concat sep (l1 ++ l2)
  = append (String.concat sep l1) (append sep (String.concat sep l2)).
Proof.
  intros H1 H2. induction l1 as [|x l1 IH]; [congruence|].
  destruct l1 as [|y l1].
  - simpl app. destruct l2 as [|z l2]; [congruence|]. apply concat_cons.
  - change ((x :: y :: l1) ++ l2) with (x :: y :: (l1 ++ l2)).
    rewrite !concat_cons.
    change (y :: l1 ++ l2) with ((y :: l1) ++ l2).
    rewrite IH by discriminate.
    rewrite !append_assoc. reflexivity.
Qed.

(** The outcome of the loop, read on the two texts: the arrays of [f]
    continue those of [b] exactly when [f] is [b] or [b], a separator and a
    remainder. *)
Lemma shift_common_split (b f : string) :
  match shift_common (split_sep b) (split_sep f) with
  | Some rest =>
      (f = b /\ rest = [])
      \/ (rest <> [] /\ f = append b (String "/" (String.concat path_sep rest)))
  | None => f <> b /\ forall r, f <> append b (String "/" r)
  end.
Proof.
  destruct (shift_common (split_sep b) (split_sep f)) as [rest|] eqn:H.
  - apply shift_common_Some in H. destruct rest as [|x xs].
    + left. split; [|reflexivity]. rewrite app_nil_r in H.
      rewrite <- (concat_split_sep f), <- (concat_split_sep b), H. reflexivity.
    + right. split; [discriminate|].
      rewrite <- (concat_split_sep f) at 1. rewrite H.
      rewrite String_concat_app by (try apply split_sep_nonempty; discriminate).
      rewrite concat_split_sep. reflexivity.
  - split.
    + intros ->. rewrite <- (app_nil_r (split_sep b)) in H at 2.
      rewrite shift_common_app in H. discriminate.
    + intros r ->. rewrite split_sep_app, shift_common_app in H. discriminate.
Qed.

Section RemoveBasepathFacts.
Variable path_normalize : string -> string.

(** X9.  [removeBasepath] on the normalized texts: it returns the empty text
    when the two paths are the same, the text after the base and one
    separator when the full path continues the base at a separator, and the
    normalized full path in every other case -- also when the base ends in a
    separator or ends inside a component of the full path. *)
Theorem removeBasepath_spec (basepath fullpath : string) :
  removeBasepath path_normalize basepath fullpath
  = let b := path_normalize basepath in
    let f := path_normalize fullpath in
    if String.eqb f b then EmptyString
    else if is_prefix (append b path_sep) f
         then string_from (String.length b + 1) f
         else f.
Proof.
  unfold removeBasepath. cbv zeta.
  set (b := path_normalize basepath). set (f := path_normalize fullpath).
  pose proof (shift_common_split b f) as H.
  destruct (shift_common (split_sep b) (split_sep f)) as [rest|].
  - destruct H as [[Hf Hrest]|[Hrest Hf]].
    + subst rest. rewrite Hf, string_eqb_refl. reflexivity.
    + assert (Hne : String.eqb f b = false).
      { apply string_eqb_neq. intros Heq. apply (f_equal String.length) in Heq.
        rewrite Hf, append_length in Heq. simpl in Heq. lia. }
      rewrite Hne.
      assert (Hf' : f = append (append b path_sep) (String.concat path_sep rest)).
      { rewrite Hf, append_assoc. reflexivity. }
      clear Hf Hne. clearbody f. subst f. rewrite is_prefix_app.
      replace (String.length b + 1) with (String.length (append b path_sep))
        by (rewrite append_length; reflexivity).
      rewrite string_from_app. reflexivity.
  - destruct H as [Hne Hpre].
    apply string_eqb_neq in Hne. rewrite Hne.
    destruct (is_prefix (append b path_sep) f) eqn:Hp; [|reflexivity].
    exfalso. apply is_prefix_split in Hp.
    apply (Hpre (string_from (String.length (append b path_sep)) f)).
    rewrite Hp at 1. rewrite append_assoc. reflexivity.
Qed.

End RemoveBasepathFacts.

(** ** Creating directories *)

Lemma replace_entry_same (n : string) (x : node) (es : list (string * node)) :
  find_entry n es = Some x -> replace_entry n x es = es.
Proof.
  induction es as [|[m y] es IH]; simpl; [discriminate|].
  destruct (String.eqb m n); intros H.
  - inversion H; reflexivity.
  - rewrite (IH H). reflexivity.
Qed.

Lemma find_entry_replace (a n : string) (x : node) (es : list (string * node)) :
  find_entry a (replace_entry n x es)
  = if String.eqb n a
    then match find_entry n es with Some _ => Some x | None => None end
    else find_entry a es.
Proof.
  induction es as [|[m y] es IH]; simpl.
  - destruct (String.eqb n a); reflexivity.
  - destruct (String.eqb m n) eqn:Hmn; simpl.
    + apply string_eqb_eq in Hmn. subst m.
      destruct (String.eqb n a); reflexivity.
    + rewrite IH. destruct (String.eqb n a) eqn:Hna; [|reflexivity].
      apply string_eqb_eq in Hna. subst a. rewrite Hmn. reflexivity.
Qed.

Lemma find_entry_app (a n : string) (x : node) (es : list (string * node)) :
  find_entry a (es ++ [(n, x)])
  = match find_entry a es with
    | Some y => Some y
    | None => if String.eqb n a then Some x else None
    end.
Proof.
  induction es as [|[m y] es IH]; simpl; [reflexivity|].
  destruct (String.eqb m a); [reflexivity | exact IH].
Qed.



Lemma lookup_cons (es : list (string * node)) (n : string) (p : path) :
  lookup (Dir es) (n :: p)
  = match find_entry n es with
    | Some x => lookup x p
    | None => None
    end.
Proof. reflexivity. Qed.

(** The error of a refusal is neither [EEXIST] nor [ENOENT]. *)
Lemma errno_code_other (c : errno) :
  has_code "EEXIST" (SystemError (errno_code c)) = false
  /\ has_code "ENOENT" (SystemError (errno_code c)) = false
  /\ SystemError (errno_code c) <> SystemError "ENOTDIR".
Proof. destruct c; repeat split; try reflexivity; discriminate. Qed.

Section MakeDirFacts.
Variable refuses : Refusals.

Lemma mkdir_cons (here : path) (es : list (string * node)) (n : string) (p : path) :
  mkdir refuses here (Dir es) (n :: p)
  = match find_entry n es with
    | Some x =>
        match mkdir refuses (here ++ [n]) x p with
        | Normal x' => Normal (Dir (replace_entry n x' es))
        | Throw e => Throw e
        end
    | None =>
        match p with
        | [] =>
            match refuses (here ++ [n]) with
            | Some c => Throw (SystemError (errno_code c))
            | None => Normal (Dir (es ++ [(n, Dir [])]))
            end
        | _ :: _ => Throw (SystemError "ENOENT")
        end
    end.
Proof. reflexivity. Qed.

Lemma mkdir_p_cons (here : path) (es : list (string * node)) (n : string)
  (p : path) :
  mkdir_p refuses here (Dir es) (n :: p)
  = match find_entry n es with
    | Some x =>
        let '(x', err) := mkdir_p refuses (here ++ [n]) x p in
        (Dir (replace_entry n x' es), err)
    | None =>
        match refuses (here ++ [n]) with
        | Some c => (Dir es, Some (SystemError (errno_code c)))
        | None =>
            let '(x', err) := mkdir_p refuses (here ++ [n]) (Dir []) p in
            (Dir (es ++ [(n, x')]), err)
        end
    end.
Proof. reflexivity. Qed.

(** The errors of the two primitives. *)
Lemma mkdir_errors (p : path) :
  forall (here : path) (fs : node) (e : JsError),
    mkdir refuses here fs p = Throw e ->
    (e = SystemError "EEXIST" /\ exists x, lookup fs p = Some x)
    \/ (e = SystemError "ENOTDIR" /\ file_above fs p)
    \/ (e = SystemError "ENOENT" /\ p <> [] /\ lookup fs p = None)
    \/ (exists q c, refuses q = Some c /\ e = SystemError (errno_code c)).
Proof.
  unfold file_above.
  induction p as [|n p IH]; intros here fs e H.
  - simpl in H. inversion H. left. split; [reflexivity|]. exists fs. reflexivity.
  - destruct fs as [|es].
    + simpl in H. inversion H. right. left. split; [reflexivity|].
      exists [], (n :: p). repeat split. discriminate.
    + rewrite mkdir_cons in H. rewrite lookup_cons.
      destruct (find_entry n es) as [x|] eqn:Hn.
      * destruct (mkdir refuses (here ++ [n]) x p) eqn:Hx; [discriminate|].
        inversion H; subst.
        destruct (IH _ _ _ Hx)
          as [[He Hl]|[[He (q & r & Hr & Hp & Hl)]|[(He & Hp & Hl)|Href]]].
        -- left. auto.
        -- right. left. split; [exact He|]. exists (n :: q), r. subst p.
           repeat split; [exact Hr|]. simpl. rewrite Hn. exact Hl.
        -- right. right. left. repeat split; [exact He | discriminate | exact Hl].
        -- right. right. right. exact Href.
      * destruct p as [|m p].
        -- destruct (refuses (here ++ [n])) as [c|] eqn:Hc; [|discriminate].
           inversion H. right. right. right. exists (here ++ [n]), c. auto.
        -- inversion H. right. right. left. repeat split. discriminate.
Qed.

Lemma mkdir_p_errors (p : path) :
  forall (here : path) (fs fs' : node) (e : JsError),
    mkdir_p refuses here fs p = (fs', Some e) ->
    (e = SystemError "EEXIST" /\ lookup fs p = Some File /\ fs' = fs)
    \/ (e = SystemError "ENOTDIR" /\ file_above fs p /\ fs' = fs)
    \/ (exists q c, refuses q = Some c /\ e = SystemError (errno_code c)).
Proof.
  unfold file_above.
  induction p as [|n p IH]; intros here fs fs' e H.
  - simpl in H. destruct fs; inversion H. left. auto.
  - destruct fs as [|es].
    + simpl in H. inversion H. right. left. split; [reflexivity|].
      split; [|reflexivity]. exists [], (n :: p). repeat split. discriminate.
    + rewrite mkdir_p_cons in H. rewrite lookup_cons.
      destruct (find_entry n es) as [x|] eqn:Hn.
      * destruct (mkdir_p refuses (here ++ [n]) x p) as [x' err] eqn:Hx.
        inversion H; subst.
        destruct (IH _ _ _ _ Hx)
          as [(He & Hl & Hsame)|[(He & (q & r & Hr & Hp & Hl) & Hsame)|Href]].
        -- left. subst x'. rewrite (replace_entry_same _ _ _ Hn). auto.
        -- right. left. subst x'. rewrite (replace_entry_same _ _ _ Hn).
           split; [exact He|]. split; [|reflexivity].
           exists (n :: q), r. subst p.
           repeat split; [exact Hr|]. simpl. rewrite Hn. exact Hl.
        -- right. right. exact Href.
      * destruct (refuses (here ++ [n])) as [c|] eqn:Hc.
        -- inversion H. right. right. exists (here ++ [n]), c. auto.
        -- destruct (mkdir_p refuses (here ++ [n]) (Dir []) p) as [x' err] eqn:Hx.
           inversion H; subst.
           destruct (IH _ _ _ _ Hx)
             as [(He & Hl & Hsame)|[(He & (q & r & Hr & Hp & Hl) & Hsame)|Href]].
           ++ destruct p; discriminate.
           ++ exfalso. destruct q as [|a q]; [discriminate|].
              simpl in Hl. discriminate.
           ++ right. right. exact Href.
Qed.

Lemma mkdir_Normal (p : path) :
  forall (here : path) (fs fs' : node),
    mkdir refuses here fs p = Normal fs' ->
    mkdir_p refuses here fs p = (fs', None).
Proof.
  induction p as [|n p IH]; intros here fs fs' H; [discriminate|].
  destruct fs as [|es]; [discriminate|].
  rewrite mkdir_cons in H. rewrite mkdir_p_cons.
  destruct (find_entry n es) as [x|].
  - destruct (mkdir refuses (here ++ [n]) x p) eqn:Hx; [|discriminate].
    rewrite (IH _ _ _ Hx). inversion H. reflexivity.
  - destruct p; [|discriminate].
    destruct (refuses (here ++ [n])); [discriminate|]. inversion H. reflexivity.
Qed.

(** On a path that is there nothing is made. *)
Lemma mkdir_existing (p : path) :
  forall (here : path) (fs x : node),
    lookup fs p = Some x ->
    mkdir refuses here fs p = Throw (SystemError "EEXIST")
    /\ mkdir_p refuses here fs p
       = (fs, if is_dir x then None else Some (SystemError "EEXIST")).
Proof.
  induction p as [|n p IH]; intros here fs x H.
  - simpl in H. inversion H; subst. destruct x; split; reflexivity.
  - destruct fs as [|es]; [discriminate|].
    rewrite lookup_cons in H. rewrite mkdir_cons, mkdir_p_cons.
    destruct (find_entry n es) as [y|] eqn:Hn; [|discriminate].
    destruct (IH (here ++ [n]) y x H) as [H1 H2]. rewrite H1, H2.
    rewrite (replace_entry_same _ _ _ Hn). split; reflexivity.
Qed.


Lemma mkdir_p_on_path (p : path) :
  forall (here : path) (fs fs' : node),
    mkdir_p refuses here fs p = (fs', None) ->
    forall q, on_path q p -> exists es, lookup fs' q = Some (Dir es).
Proof.
  induction p as [|n p IH]; intros here fs fs' H q [r Hr].
  - destruct q; [|discriminate]. simpl in *.
    destruct fs as [|es]; inversion H; subst. eexists; reflexivity.
  - destruct fs as [|es]; [discriminate|]. rewrite mkdir_p_cons in H.
    destruct q as [|a q].
    + destruct (find_entry n es) as [x|].
      * destruct (mkdir_p refuses (here ++ [n]) x p); inversion H.
        eexists; reflexivity.
      * destruct (refuses (here ++ [n])); [discriminate|].
        destruct (mkdir_p refuses (here ++ [n]) (Dir []) p); inversion H.
        eexists; reflexivity.
    + inversion Hr; subst a.
      assert (Hq : on_path q p) by (exists r; assumption).
      destruct (find_entry n es) as [x|] eqn:Hn.
      * destruct (mkdir_p refuses (here ++ [n]) x p) as [x' err] eqn:Hx.
        inversion H; subst.
        rewrite lookup_cons, find_entry_replace, string_eqb_refl, Hn.
        apply (IH _ _ _ Hx _ Hq).
      * destruct (refuses (here ++ [n])); [discriminate|].
        destruct (mkdir_p refuses (here ++ [n]) (Dir []) p) as [x' err] eqn:Hx.
        inversion H; subst.
        rewrite lookup_cons, find_entry_app, Hn, string_eqb_refl.
        apply (IH _ _ _ Hx _ Hq).
Qed.

Lemma mkdir_p_frame (p : path) :
  forall (here : path) (fs fs' : node),
    mkdir_p refuses here fs p = (fs', None) ->
    forall q, ~ on_path q p -> lookup fs' q = lookup fs q.
Proof.
  induction p as [|n p IH]; intros here fs fs' H q Hq.
  - simpl in H. destruct fs; inversion H; reflexivity.
  - destruct fs as [|es]; [discriminate|]. rewrite mkdir_p_cons in H.
    destruct q as [|a q]; [exfalso; apply Hq; exists (n :: p); reflexivity|].
    assert (Hq' : String.eqb n a = true -> ~ on_path q p).
    { intros Hna [r Hr]. apply string_eqb_eq in Hna. subst a.
      apply Hq. exists r. simpl. rewrite <- Hr. reflexivity. }
    destruct (find_entry n es) as [x|] eqn:Hn.
    + destruct (mkdir_p refuses (here ++ [n]) x p) as [x' err] eqn:Hx.
      inversion H; subst.
      rewrite !lookup_cons, find_entry_replace, Hn.
      destruct (String.eqb n a) eqn:Hna; [|reflexivity].
      pose proof Hna as Heq. apply string_eqb_eq in Heq. subst a. rewrite Hn.
      apply (IH _ _ _ Hx). apply Hq'. reflexivity.
    + destruct (refuses (here ++ [n])); [discriminate|].
      destruct (mkdir_p refuses (here ++ [n]) (Dir []) p) as [x' err] eqn:Hx.
      inversion H; subst.
      rewrite !lookup_cons, find_entry_app.
      destruct (find_entry a es) as [y|] eqn:Ha; [reflexivity|].
      destruct (String.eqb n a) eqn:Hna; [|reflexivity].
      rewrite (IH _ _ _ Hx _ (Hq' eq_refl)).
      destruct q as [|b q]; [|reflexivity].
      exfalso. apply (Hq' eq_refl). exists p. reflexivity.
Qed.


Lemma dirname_length (n : string) (p : path) :
  List.length (dirname (n :: p)) = List.length p.
Proof.
  unfold dirname. revert n. induction p as [|m p IH]; intros n; [reflexivity|].
  change (removelast (n :: m :: p)) with (n :: removelast (m :: p)).
  cbn [List.length]. rewrite IH. reflexivity.
Qed.

Lemma on_path_dirname (q p : path) : on_path q (dirname p) -> on_path q p.
Proof.
  intros [r Hr]. destruct p as [|n p]; [exists r; exact Hr|].
  exists (r ++ [last (n :: p) n]).
  rewrite app_assoc, <- Hr. unfold dirname.
  apply app_removelast_last. discriminate.
Qed.

Lemma not_on_path_dirname (p : path) : p <> [] -> ~ on_path p (dirname p).
Proof.
  intros Hp [r Hr]. apply (f_equal (@List.length string)) in Hr.
  rewrite length_app in Hr. destruct p as [|n p]; [congruence|].
  rewrite dirname_length in Hr. simpl in Hr. lia.
Qed.

(** The directories above a directory that is there. *)
Lemma lookup_on_path (p : path) :
  forall (fs : node) (es : list (string * node)) (q : path),
    lookup fs p = Some (Dir es) -> on_path q p ->
    exists es', lookup fs q = Some (Dir es').
Proof.
  induction p as [|n p IH]; intros fs es q H [r Hr].
  - destruct q; [|discriminate]. eauto.
  - destruct fs as [|es0]; [discriminate|].
    destruct q as [|a q]; [eexists; reflexivity|].
    inversion Hr; subst a. rewrite lookup_cons in H |- *.
    destruct (find_entry n es0) as [y|]; [|discriminate].
    apply (IH y es q H). exists r. assumption.
Qed.


(** What a call that resolved has done. *)
Lemma makeDir_resolved_tree (fs_recursive : bool) (fuel : nat) :
  forall (fs fs' : node) (p : path),
    makeDir refuses fs_recursive fuel fs p = Some (Resolved, fs') ->
    (lookup fs p = Some File /\ fs' = fs)
    \/ ((forall q, on_path q p -> exists es, lookup fs' q = Some (Dir es))
        /\ (forall q, ~ on_path q p -> lookup fs' q = lookup fs q)).
Proof.
  induction fuel as [|fuel IH]; intros fs fs' p H; [discriminate|].
  cbn [makeDir] in H.
  destruct (fs_mkdir refuses fs_recursive fs p) as [fs0 [e|]] eqn:Hm.
  2:{ inversion H; subst fs0. right.
      assert (Hp : mkdir_p refuses [] fs p = (fs', None)).
      { unfold fs_mkdir in Hm. destruct fs_recursive; [exact Hm|].
        destruct (mkdir refuses [] fs p) as [fs1|e] eqn:Hk; inversion Hm; subst.
        apply mkdir_Normal. exact Hk. }
      split; [apply (mkdir_p_on_path _ _ _ _ Hp) | apply (mkdir_p_frame _ _ _ _ Hp)]. }
  assert (Hcases :
            (e = SystemError "EEXIST" /\ fs0 = fs /\ exists x, lookup fs p = Some x)
            \/ (e = SystemError "ENOTDIR")
            \/ (e = SystemError "ENOENT" /\ fs0 = fs /\ p <> [] /\ lookup fs p = None)
            \/ (exists c, e = SystemError (errno_code c))).
  { unfold fs_mkdir in Hm. destruct fs_recursive.
    - destruct (mkdir_p_errors _ _ _ _ _ Hm)
        as [(He & Hl & Hs)|[(He & _)|(q & c & _ & He)]].
      + left. repeat split; [exact He | exact Hs | eauto].
      + right. left. exact He.
      + right. right. right. eauto.
    - destruct (mkdir refuses [] fs p) as [fs1|e1] eqn:Hk; inversion Hm; subst.
      destruct (mkdir_errors _ _ _ _ Hk)
        as [(He & Hl)|[(He & _)|[(He & Hp & Hl)|(q & c & _ & He)]]].
      + left. auto.
      + right. left. exact He.
      + right. right. left. auto.
      + right. right. right. eauto. }
  destruct Hcases as [(He & Hs & x & Hl)|[He|[(He & Hs & Hp & Hl)|[c He]]]];
    subst e.
  - cbn in H. inversion H; subst fs0 fs'.
    destruct x as [|es]; [left; auto|]. right. split; [|reflexivity].
    intros q Hq. apply (lookup_on_path p fs es q Hl Hq).
  - cbn in H. discriminate.
  - subst fs0. cbn [has_code] in H.
    change (String.eqb "ENOENT" "EEXIST") with false in H.
    change (String.eqb "ENOENT" "ENOENT") with true in H. cbv iota in H.
    destruct (makeDir refuses fs_recursive fuel fs (dirname p))
      as [[[| |] fs1]|] eqn:H1; try discriminate.
    destruct (makeDir refuses fs_recursive fuel fs1 p)
      as [[[| |] fs2]|] eqn:H2; try discriminate.
    inversion H; subst fs2.
    assert (Hframe1 : forall q, ~ on_path q p -> lookup fs1 q = lookup fs q).
    { destruct (IH _ _ _ H1) as [[_ ->]|[_ Hf]]; [reflexivity|].
      intros q Hq. apply Hf. intros Hd. apply Hq. apply on_path_dirname. exact Hd. }
    assert (Hl1 : lookup fs1 p = None).
    { destruct (IH _ _ _ H1) as [[_ ->]|[_ Hf]]; [exact Hl|].
      rewrite Hf; [exact Hl | apply not_on_path_dirname; exact Hp]. }
    destruct (IH _ _ _ H2) as [[Hfile _]|[Hdirs Hf]]; [congruence|].
    right. split; [exact Hdirs|].
    intros q Hq. rewrite (Hf q Hq). apply Hframe1. exact Hq.
  - destruct (errno_code_other c) as (E1 & E2 & _). cbn [makeDir] in H.
    rewrite E1, E2 in H. discriminate.
Qed.

(** After a call that resolved, a second one finds the path there. *)
Lemma makeDir_again (fs_recursive : bool) (fuel : nat) (fs x : node) (p : path) :
  0 < fuel -> lookup fs p = Some x ->
  makeDir refuses fs_recursive fuel fs p = Some (Resolved, fs).
Proof.
  intros Hfuel Hl. destruct fuel as [|fuel]; [lia|].
  destruct (mkdir_existing p [] fs x Hl) as [H1 H2].
  cbn [makeDir]. unfold fs_mkdir. destruct fs_recursive.
  - rewrite H2. destruct (is_dir x); reflexivity.
  - rewrite H1. reflexivity.
Qed.

Hypothesis nothing_refused : forall q, refuses q = None.




End MakeDirFacts.



(** When the system refuses a directory, the runtimes part.  Nothing may be
    made at [out]: with [recursive] the promise of [makeDir] for [out/site]
    is rejected with the error of [fs.mkdir]; without, [fs.mkdir] fails with
    [ENOENT], the inner [makeDir] for [out] is rejected, its [await] throws
    inside the callback, and the outer promise is never settled.  For [out]
    itself the promise is rejected on both. *)
Lemma makeDir_refused :
  let refuses : Refusals :=
    fun p => match p with
             | [n] => if String.eqb n "out" then Some EACCES else None
             | _ => None
             end in
  makeDir refuses true 4 Example.disk ["out"; "site"]
  = Some (Rejected (SystemError "EACCES"), Example.disk)
  /\ makeDir refuses false 4 Example.disk ["out"; "site"]
     = Some (Pending, Example.disk)
  /\ makeDir refuses false 4 Example.disk ["out"]
     = Some (Rejected (SystemError "EACCES"), Example.disk).
Proof. cbv zeta. repeat split; vm_compute; reflexivity. Qed.





(** X13.  [makeDir] is idempotent: after a call that resolved, a second call
    for the same path, on either runtime, resolves and leaves the tree as the
    first one left it.  This holds whatever the system refuses. *)
Theorem makeDir_idempotent (refuses : Refusals) (fs_recursive again : bool)
  (fuel fuel' : nat) (fs fs' : node) (dirPath : path) :
  List.length dirPath < fuel -> List.length dirPath < fuel' ->
  makeDir refuses fs_recursive fuel fs dirPath = Some (Resolved, fs') ->
  makeDir refuses again fuel' fs' dirPath = Some (Resolved, fs').
Proof.
  intros _ Hfuel' H.
  destruct (makeDir_resolved_tree refuses fs_recursive fuel fs fs' _ H)
    as [[Hl ->]|[Hdirs _]].
  - apply (makeDir_again refuses again fuel' fs File dirPath); [lia | exact Hl].
  - destruct (Hdirs dirPath) as [es Hes]; [exists []; symmetry; apply app_nil_r|].
    apply (makeDir_again refuses again fuel' fs' (Dir es) dirPath); [lia | exact Hes].
Qed.

Lemma makeDir_idempotent_witness :
  makeDir no_refusals true 3
    (Dir [("templates", Dir [("site", Dir Example.site)]);
          ("out", Dir [("site", Dir [])])]) ["out"; "site"]
  = Some (Resolved,
          Dir [("templates", Dir [("site", Dir Example.site)]);
               ("out", Dir [("site", Dir [])])]).
Proof.
  apply (makeDir_idempotent no_refusals false true 3 3 Example.disk _ ["out"; "site"]).
  - simpl. lia.
  - simpl. lia.
  - reflexivity.
Defined.

(** ** The command line *)

Lemma backtrack_first {A : Type} (n : nat) (try : nat -> option A) (x : A) :
  try (S n) = Some x -> backtrack (S n) try = Some x.
Proof. intros H. simpl. rewrite H. reflexivity. Qed.

Lemma backtrack_skip {A : Type} (n j : nat) (try : nat -> option A) :
  j <= n -> (forall i, j < i <= n -> try i = None) ->
  backtrack n try = backtrack j try.
Proof.
  intros Hj Hnone. induction n as [|n IH].
  - assert (j = 0) by lia. subst. reflexivity.
  - destruct (Nat.eq_dec j (S n)) as [->|Hne]; [reflexivity|].
    simpl. rewrite (Hnone (S n)) by lia. apply IH; [lia|].
    intros i Hi. apply Hnone. lia.
Qed.

Lemma backtrack_none {A : Type} (n : nat) (try : nat -> option A) :
  (forall i, 1 <= i <= n -> try i = None) -> backtrack n try = None.
Proof.
  intros H. rewrite (backtrack_skip n 0); [reflexivity | lia |].
  intros i Hi. apply H. lia.
Qed.

Lemma backtrack_some {A : Type} (n : nat) (try : nat -> option A) (x : A) :
  backtrack n try = Some x -> exists i, 1 <= i <= n /\ try i = Some x.
Proof.
  induction n as [|n IH]; simpl; [discriminate|].
  destruct (try (S n)) as [y|] eqn:Hy.
  - intros H. inversion H; subst. exists (S n). split; [lia | exact Hy].
  - intros H. destruct (IH H) as (i & Hi & Hx). exists i. split; [lia | exact Hx].
Qed.

(** A pattern that starts with [^] matches at the first index or nowhere. *)
Lemma regex_scan_anchored (r : regex) (groups : nat) (input : string)
  (pos : nat) (rest : string) :
  0 < pos -> regex_scan (RSeq RStart r) groups input pos rest = None.
Proof.
  revert pos. induction rest as [|c rest IH]; intros pos Hpos;
    cbn [regex_scan regex_match];
    destruct (Nat.eqb_spec pos 0) as [H0|_]; try lia; [reflexivity|].
  apply IH. lia.
Qed.

Lemma regex_exec_anchored (r : regex) (groups : nat) (input : string) :
  regex_exec (RSeq RStart r) groups input
  = regex_match r Captures input 0 input (repeat None groups)
      (fun _ _ caps => Some caps).
Proof.
  unfold regex_exec. destruct input as [|c rest]; cbn [regex_scan regex_match Nat.eqb].
  - destruct (regex_match r _ _ _ _ _ _); reflexivity.
  - destruct (regex_match r _ _ _ _ _ _); [reflexivity|].
    apply regex_scan_anchored. lia.
Qed.

Lemma run_length_dot (s : string) :
  dot_run s = substring 0 (run_length MDot s) s.
Proof.
  induction s as [|c s IH]; [reflexivity|]. simpl.
  destruct (Flat.is_line_terminator c); simpl; [reflexivity|].
  rewrite IH. reflexivity.
Qed.


(** After the longest run of [.] no separator follows. *)
Lemma after_run_no_separator (s : string) :
  match string_from (run_length MDot s) s with
  | EmptyString => True
  | String c _ => char_matches (MSet [":"; "="]%unit) c = false
  end.
Proof.
  induction s as [|c s IH]; [exact I|]. cbn [run_length char_matches].
  destruct (Flat.is_line_terminator c) eqn:Hc; cbn [negb string_from].
  - unfold Flat.is_line_terminator in Hc. simpl.
    destruct (unit_eqb_spec c ":") as [->|_]; [discriminate|].
    destruct (unit_eqb_spec c "=") as [->|_]; [discriminate|]. reflexivity.
  - exact IH.
Qed.


Lemma single_flags_exec (c : code_unit) (rest : string) :
  CodeUnit.eqb c "-" = false -> Flat.is_line_terminator c = false ->
  regex_exec single_flags_pattern 1 (String "-" (String c rest))
  = Some [Some (String c (dot_run rest))].
Proof.
  intros Hc Hlt. unfold single_flags_pattern. rewrite regex_exec_anchored.
  cbn [regex_match char_matches repeat]. rewrite unit_eqb_refl, Hc.
  cbn [run_length char_matches]. rewrite Hlt. cbn [negb].
  apply backtrack_first. cbn [string_from].
  pose proof (after_run_no_separator rest) as Hafter.
  destruct (string_from (run_length MDot rest) rest) as [|d tail].
  - rewrite run_length_dot. reflexivity.
  - cbn [char_matches] in Hafter. rewrite Hafter, run_length_dot. reflexivity.
Qed.

(** Whenever the first pattern matches, its group has taken part. *)
Lemma single_flags_capture (arg : string) (caps : Captures) :
  regex_exec single_flags_pattern 1 arg = Some caps ->
  exists flags, capture 1 caps = Some flags.
Proof.
  unfold single_flags_pattern. rewrite regex_exec_anchored.
  cbn [regex_match repeat]. destruct arg as [|c rest]; [discriminate|].
  destruct (char_matches (MChar "-") c); [|discriminate].
  destruct (match rest with
            | EmptyString => None
            | String c0 _ => if char_matches (MChar "-") c0 then Some tt else None
            end); [discriminate|].
  intros H. apply backtrack_some in H. destruct H as (i & _ & H).
  destruct (match string_from i rest with
            | EmptyString => None
            | String c0 _ =>
                if char_matches (MSet [":"%unit; "="%unit]) c0 then Some tt else None
            end); [discriminate|].
  inversion H. eexists. reflexivity.
Qed.

Lemma visit_Normal (this : ArgsClass.t) (arg : string) (index : nat) :
  exists this', ArgsClass.visit this arg index = Normal this'.
Proof.
  unfold ArgsClass.visit.
  destruct (index =? 0); [eexists; reflexivity|].
  destruct (index =? 1); [eexists; reflexivity|].
  destruct (regex_exec single_flags_pattern 1 arg) as [caps|] eqn:H1.
  - destruct (single_flags_capture _ _ H1) as [flags Hf]. rewrite Hf.
    eexists; reflexivity.
  - destruct (regex_exec string_option_pattern 2 arg); [eexists; reflexivity|].
    destruct (regex_exec multi_flag_pattern 1 arg); [eexists; reflexivity|].
    destruct (regex_exec variable_pattern 2 arg); eexists; reflexivity.
Qed.

Lemma char_matches_separator (c : code_unit) :
  char_matches (MSet [":"; "="]%unit) c = is_separator c.
Proof. unfold is_separator. simpl. rewrite orb_false_r. reflexivity. Qed.



Lemma no_separator_from (k : nat) (s : string) :
  no_separator s = true ->
  match string_from k s with
  | EmptyString => True
  | String c _ => is_separator c = false
  end.
Proof.
  revert s. induction k as [|k IH]; intros s H.
  - destruct s as [|c s]; [exact I|]. simpl in *.
    apply andb_true_iff in H. destruct H as [H _].
    apply negb_true_iff in H. exact H.
  - destruct s as [|c s]; [exact I|]. simpl in *.
    apply andb_true_iff in H. destruct H as [_ H]. apply IH. exact H.
Qed.





Lemma no_dash_exec (arg : string) :
  no_dash arg = true ->
  regex_exec single_flags_pattern 1 arg = None
  /\ regex_exec string_option_pattern 2 arg = None
  /\ regex_exec multi_flag_pattern 1 arg = None.
Proof.
  intros H. unfold single_flags_pattern, string_option_pattern, multi_flag_pattern.
  rewrite !regex_exec_anchored. cbn [regex_match char_matches].
  destruct arg as [|c rest]; [repeat split|].
  simpl in H. apply negb_true_iff in H. rewrite H. repeat split.
Qed.

(** No separator follows at any index of a text without separators. *)
Lemma backtrack_no_separator {A : Type} (s : string) (n : nat)
  (F : nat -> string -> option A) :
  no_separator s = true ->
  backtrack n
    (fun i =>
       match string_from i s with
       | EmptyString => None
       | String c rest' =>
           if char_matches (MSet [":"; "="]%unit) c then F i rest' else None
       end)
  = None.
Proof.
  intros H. apply backtrack_none. intros i _.
  pose proof (no_separator_from i s H) as Hi.
  destruct (string_from i s); [reflexivity|].
  rewrite char_matches_separator, Hi. reflexivity.
Qed.

Lemma variable_exec_none (arg : string) :
  no_separator arg = true -> regex_exec variable_pattern 2 arg = None.
Proof.
  intros H. unfold variable_pattern. rewrite regex_exec_anchored.
  cbn [regex_match repeat].
  apply (backtrack_no_separator arg _
           (fun i rest' =>
              backtrack (run_length MDot rest')
                (fun n0 =>
                   match string_from n0 rest' with
                   | EmptyString =>
                       Some (set_capture (2 - 1)
                               (substring (S (0 + i)) (S (0 + i) + n0 - S (0 + i)) arg)
                               (set_capture (1 - 1) (substring 0 (0 + i - 0) arg)
                                  [None; None]))
                   | String _ _ => None
                   end)) H).
Qed.




Lemma visit_args (this : ArgsClass.t) (arg : string) (index : nat) :
  2 <= index ->
  exists this',
    ArgsClass.visit this arg index = Normal this'
    /\ ArgsClass.process this' = ArgsClass.process this
    /\ ArgsClass.script this' = ArgsClass.script this
    /\ ArgsClass.args this'
       = ArgsClass.args this ++ (if ArgsClass.positional arg then [arg] else []).
Proof.
  intros Hi. unfold ArgsClass.visit, ArgsClass.positional.
  destruct (Nat.eqb_spec index 0) as [H0|_]; [lia|].
  destruct (Nat.eqb_spec index 1) as [H1|_]; [lia|].
  destruct (regex_exec single_flags_pattern 1 arg) as [caps|] eqn:H1.
  - destruct (single_flags_capture _ _ H1) as [flags Hf]. rewrite Hf.
    eexists. repeat split. simpl. rewrite app_nil_r. reflexivity.
  - destruct (regex_exec string_option_pattern 2 arg).
    { eexists. repeat split. simpl. rewrite app_nil_r. reflexivity. }
    destruct (regex_exec multi_flag_pattern 1 arg).
    { eexists. repeat split. simpl. rewrite app_nil_r. reflexivity. }
    destruct (regex_exec variable_pattern 2 arg).
    { eexists. repeat split. simpl. rewrite app_nil_r. reflexivity. }
    eexists. repeat split.
Qed.

Lemma forEach_args (argv : list string) :
  forall (this : ArgsClass.t) (index : nat),
    2 <= index ->
    exists this',
      ArgsClass.forEach this argv index = Normal this'
      /\ ArgsClass.process this' = ArgsClass.process this
      /\ ArgsClass.script this' = ArgsClass.script this
      /\ ArgsClass.args this'
         = ArgsClass.args this ++ filter ArgsClass.positional argv.
Proof.
  induction argv as [|arg argv IH]; intros this index Hi.
  - exists this. simpl. rewrite app_nil_r. repeat split.
  - destruct (visit_args this arg index Hi) as (this1 & Hv & Hp & Hs & Ha).
    destruct (IH this1 (S index) ltac:(lia)) as (this2 & Hf & Hp2 & Hs2 & Ha2).
    exists this2. cbn [ArgsClass.forEach]. rewrite Hv. split; [exact Hf|].
    split; [congruence|]. split; [congruence|].
    rewrite Ha2, Ha. cbn [filter].
    destruct (ArgsClass.positional arg); simpl; rewrite <- app_assoc; reflexivity.
Qed.

(** X14.  The constructor never throws.  It keeps [argv[0]] and [argv[1]] as
    the process and the script without parsing them, and [this.args] is
    the arguments after them that match none of the four patterns, in the
    order of the command line. *)
Theorem Args_new_positional (argv : list string) :
  exists this,
    ArgsClass.new argv = Normal this
    /\ ArgsClass.process this = nth_error argv 0
    /\ ArgsClass.script this = nth_error argv 1
    /\ ArgsClass.args this = filter ArgsClass.positional (skipn 2 argv).
Proof.
  unfold ArgsClass.new.
  destruct argv as [|a0 [|a1 argv]].
  - eexists. repeat split.
  - eexists. repeat split.
  - cbn [ArgsClass.forEach ArgsClass.visit Nat.eqb].
    match goal with
    | |- context [ArgsClass.forEach ?st argv 2] =>
        destruct (forEach_args argv st 2 (le_n 2)) as (this & Hf & Hp & Hs & Ha)
    end.
    exists this. rewrite Hf, Hp, Hs, Ha. repeat split.
Qed.

(** X15.  An argument that starts with one dash followed by a character
    other than a dash or a line terminator is read as single-character
    flags, whatever follows: every character up to the first line terminator
    becomes a flag set to [true], a separator and the characters of a value
    among them.  The lookahead of the first pattern rejects nothing, so
    [-o=value] never reaches the pattern for string options. *)
Theorem Args_single_dash (this : ArgsClass.t) (c : code_unit) (rest : string)
  (index : nat) :
  2 <= index ->
  CodeUnit.eqb c "-" = false -> Flat.is_line_terminator c = false ->
  ArgsClass.visit this (String "-" (String c rest)) index
  = Normal (ArgsClass.mk (ArgsClass.process this) (ArgsClass.script this)
              (ArgsClass.args this)
              (ArgsClass.set_flags (String c (dot_run rest)) (ArgsClass.opts this))
              (ArgsClass.vars this)).
Proof.
  intros Hi Hc Hlt. unfold ArgsClass.visit.
  destruct (Nat.eqb_spec index 0) as [H0|_]; [lia|].
  destruct (Nat.eqb_spec index 1) as [H1|_]; [lia|].
  rewrite (single_flags_exec c rest Hc Hlt). reflexivity.
Qed.

Lemma Args_single_dash_witness :
  ArgsClass.new ["node"; "uff"; "-o=v"]
  = Normal (ArgsClass.mk (Some "node") (Some "uff") []
              (mkPlainObject
                 [("o", ArgsClass.OptTrue); ("=", ArgsClass.OptTrue);
                  ("v", ArgsClass.OptTrue)] true)
              empty_object).
Proof.
  exact (Args_single_dash
           (ArgsClass.mk (Some "node") (Some "uff") [] empty_object empty_object)
           "o" "=v" 2 (le_n 2) eq_refl eq_refl).
Defined.







(** X19.  An argument that does not start with a dash and holds no separator
    is positional: it is appended to [this.args] and nothing else changes. *)
Theorem Args_positional (this : ArgsClass.t) (arg : string) (index : nat) :
  2 <= index ->
  no_dash arg = true -> no_separator arg = true ->
  ArgsClass.visit this arg index
  = Normal (ArgsClass.mk (ArgsClass.process this) (ArgsClass.script this)
              (ArgsClass.args this ++ [arg]) (ArgsClass.opts this)
              (ArgsClass.vars this)).
Proof.
  intros Hi Hdash Hnosep. unfold ArgsClass.visit.
  destruct (Nat.eqb_spec index 0) as [H0|_]; [lia|].
  destruct (Nat.eqb_spec index 1) as [H1|_]; [lia|].
  destruct (no_dash_exec _ Hdash) as (H1 & H2 & H3). rewrite H1, H2, H3.
  rewrite (variable_exec_none _ Hnosep). reflexivity.
Qed.

Lemma Args_positional_witness :
  ArgsClass.new ["node"; "uff"; "run"]
  = Normal (ArgsClass.mk (Some "node") (Some "uff") ["run"]
              empty_object empty_object).
Proof.
  exact (Args_positional
           (ArgsClass.mk (Some "node") (Some "uff") [] empty_object empty_object)
           "run" 2 (le_n 2) eq_refl eq_refl).
Defined.
